(** * Identity reconciliation: the contact store and the consolidation engine

    A shallow embedding of [src/types.ts], of the [Database] class of
    [src/database.ts] and of the [ContactService] class that
    [src/index.ts] imports from [./contactService] (identify and
    buildConsolidatedContact), and of the validation and the POST
    /identify route of [src/index.ts].

    - The [contacts] table is the list of its rows in heap (scan) order.
    - Every [Database] method is one SQL statement, issued on a connection
      of its own and committed on its own: the source opens no transaction.
    - A run is numbered by the statements it issues.  The environment gives,
      for the statement of each number, the reading of NOW() and whether
      the store answers; a statement the store does not answer rejects and
      changes nothing.
    - The recursive query of [getLinkedContacts] is evaluated level by level
      with fuel; a run that needs more levels than any fuel has diverged.
    - A JavaScript string is truthy when it is not empty; [x || null] is
      [orNull].
    - A timestamp column is an integer number of microseconds, the value
      that NOW() gives and ORDER BY compares.  The [Date] that the driver
      makes of it keeps its whole milliseconds, and [getTime()] is all the
      JavaScript code reads of a date: a [Contact] holds the column value
      and [a.createdAt.getTime()] is [getTime (createdAt a)].
    - Column widths, the primary key and the foreign key of [linked_id]
      belong to the provisioning of the table and are not enforced by the
      model; the invariants of the data model ([wfStore]) imply the two
      keys. *)

From Stdlib Require Import ZArith List String Bool Lia Permutation Sorted Arith.
Import ListNotations.
Open Scope Z_scope.
Open Scope string_scope.
Open Scope list_scope.

(** ** src/types.ts *)

Inductive LinkPrecedence : Type := primary | secondary.

Record Contact : Type := mkContact {
  id : Z;
  phoneNumber : option string;
  email : option string;
  linkedId : option Z;
  linkPrecedence : LinkPrecedence;
  createdAt : Z;
  updatedAt : Z;
  deletedAt : option Z
}.

Record IdentifyRequest : Type := mkRequest {
  r_email : option string;
  r_phoneNumber : option string
}.

Record ConsolidatedContact : Type := mkConsolidated {
  primaryContatctId : Z;
  emails : list string;
  phoneNumbers : list string;
  secondaryContactIds : list Z
}.

(** ** JavaScript values *)

Definition isPrimary (c : Contact) : bool :=
  match linkPrecedence c with primary => true | secondary => false end.

Definition isSecondary (c : Contact) : bool :=
  match linkPrecedence c with primary => false | secondary => true end.

(** [if (s)] for [s : string | null | undefined]. *)
Definition truthy (s : option string) : bool :=
  match s with
  | Some s => negb (s =? "")
  | None => false
  end.

(** [s || null]. *)
Definition orNull (s : option string) : option string :=
  if truthy s then s else None.

(** [if (n)] for [n : number | null]. *)
Definition truthyId (n : option Z) : bool :=
  match n with
  | Some n => negb (n =? 0)%Z
  | None => false
  end.

Definition isNull {A : Type} (o : option A) : bool :=
  match o with Some _ => false | None => true end.

(** [arr.includes(s)] and [set.has(s)] on strings. *)
Definition includes (l : list string) (s : string) : bool :=
  existsb (String.eqb s) l.

(** [Array.prototype.sort(compareFn)] is stable: an element goes before the
    first element of the sorted rest that it does not compare greater than. *)
Section Sorting.
Context {A : Type} (compareFn : A -> A -> Z).

Fixpoint insertSorted (a : A) (l : list A) : list A :=
  match l with
  | [] => [a]
  | b :: l' => if (compareFn a b <=? 0)%Z then a :: l
               else b :: insertSorted a l'
  end.

Fixpoint sort (l : list A) : list A :=
  match l with
  | [] => []
  | a :: l' => insertSorted a (sort l')
  end.
End Sorting.

(** [date.getTime()] for the [Date] made of a timestamp column: the
    milliseconds, the microseconds below them dropped. *)
Definition getTime (t : Z) : Z := t / 1000.

(** [ORDER BY created_at ASC]. *)
Definition byCreatedAt (a b : Contact) : Z := createdAt a - createdAt b.

(** [a.createdAt.getTime() - b.createdAt.getTime()]. *)
Definition byGetTime (a b : Contact) : Z :=
  getTime (createdAt a) - getTime (createdAt b).

(** [ORDER BY created_at ASC, id ASC]. *)
Definition byCreatedAtId (a b : Contact) : Z :=
  if (createdAt a =? createdAt b)%Z then id a - id b
  else createdAt a - createdAt b.

(** The comparator of [buildConsolidatedContact]. *)
Definition primaryFirst (a b : Contact) : Z :=
  match linkPrecedence a, linkPrecedence b with
  | primary, secondary => -1
  | secondary, primary => 1
  | _, _ => getTime (createdAt a) - getTime (createdAt b)
  end.

(** [sort] on an array that may hold [undefined]: the defined elements are
    sorted, the undefined ones go to the end and are never compared. *)
Definition somes {A : Type} (l : list (option A)) : list A :=
  flat_map (fun o => match o with Some a => [a] | None => [] end) l.

Definition sortDefined {A : Type} (compareFn : A -> A -> Z)
    (l : list (option A)) : list (option A) :=
  map Some (sort compareFn (somes l)) ++ filter isNull l.

(** [new Set<number>()] filled by [add], read by [Array.from]: insertion
    order, first occurrence kept. *)
Definition setAdd (s : list Z) (n : Z) : list Z :=
  if existsb (Z.eqb n) s then s else s ++ [n].

(** ** Runs, outcomes and the statement monad *)

Inductive error : Type :=
| SqlSyntaxError
| StoreUnavailable
| TypeError
| UnexpectedState.

Inductive outcome (A : Type) : Type :=
| Ok (a : A)
| Throw (e : error)
| Diverge.
Arguments Ok {A} a.
Arguments Throw {A} e.
Arguments Diverge {A}.

Record Store : Type := mkStore {
  rows : list Contact;
  nextId : Z
}.

Record Env : Type := mkEnv {
  NOW : nat -> Z;
  available : nat -> bool
}.

(** The store and the number of statements issued so far. *)
Definition Run : Type := (Store * nat)%type.

Definition M (A : Type) : Type := Run -> outcome A * Run.

Definition ret {A : Type} (a : A) : M A := fun r => (Ok a, r).

Definition throw {A : Type} (e : error) : M A := fun r => (Throw e, r).

Definition bind {A B : Type} (m : M A) (f : A -> M B) : M B :=
  fun r =>
    match m r with
    | (Ok a, r') => f a r'
    | (Throw e, r') => (Throw e, r')
    | (Diverge, r') => (Diverge, r')
    end.

Notation "x <- m ;; k" := (bind m (fun x => k))
  (at level 61, m at next level, right associativity).
Notation "m ;;; k" := (bind m (fun _ => k))
  (at level 61, right associativity).

(** [await] of a value computed without the store. *)
Definition lift {A : Type} (o : outcome A) : M A := fun r => (o, r).

(** One statement: [getClient], [client.query], [client.release]. *)
Definition statement {A : Type} (env : Env)
    (query : Z -> Store -> outcome A * Store) : M A :=
  fun '(st, k) =>
    if available env k then
      let '(o, st') := query (NOW env k) st in (o, (st', S k))
    else (Throw StoreUnavailable, (st, S k)).

Fixpoint mapM {A B : Type} (f : A -> M B) (l : list A) : M (list B) :=
  match l with
  | [] => ret []
  | a :: l' => b <- f a ;; bs <- mapM f l' ;; ret (b :: bs)
  end.

(** ** src/database.ts *)

Module Database.

(** [email = $n]: a NULL column matches nothing. *)
Definition sqlEq (col : option string) (param : option string) : bool :=
  match col, param with
  | Some a, Some b => (a =? b)%string
  | _, _ => false
  end.

Definition sqlEqId (col : option Z) (param : Z) : bool :=
  match col with
  | Some a => (a =? param)%Z
  | None => false
  end.

(** The WHERE clause built by [findContactsByEmailOrPhone]. *)
Definition matchesEmailOrPhone (email' phoneNumber' : option string)
    (c : Contact) : bool :=
  isNull (deletedAt c) &&
  ((truthy email' && sqlEq (email c) email') ||
   (truthy phoneNumber' && sqlEq (phoneNumber c) phoneNumber')).

(** With neither field the query text ends in [AND ()] and is rejected.
    [ORDER BY created_at ASC] leaves rows of equal [created_at] in scan
    order. *)
Definition findContactsByEmailOrPhone (env : Env)
    (email' phoneNumber' : option string) : M (list Contact) :=
  statement env (fun _ st =>
    if truthy email' || truthy phoneNumber' then
      (Ok (sort byCreatedAt
             (filter (matchesEmailOrPhone email' phoneNumber') (rows st))),
       st)
    else (Throw SqlSyntaxError, st)).

(** The recursive term of [contact_tree]: the rows joined to the working
    table. *)
Definition childrenOf (tbl working : list Contact) : list Contact :=
  flat_map (fun ct =>
    filter (fun c => sqlEqId (linkedId c) (id ct) && isNull (deletedAt c))
           tbl) working.

(** WITH RECURSIVE ... UNION ALL: the working table is replaced by its
    children until it is empty; nothing is removed as already seen. *)
Fixpoint contact_tree (fuel : nat) (tbl working : list Contact)
    : option (list Contact) :=
  match working with
  | [] => Some []
  | _ :: _ =>
      match fuel with
      | O => None
      | S fuel' =>
          match contact_tree fuel' tbl (childrenOf tbl working) with
          | Some rest => Some (working ++ rest)
          | None => None
          end
      end
  end.

Definition linkedContacts (fuel : nat) (tbl : list Contact) (primaryId : Z)
    : option (list Contact) :=
  match contact_tree fuel tbl
          (filter (fun c => (id c =? primaryId)%Z && isNull (deletedAt c))
                  tbl) with
  | Some tree => Some (sort byCreatedAtId tree)
  | None => None
  end.

Definition getLinkedContacts (env : Env) (fuel : nat) (primaryId : Z)
    : M (list Contact) :=
  statement env (fun _ st =>
    match linkedContacts fuel (rows st) primaryId with
    | Some l => (Ok l, st)
    | None => (Diverge, st)
    end).

(** INSERT ... RETURNING *: [id] from the sequence, both timestamps
    DEFAULT NOW(), [deleted_at] NULL. *)
Definition insertedContact (now : Z) (st : Store)
    (email' phoneNumber' : option string) (linkedId' : option Z)
    (linkPrecedence' : LinkPrecedence) : Contact :=
  mkContact (nextId st) phoneNumber' email' linkedId' linkPrecedence'
            now now None.

Definition createContact (env : Env) (email' phoneNumber' : option string)
    (linkedId' : option Z) (linkPrecedence' : LinkPrecedence) : M Contact :=
  statement env (fun now st =>
    let c := insertedContact now st email' phoneNumber' linkedId'
                             linkPrecedence' in
    (Ok c, mkStore (rows st ++ [c]) (nextId st + 1))).

Definition toSecondary (now : Z) (contactId linkedId' : Z) (c : Contact)
    : Contact :=
  if (id c =? contactId)%Z then
    mkContact (id c) (phoneNumber c) (email c) (Some linkedId') secondary
              (createdAt c) now (deletedAt c)
  else c.

(** UPDATE ... SET linked_id, link_precedence, updated_at WHERE id = $2. *)
Definition updateContactToSecondary (env : Env) (contactId linkedId' : Z)
    : M unit :=
  statement env (fun now st =>
    (Ok tt, mkStore (map (toSecondary now contactId linkedId') (rows st))
                    (nextId st))).

Definition toNewPrimary (now : Z) (oldPrimaryId newPrimaryId : Z)
    (c : Contact) : Contact :=
  if sqlEqId (linkedId c) oldPrimaryId then
    mkContact (id c) (phoneNumber c) (email c) (Some newPrimaryId)
              (linkPrecedence c) (createdAt c) now (deletedAt c)
  else c.

(** UPDATE ... SET linked_id, updated_at WHERE linked_id = $2. *)
Definition updateLinkedContactsPrimary (env : Env)
    (oldPrimaryId newPrimaryId : Z) : M unit :=
  statement env (fun now st =>
    (Ok tt,
     mkStore (map (toNewPrimary now oldPrimaryId newPrimaryId) (rows st))
             (nextId st))).

End Database.

(** ** ContactService *)

Module ContactService.
Import Database.

(** [if (v && !arr.includes(v)) arr.push(v)]. *)
Definition pushNew (arr : list string) (v : option string) : list string :=
  match v with
  | Some s => if negb (s =? "") && negb (includes arr s) then arr ++ [s]
              else arr
  | None => arr
  end.

Definition buildConsolidatedContact (contacts : list Contact)
    : outcome ConsolidatedContact :=
  let sortedContacts := sort primaryFirst contacts in
  match find isPrimary sortedContacts with
  | None => Throw TypeError
  | Some primaryContact =>
      let secondaryContacts := filter isSecondary sortedContacts in
      let emails0 := pushNew [] (email primaryContact) in
      let phoneNumbers0 := pushNew [] (phoneNumber primaryContact) in
      Ok (mkConsolidated
            (id primaryContact)
            (fold_left (fun arr c => pushNew arr (email c))
                       secondaryContacts emails0)
            (fold_left (fun arr c => pushNew arr (phoneNumber c))
                       secondaryContacts phoneNumbers0)
            (map id secondaryContacts))
  end.

(** [new Set(contacts.map(field).filter(Boolean))]. *)
Definition existing (field : Contact -> option string)
    (contacts : list Contact) : list string :=
  somes (filter truthy (map field contacts)).

(** [v && !existing.has(v)]. *)
Definition hasNew (v : option string) (existing' : list string) : bool :=
  match v with
  | Some s => negb (s =? "") && negb (includes existing' s)
  | None => false
  end.

Definition introducesNew (email' phoneNumber' : option string)
    (allLinkedContacts : list Contact) : bool :=
  hasNew email' (existing email allLinkedContacts) ||
  hasNew phoneNumber' (existing phoneNumber allLinkedContacts).

(** The block that follows either materialization (lines 43-61 and
    88-105): create a secondary when the request brings a new value, then
    build the view. *)
Definition extendAndBuild (env : Env) (email' phoneNumber' : option string)
    (primaryId : Z) (allLinkedContacts : list Contact)
    : M ConsolidatedContact :=
  if introducesNew email' phoneNumber' allLinkedContacts then
    newSecondary <- createContact env (orNull email') (orNull phoneNumber')
                                  (Some primaryId) secondary ;;
    lift (buildConsolidatedContact (allLinkedContacts ++ [newSecondary]))
  else lift (buildConsolidatedContact allLinkedContacts).

(** Lines 20-36: the ids of the primaries among the matches, then the
    truthy [linkedId]s of the secondaries, without repetition. *)
Definition uniquePrimaryIds (existingContacts : list Contact) : list Z :=
  let primaryContacts := filter isPrimary existingContacts in
  let secondaryContacts := filter isSecondary existingContacts in
  fold_left
    (fun s c => match linkedId c with
                | Some l => if truthyId (linkedId c) then setAdd s l else s
                | None => s
                end)
    secondaryContacts
    (fold_left (fun s c => setAdd s (id c)) primaryContacts []).

(** Lines 80-83; [primary.id] and [oldestPrimary.id] throw on
    [undefined]. *)
Fixpoint demoteAll (env : Env) (oldestPrimary : option Contact)
    (otherPrimaries : list (option Contact)) : M unit :=
  match otherPrimaries with
  | [] => ret tt
  | primary' :: rest =>
      match primary', oldestPrimary with
      | Some p, Some o =>
          updateContactToSecondary env (id p) (id o) ;;;
          updateLinkedContactsPrimary env (id p) (id o) ;;;
          demoteAll env oldestPrimary rest
      | _, _ => throw TypeError
      end
  end.

Definition identify (env : Env) (fuel : nat) (request : IdentifyRequest)
    : M ConsolidatedContact :=
  let email' := r_email request in
  let phoneNumber' := r_phoneNumber request in
  existingContacts <- findContactsByEmailOrPhone env email' phoneNumber' ;;
  match existingContacts with
  | [] =>
      newContact <- createContact env (orNull email') (orNull phoneNumber')
                                  None primary ;;
      lift (buildConsolidatedContact [newContact])
  | _ :: _ =>
      match uniquePrimaryIds existingContacts with
      | [] => throw UnexpectedState
      | [primaryId] =>
          allLinkedContacts <- getLinkedContacts env fuel primaryId ;;
          extendAndBuild env email' phoneNumber' primaryId allLinkedContacts
      | ids =>
          primaryContactsDetails <- mapM (getLinkedContacts env fuel) ids ;;
          let allPrimaries :=
            sortDefined byGetTime
              (map (find isPrimary) primaryContactsDetails) in
          let oldestPrimary := hd None allPrimaries in
          let otherPrimaries := tl allPrimaries in
          demoteAll env oldestPrimary otherPrimaries ;;;
          match oldestPrimary with
          | None => throw TypeError
          | Some o =>
              allLinkedContacts <- getLinkedContacts env fuel (id o) ;;
              extendAndBuild env email' phoneNumber' (id o) allLinkedContacts
          end
      end
  end.

End ContactService.

(** ** src/index.ts *)

(** A property of the parsed JSON body as the handler observes it:
    [undefined] for a property the body does not have; of a number only
    whether it is falsy (0, -0, NaN); of an array or an object nothing. *)
Inductive JsValue : Type :=
| JUndefined
| JNull
| JBool (b : bool)
| JNumber (falsy : bool)
| JString (s : string)
| JObject.

(** [if (v)]. *)
Definition jsTruthy (v : JsValue) : bool :=
  match v with
  | JUndefined | JNull => false
  | JBool b => b
  | JNumber falsy => negb falsy
  | JString s => negb (s =? "")
  | JObject => true
  end.

(** [typeof v === 'string']. *)
Definition isString (v : JsValue) : bool :=
  match v with JString _ => true | _ => false end.

(** [req.body], of which the route reads [email] and [phoneNumber]. *)
Record Body : Type := mkBody {
  b_email : JsValue;
  b_phoneNumber : JsValue
}.

Inductive Payload : Type :=
| ErrorPayload (error : string)
| ContactPayload (contact : ConsolidatedContact).

(** [res.status(status).json(payload)]; [res.json] answers with 200. *)
Record Response : Type := Json {
  status : Z;
  payload : Payload
}.

(** Lines 24-46: [Some] is the answer sent instead of calling [next()]. *)
Definition validateIdentifyRequest (body : Body) : option Response :=
  let email' := b_email body in
  let phoneNumber' := b_phoneNumber body in
  if negb (jsTruthy email') && negb (jsTruthy phoneNumber') then
    Some (Json 400 (ErrorPayload
            "At least one of email or phoneNumber must be provided"))
  else if jsTruthy email' && negb (isString email') then
    Some (Json 400 (ErrorPayload "Email must be a string"))
  else if jsTruthy phoneNumber' && negb (isString phoneNumber') then
    Some (Json 400 (ErrorPayload "Phone number must be a string"))
  else None.

(** The body read as an [IdentifyRequest] (line 51, a cast): [identify]
    and the statements it sends test a field for truthiness before every
    other use, so a falsy value of any type acts as [null]; a truthy value
    that passed the validation is a string. *)
Definition asField (v : JsValue) : option string :=
  match v with
  | JString s => Some s
  | _ => None
  end.

Definition asRequest (body : Body) : IdentifyRequest :=
  mkRequest (asField (b_email body)) (asField (b_phoneNumber body)).

(** Lines 24-65: the validation and the handler on a body. A statement
    that does not return leaves the request unanswered. *)
Definition identifyRoute (env : Env) (fuel : nat) (body : Body)
    : Run -> option Response * Run :=
  fun r =>
    match validateIdentifyRequest body with
    | Some rejected => (Some rejected, r)
    | None =>
        match ContactService.identify env fuel (asRequest body) r with
        | (Ok consolidatedContact, r') =>
            (Some (Json 200 (ContactPayload consolidatedContact)), r')
        | (Throw _, r') =>
            (Some (Json 500 (ErrorPayload "Internal server error")), r')
        | (Diverge, r') => (None, r')
        end
    end.

(** What [express.json()] (line 17) makes of a POST before the route sees
    it: it passes an error on for a body it does not accept (JSON that
    does not parse, a value that is no object or array, a body over the
    size limit); or it leaves [req.body] undefined; or [req.body] is the
    parsed object or array, of which the route reads two properties. *)
Inductive Incoming : Type :=
| ParseError
| BodyUndefined
| BodyObject (body : Body).

(** Lines 73-76: the error-handling middleware answers every error that
    is passed on or thrown, whatever it is. *)
Definition errorMiddleware : Response :=
  Json 500 (ErrorPayload "Internal server error").

(** POST /identify through the chain of line 17, lines 24-65 and lines
    73-76: the error of the parser, and the TypeError of line 25 when it
    destructures an undefined body, reach the error middleware. *)
Definition postIdentify (env : Env) (fuel : nat) (req : Incoming)
    : Run -> option Response * Run :=
  fun r =>
    match req with
    | ParseError => (Some errorMiddleware, r)
    | BodyUndefined => (Some errorMiddleware, r)
    | BodyObject body => identifyRoute env fuel body r
    end.

(** * Specification vocabulary *)

Import Database ContactService.

(** ** Orders and matches *)

(** [ORDER BY] keys as relations. *)
Definition createdAtLe (a b : Contact) : Prop := createdAt a <= createdAt b.

(** The order the JavaScript comparators see: [a] is not later than [b]
    to the millisecond. *)
Definition getTimeLe (a b : Contact) : Prop :=
  getTime (createdAt a) <= getTime (createdAt b).

Definition createdAtIdLe (a b : Contact) : Prop :=
  createdAt a < createdAt b \/ (createdAt a = createdAt b /\ id a <= id b).

(** What the request asks [findContactsByEmailOrPhone] for: a row that is
    not deleted and carries the given email or the given phone number. *)
Definition isCandidate (email' phoneNumber' : option string) (c : Contact)
    : Prop :=
  deletedAt c = None /\
  ((truthy email' = true /\ email c = email') \/
   (truthy phoneNumber' = true /\ phoneNumber c = phoneNumber')).

(** The owning primary id of a match: itself if primary, else its link. *)
Definition ownerOf (c : Contact) : option Z :=
  match linkPrecedence c with
  | primary => Some (id c)
  | secondary => if truthyId (linkedId c) then linkedId c else None
  end.

(** The request brings a value of [field] that no member of [cluster]
    carries. *)
Definition bringsNew (field : Contact -> option string) (v : option string)
    (cluster : list Contact) : Prop :=
  exists s, v = Some s /\ s <> "" /\
            forall c, In c cluster -> field c <> Some s.

(** ** Frames *)

(** Every run of [m] relates the store before to the store after by [P]. *)
Definition preserves (P : Store -> Store -> Prop) {A : Type} (m : M A)
    : Prop :=
  forall st k o st' k', m (st, k) = (o, (st', k')) -> P st st'.

(** The fields no mutation may touch. *)
Definition sameIdentity (c c' : Contact) : Prop :=
  id c' = id c /\ email c' = email c /\ phoneNumber c' = phoneNumber c /\
  createdAt c' = createdAt c /\ deletedAt c' = deletedAt c.

(** [st'] holds the rows of [st], each with the same identity, followed by
    rows that carry no deletion mark. *)
Definition framed (st st' : Store) : Prop :=
  exists kept created,
    rows st' = kept ++ created /\
    Forall2 sameIdentity (rows st) kept /\
    Forall (fun c => deletedAt c = None) created.

(** The same clock on a store that answers every statement. *)
Definition answering (env : Env) : Env := mkEnv (NOW env) (fun _ => true).

(** A run that returns does not depend on the answers it did not need. *)
Definition steady {A : Type} (m : Env -> M A) : Prop :=
  forall env r a r', m env r = (Ok a, r') -> m (answering env) r = (Ok a, r').

(** ** The invariants of the data model *)

(** Ids are unique, positive and below the sequence; no row is deleted; a
    primary has no link and a secondary links to a stored primary. *)
Record wfStore (st : Store) : Prop := mkWf {
  wf_next : 0 < nextId st;
  wf_ids : NoDup (map id (rows st));
  wf_seq : Forall (fun c => 0 < id c < nextId st) (rows st);
  wf_live : Forall (fun c => deletedAt c = None) (rows st);
  wf_links :
    Forall (fun c =>
              match linkPrecedence c with
              | primary => linkedId c = None
              | secondary =>
                  exists p, In p (rows st) /\ linkPrecedence p = primary /\
                            linkedId c = Some (id p)
              end) (rows st)
}.

(** A checker for [wfStore] on concrete stores. *)
Fixpoint distinctIds (l : list Z) : bool :=
  match l with
  | [] => true
  | i :: l' => negb (existsb (Z.eqb i) l') && distinctIds l'
  end.

Definition wfStoreb (st : Store) : bool :=
  (0 <? nextId st)%Z &&
  distinctIds (map id (rows st)) &&
  forallb (fun c => (0 <? id c)%Z && (id c <? nextId st)%Z) (rows st) &&
  forallb (fun c => isNull (deletedAt c)) (rows st) &&
  forallb (fun c =>
             match linkPrecedence c with
             | primary => isNull (linkedId c)
             | secondary =>
                 existsb (fun p => isPrimary p && sqlEqId (linkedId c) (id p))
                         (rows st)
             end) (rows st).

(** Invariant 2: the link of every secondary references a primary. *)
Definition flat (st : Store) : Prop :=
  forall c, In c (rows st) -> linkPrecedence c = secondary ->
    exists p, In p (rows st) /\ linkedId c = Some (id p) /\
              linkPrecedence p = primary.

(** Invariant 3: the cluster of a primary is the primary and every row
    whose link is its id. *)
Definition secondariesOf (tbl : list Contact) (primaryId : Z) : list Contact :=
  filter (fun c => sqlEqId (linkedId c) primaryId && isNull (deletedAt c)) tbl.

Definition clusterOf (tbl : list Contact) (p : Contact) : list Contact :=
  p :: secondariesOf tbl (id p).

(** Invariant 4 as the code keeps it: no member of a cluster was created
    in a millisecond before that of its primary. *)
Definition oldestFirst (st : Store) : Prop :=
  forall c p, In c (rows st) -> In p (rows st) ->
              linkedId c = Some (id p) -> getTimeLe p c.

(** Invariant 4 as the specification words it: the primary comes first in
    (createdAt, id) order. *)
Definition oldestFirstById (st : Store) : Prop :=
  forall c p, In c (rows st) -> In p (rows st) ->
              linkedId c = Some (id p) -> createdAtIdLe p c.

(** Invariant 5: contacts that share an email or a phone number have the
    same owning primary. *)
Definition sharesValue (a b : Contact) : Prop :=
  (exists s, s <> "" /\ email a = Some s /\ email b = Some s) \/
  (exists s, s <> "" /\ phoneNumber a = Some s /\ phoneNumber b = Some s).

Definition maximalClusters (st : Store) : Prop :=
  forall a b, In a (rows st) -> In b (rows st) -> sharesValue a b ->
              ownerOf a = ownerOf b.

(** No stored value is the empty string: the engine stores [v || null]. *)
Definition noEmptyValue (c : Contact) : Prop :=
  email c <> Some "" /\ phoneNumber c <> Some "".

(** The link chains of [tbl] are acyclic: the contact a row links to has a
    strictly larger [rank] than the row, so the rank bounds the depth of the
    rows below a contact. *)
Definition ranked (rank : Z -> nat) (tbl : list Contact) : Prop :=
  forall c p, In c tbl -> deletedAt c = None -> linkedId c = Some p ->
              (rank (id c) < rank p)%nat.

(** ** Clocks and histories *)

(** From statement [k] on, the clock is not behind any stored createdAt. *)
Definition clockAhead (env : Env) (st : Store) (k : nat) : Prop :=
  forall c j, In c (rows st) -> (k <= j)%nat -> createdAt c <= NOW env j.

Definition monotoneClock (env : Env) : Prop :=
  forall i j, (i <= j)%nat -> NOW env i <= NOW env j.

(** A history of calls that returned, each starting where the one before
    left the store. *)
Inductive history (env : Env) (fuel : nat) : Run -> Run -> Prop :=
| history_nil : forall r, history env fuel r r
| history_call : forall r request v r1 r2,
    identify env fuel request r = (Ok v, r1) ->
    history env fuel r1 r2 ->
    history env fuel r r2.

(** ** The merge loop, row by row *)

(** What lines 80-83 make of one row when every statement is answered:
    for each absorbed id in turn, the demotion issued as statement [k] and
    the relinking issued as statement [k+1]. *)
Fixpoint demotedRow (env : Env) (k : nat) (oldestId : Z) (absorbed : list Z)
    (c : Contact) : Contact :=
  match absorbed with
  | [] => c
  | p :: rest =>
      demotedRow env (S (S k)) oldestId rest
        (toNewPrimary (NOW env (S k)) p oldestId
           (toSecondary (NOW env k) p oldestId c))
  end.

(** How the merge leaves a row: an absorbed primary is a secondary of the
    survivor, a row that was linked to an absorbed primary is linked to the
    survivor, any other row is as it was. *)
Definition mergedRow (oldestId : Z) (absorbed : list Z) (c c' : Contact)
    : Prop :=
  sameIdentity c c' /\
  (In (id c) absorbed ->
   linkPrecedence c' = secondary /\ linkedId c' = Some oldestId) /\
  (~ In (id c) absorbed ->
   (exists p, linkedId c = Some p /\ In p absorbed) ->
   linkPrecedence c' = linkPrecedence c /\ linkedId c' = Some oldestId) /\
  (~ In (id c) absorbed ->
   (forall p, linkedId c = Some p -> ~ In p absorbed) -> c' = c).

(** ** The consolidated view in the words of the specification *)

(** First-seen-wins: a value stays where it first occurs, later
    occurrences are dropped. *)
Fixpoint keepFirst (l : list string) : list string :=
  match l with
  | [] => []
  | s :: l' => s :: filter (fun t => negb (t =? s)) (keepFirst l')
  end.

(** The primary's id; the primary's value first, then the secondaries'
    values in (createdAt, id) order, nulls skipped, first occurrence kept;
    the ids of the members that are not primary in (createdAt, id)
    order. *)
Definition consolidatedView (cluster : list Contact)
    : outcome ConsolidatedContact :=
  match find isPrimary cluster with
  | None => Throw TypeError
  | Some p =>
      let secondaries :=
        sort byCreatedAtId (filter (fun c => negb (isPrimary c)) cluster) in
      Ok (mkConsolidated
            (id p)
            (keepFirst (somes (email p :: map email secondaries)))
            (keepFirst (somes (phoneNumber p :: map phoneNumber secondaries)))
            (map id secondaries))
  end.

(** ** Stores and environments used as examples *)

(** A store that always answers, with the clock at [100 + k] for the
    statement numbered [k]. *)
Definition envUp : Env :=
  mkEnv (fun k => 100 + Z.of_nat k) (fun _ => true).

(** The clock of [envUp] on a store that does not answer statement [n]. *)
Definition envDownAt (n : nat) : Env :=
  mkEnv (fun k => 100 + Z.of_nat k) (fun k => negb (k =? n)%nat).

(** The store after scenario A of the specification: one primary. *)
Definition oneStore : Store :=
  mkStore [ mkContact 1 None (Some "a@x.com") None primary 101 101 None ] 2.

(** Two rows of equal [created_at] matching one request, scanned with the
    larger id first. *)
Definition scanRows : list Contact :=
  [ mkContact 2 (Some "p") None None primary 10 10 None;
    mkContact 1 None (Some "a") (Some 2) secondary 10 30 None ].

(** A secondary without a link: a match that no primary owns. *)
Definition orphanStore : Store :=
  mkStore [ mkContact 1 None (Some "a") None secondary 10 10 None ] 2.

(** A row linked to itself. *)
Definition loopStore : Store :=
  mkStore [ mkContact 1 None (Some "a") (Some 1) secondary 10 10 None ] 2.

(** A chain of depth two: 3 links to 2, which links to 1. *)
Definition chainStore : Store :=
  mkStore [ mkContact 1 None (Some "a") None primary 10 10 None;
            mkContact 2 None (Some "b") (Some 1) secondary 11 11 None;
            mkContact 3 None (Some "c") (Some 2) secondary 12 12 None ] 4.

Definition chainRank (i : Z) : nat :=
  if (i =? 1)%Z then 2%nat else if (i =? 2)%Z then 1%nat else 0%nat.

(** Two primaries created at the same instant, in separate clusters; the
    secondary 3 belongs to primary 1. *)
Definition tieStore : Store :=
  mkStore [ mkContact 1 None (Some "a") None primary 10 10 None;
            mkContact 2 (Some "p") None None primary 10 10 None;
            mkContact 3 (Some "q") (Some "s") (Some 1) secondary 11 11 None ]
          4.

(** [tieStore] after identify(s, p): the matches are the primary 2 and the
    secondary 3 of primary 1, the owners come out as 2, 1, and the stable
    sort on equal createdAt keeps 2 first. *)
Definition tieMerged : Store :=
  mkStore [ mkContact 1 None (Some "a") (Some 2) secondary 10 103 None;
            mkContact 2 (Some "p") None None primary 10 10 None;
            mkContact 3 (Some "q") (Some "s") (Some 2) secondary 11 104 None ]
          4.

(** The same call when the store does not answer statement 4, the
    relinking: contact 1 is demoted, contact 3 still links to it. *)
Definition tieTorn : Store :=
  mkStore [ mkContact 1 None (Some "a") (Some 2) secondary 10 103 None;
            mkContact 2 (Some "p") None None primary 10 10 None;
            mkContact 3 (Some "q") (Some "s") (Some 1) secondary 11 11 None ]
          4.

(** [tieStore] with dates that differ: primary 2 was created 100
    microseconds after primary 1, in the same millisecond. *)
Definition sameMilliStore : Store :=
  mkStore [ mkContact 1 None (Some "a") None primary 5000 5000 None;
            mkContact 2 (Some "p") None None primary 5100 5100 None;
            mkContact 3 (Some "q") (Some "s") (Some 1) secondary 6000 6000
                        None ]
          4.

(** The same with primary 2 created in a later millisecond than
    primary 1. *)
Definition nextMilliStore : Store :=
  mkStore [ mkContact 1 None (Some "a") None primary 5000 5000 None;
            mkContact 2 (Some "p") None None primary 6100 6100 None;
            mkContact 3 (Some "q") (Some "s") (Some 1) secondary 7000 7000
                        None ]
          4.

(** A store that always answers, with the clock at [9000 + 100 k]
    microseconds for the statement numbered [k]. *)
Definition envLate : Env :=
  mkEnv (fun k => 9000 + 100 * Z.of_nat k) (fun _ => true).

(** Two primaries that share a phone number, which one request reaches
    together with an email nobody has. *)
Definition sharedStore : Store :=
  mkStore [ mkContact 1 (Some "p") (Some "a") None primary 10 10 None;
            mkContact 2 (Some "p") (Some "b") None primary 20 20 None;
            mkContact 3 (Some "r") (Some "b") (Some 2) secondary 30 30 None ]
          4.

(** ** Vocabulary of the further properties *)

(** The rows the recursive query reaches from [primaryId]: the live row of
    that id, and every live row linked to a row it reaches. *)
Inductive linkedFrom (tbl : list Contact) (primaryId : Z) : Contact -> Prop :=
| linkedFrom_root : forall c,
    In c tbl -> id c = primaryId -> deletedAt c = None ->
    linkedFrom tbl primaryId c
| linkedFrom_child : forall w c,
    linkedFrom tbl primaryId w ->
    In c tbl -> linkedId c = Some (id w) -> deletedAt c = None ->
    linkedFrom tbl primaryId c.

(** The rows below a working table. *)
Inductive below (tbl working : list Contact) : Contact -> Prop :=
| below_here : forall c, In c working -> below tbl working c
| below_child : forall w c,
    below tbl working w -> In c (childrenOf tbl [w]) -> below tbl working c.

(** A run on [env] goes as on the store that always answers, or stops at
    the first statement that is not answered. *)
Definition sameOrDown {A : Type} (m : Env -> M A) : Prop :=
  forall env r,
    m env r = m (answering env) r \/
    exists r', m env r = (Throw StoreUnavailable, r').

(** No row added, the sequence not advanced. *)
Definition sameSize (st st' : Store) : Prop :=
  List.length (rows st') = List.length (rows st) /\ nextId st' = nextId st.

(** No row added, or one row added at the end with the next id of the
    sequence. *)
Definition atMostOneMore (st st' : Store) : Prop :=
  sameSize st st' \/
  exists kept c,
    rows st' = kept ++ [c] /\
    List.length kept = List.length (rows st) /\
    id c = nextId st /\ nextId st' = nextId st + 1.

(** Some member of [l] carries the value [v] of [field], when [v] is a
    non-empty string. *)
Definition carried (field : Contact -> option string) (v : option string)
    (l : list Contact) : Prop :=
  forall s, v = Some s -> s <> "" -> exists c, In c l /\ field c = Some s.

(** What a stored row keeps for good: its id, being a secondary, having a
    link. *)
Definition stays (c c' : Contact) : Prop :=
  id c' = id c /\
  (linkPrecedence c = secondary -> linkPrecedence c' = secondary) /\
  (linkedId c <> None -> linkedId c' <> None).

(** [st'] holds the rows of [st] in their places, each as it [stays],
    followed by other rows. *)
Definition keeps (st st' : Store) : Prop :=
  exists kept created,
    rows st' = kept ++ created /\ Forall2 stays (rows st) kept.

(** * Properties *)

(** ** Reasoning about runs *)

Lemma statement_inv {A : Type} (env : Env)
    (query : Z -> Store -> outcome A * Store) st k o st' k' :
  statement env query (st, k) = (o, (st', k')) ->
  k' = S k /\
  ((available env k = true /\ query (NOW env k) st = (o, st')) \/
   (available env k = false /\ o = Throw StoreUnavailable /\ st' = st)).
Proof.
  unfold statement. destruct (available env k).
  - destruct (query (NOW env k) st) as [o1 st1]. intros H.
    inversion H; subst. auto.
  - intros H. inversion H; subst. auto.
Qed.

Lemma bind_inv {A B : Type} (m : M A) (f : A -> M B) r o r' :
  bind m f r = (o, r') ->
  (exists a r1, m r = (Ok a, r1) /\ f a r1 = (o, r')) \/
  (exists e, m r = (Throw e, r') /\ o = Throw e) \/
  (m r = (Diverge, r') /\ o = Diverge).
Proof.
  unfold bind. destruct (m r) as [[a | e |] r1]; intros H.
  - left. eauto.
  - inversion H; subst. right; left. eauto.
  - inversion H; subst. right; right. auto.
Qed.

Lemma bind_Ok_inv {A B : Type} (m : M A) (f : A -> M B) r b r' :
  bind m f r = (Ok b, r') ->
  exists a r1, m r = (Ok a, r1) /\ f a r1 = (Ok b, r').
Proof.
  intros H. apply bind_inv in H.
  destruct H as [H | [[e [_ H]] | [_ H]]]; [exact H | discriminate..].
Qed.

(** A relation between the store before and after that every step of a run
    keeps. *)
Section Preserves.
Variable P : Store -> Store -> Prop.
Hypothesis P_refl : forall st, P st st.
Hypothesis P_trans : forall a b c, P a b -> P b c -> P a c.

Lemma preserves_ret {A : Type} (a : A) : preserves P (ret a).
Proof. intros st k o st' k' H. inversion H; subst. apply P_refl. Qed.

Lemma preserves_throw {A : Type} e : preserves P (@throw A e).
Proof. intros st k o st' k' H. inversion H; subst. apply P_refl. Qed.

Lemma preserves_lift {A : Type} (o : outcome A) : preserves P (lift o).
Proof. intros st k o' st' k' H. inversion H; subst. apply P_refl. Qed.

Lemma preserves_bind {A B : Type} (m : M A) (f : A -> M B) :
  preserves P m -> (forall a, preserves P (f a)) -> preserves P (bind m f).
Proof.
  intros Hm Hf st k o st' k' H. apply bind_inv in H.
  destruct H as [[a [[st1 k1] [H1 H2]]] | [[e [H1 _]] | [H1 _]]].
  - eapply P_trans; [eapply Hm | eapply Hf]; eassumption.
  - eapply Hm; eassumption.
  - eapply Hm; eassumption.
Qed.

Lemma preserves_statement {A : Type} env
    (query : Z -> Store -> outcome A * Store) :
  (forall now st, P st (snd (query now st))) ->
  preserves P (statement env query).
Proof.
  intros Hq st k o st' k' H. apply statement_inv in H.
  destruct H as [_ [[_ H] | [_ [_ H]]]].
  - specialize (Hq (NOW env k) st). rewrite H in Hq. exact Hq.
  - subst. apply P_refl.
Qed.

Lemma preserves_mapM {A B : Type} (f : A -> M B) l :
  (forall a, preserves P (f a)) -> preserves P (mapM f l).
Proof.
  intros Hf. induction l as [| a l IH]; simpl.
  - apply preserves_ret.
  - apply preserves_bind; [apply Hf |]. intros b.
    apply preserves_bind; [exact IH |]. intros bs. apply preserves_ret.
Qed.

Hypothesis P_insert : forall now st e p l prec,
  P st (mkStore (rows st ++
                 [insertedContact now st (orNull e) (orNull p) l prec])
                (nextId st + 1)).
Hypothesis P_toSecondary : forall now st cid lid,
  P st (mkStore (map (toSecondary now cid lid) (rows st)) (nextId st)).
Hypothesis P_toNewPrimary : forall now st old new,
  P st (mkStore (map (toNewPrimary now old new) (rows st)) (nextId st)).

Lemma preserves_find env e p : preserves P (findContactsByEmailOrPhone env e p).
Proof.
  apply preserves_statement. intros now st.
  destruct (truthy e || truthy p); apply P_refl.
Qed.

Lemma preserves_getLinked env fuel pid :
  preserves P (getLinkedContacts env fuel pid).
Proof.
  apply preserves_statement. intros now st.
  destruct (linkedContacts fuel (rows st) pid); apply P_refl.
Qed.

Lemma preserves_create env e p l prec :
  preserves P (createContact env (orNull e) (orNull p) l prec).
Proof. apply preserves_statement. intros now st. apply P_insert. Qed.

Lemma preserves_demote env cid lid :
  preserves P (updateContactToSecondary env cid lid).
Proof. apply preserves_statement. intros now st. apply P_toSecondary. Qed.

Lemma preserves_relink env old new :
  preserves P (updateLinkedContactsPrimary env old new).
Proof. apply preserves_statement. intros now st. apply P_toNewPrimary. Qed.

Lemma preserves_demoteAll env o l : preserves P (demoteAll env o l).
Proof.
  induction l as [| p l IH]; simpl.
  - apply preserves_ret.
  - destruct p as [p |]; [destruct o as [o |] |];
      try apply preserves_throw.
    apply preserves_bind; [apply preserves_demote | intros _].
    apply preserves_bind; [apply preserves_relink | intros _]. exact IH.
Qed.

Lemma preserves_extendAndBuild env e p pid l :
  preserves P (extendAndBuild env e p pid l).
Proof.
  unfold extendAndBuild. destruct (introducesNew e p l).
  - apply preserves_bind; [apply preserves_create | intros c].
    apply preserves_lift.
  - apply preserves_lift.
Qed.

Lemma preserves_identify env fuel req : preserves P (identify env fuel req).
Proof.
  unfold identify.
  apply preserves_bind; [apply preserves_find | intros cands].
  destruct cands as [| c0 cands].
  - apply preserves_bind; [apply preserves_create | intros c].
    apply preserves_lift.
  - destruct (uniquePrimaryIds (c0 :: cands)) as [| i1 [| i2 ids]].
    + apply preserves_throw.
    + apply preserves_bind; [apply preserves_getLinked | intros l].
      apply preserves_extendAndBuild.
    + apply preserves_bind;
        [apply preserves_mapM; intros a; apply preserves_getLinked |].
      intros groups.
      apply preserves_bind; [apply preserves_demoteAll | intros _].
      destruct (hd None _) as [o |]; [| apply preserves_throw].
      apply preserves_bind; [apply preserves_getLinked | intros l].
      apply preserves_extendAndBuild.
Qed.
End Preserves.

(** ** Frame of the mutations *)

Lemma sameIdentity_refl c : sameIdentity c c.
Proof. repeat split. Qed.

Lemma sameIdentity_trans a b c :
  sameIdentity a b -> sameIdentity b c -> sameIdentity a c.
Proof.
  unfold sameIdentity. intros (?&?&?&?&?) (?&?&?&?&?).
  repeat split; congruence.
Qed.

Lemma Forall2_sameIdentity_refl l : Forall2 sameIdentity l l.
Proof. induction l; constructor; auto using sameIdentity_refl. Qed.

Lemma Forall2_sameIdentity_trans l1 l2 l3 :
  Forall2 sameIdentity l1 l2 -> Forall2 sameIdentity l2 l3 ->
  Forall2 sameIdentity l1 l3.
Proof.
  intros H. revert l3. induction H; intros l3 H3; inversion H3; subst;
    constructor; eauto using sameIdentity_trans.
Qed.

Lemma Forall2_map_r {A B : Type} (R : A -> B -> Prop) (f : A -> B) l :
  (forall a, R a (f a)) -> Forall2 R l (map f l).
Proof. intros H. induction l; simpl; constructor; auto. Qed.

Lemma framed_refl st : framed st st.
Proof.
  exists (rows st), []. rewrite app_nil_r.
  auto using Forall2_sameIdentity_refl.
Qed.

Lemma framed_trans a b c : framed a b -> framed b c -> framed a c.
Proof.
  intros (k1 & c1 & E1 & F1 & D1) (k2 & c2 & E2 & F2 & D2).
  rewrite E1 in F2. apply Forall2_app_inv_l in F2.
  destruct F2 as (k2a & k2b & Fa & Fb & ->).
  exists k2a, (k2b ++ c2). rewrite E2, app_assoc. split; [reflexivity |].
  split; [eapply Forall2_sameIdentity_trans; eassumption |].
  apply Forall_app. split; [| exact D2].
  clear - Fb D1. induction Fb; constructor.
  - inversion D1; subst. destruct H as (_ & _ & _ & _ & H). congruence.
  - inversion D1; subst. auto.
Qed.

Lemma toSecondary_frame now cid lid c :
  sameIdentity c (toSecondary now cid lid c) /\
  (id c <> cid -> toSecondary now cid lid c = c).
Proof.
  unfold toSecondary. destruct (Z.eqb_spec (id c) cid).
  - split; [repeat split | contradiction].
  - split; [apply sameIdentity_refl | reflexivity].
Qed.

Lemma toNewPrimary_frame now old new c :
  sameIdentity c (toNewPrimary now old new c) /\
  linkPrecedence (toNewPrimary now old new c) = linkPrecedence c /\
  (linkedId c <> Some old -> toNewPrimary now old new c = c).
Proof.
  unfold toNewPrimary, sqlEqId. destruct (linkedId c) as [l |].
  - destruct (Z.eqb_spec l old).
    + subst. repeat split. congruence.
    + repeat split.
  - repeat split.
Qed.

Lemma identify_framed env fuel req : preserves framed (identify env fuel req).
Proof.
  apply preserves_identify.
  - apply framed_refl.
  - apply framed_trans.
  - intros now st e p l prec.
    exists (rows st), [insertedContact now st (orNull e) (orNull p) l prec].
    simpl. split; [reflexivity |]. split; [apply Forall2_sameIdentity_refl |].
    repeat constructor.
  - intros now st cid lid. eexists _, []. simpl. rewrite app_nil_r.
    split; [reflexivity |]. split; [| constructor].
    apply Forall2_map_r. intros a. apply toSecondary_frame.
  - intros now st old new. eexists _, []. simpl. rewrite app_nil_r.
    split; [reflexivity |]. split; [| constructor].
    apply Forall2_map_r. intros a. apply toNewPrimary_frame.
Qed.

(** C10. Demotion rewrites only the row whose id is the target and there
    only link, precedence and updatedAt; relinking rewrites only the rows
    linked to the old primary and there only link and updatedAt; a created
    row carries no deletion mark; and across a whole run of identify,
    whatever its outcome, every row that was stored keeps its id, email,
    phone, createdAt and deletion mark, and the rows added carry no
    deletion mark. *)
Theorem C10_mutation_frame :
  (forall env contactId linkedId' st k o st' k',
      updateContactToSecondary env contactId linkedId' (st, k)
        = (o, (st', k')) ->
      nextId st' = nextId st /\
      Forall2 (fun c c' => sameIdentity c c' /\ (id c <> contactId -> c' = c))
              (rows st) (rows st')) /\
  (forall env oldPrimaryId newPrimaryId st k o st' k',
      updateLinkedContactsPrimary env oldPrimaryId newPrimaryId (st, k)
        = (o, (st', k')) ->
      nextId st' = nextId st /\
      Forall2 (fun c c' => sameIdentity c c' /\
                           linkPrecedence c' = linkPrecedence c /\
                           (linkedId c <> Some oldPrimaryId -> c' = c))
              (rows st) (rows st')) /\
  (forall env e p l prec st k c st' k',
      createContact env e p l prec (st, k) = (Ok c, (st', k')) ->
      rows st' = rows st ++ [c] /\ deletedAt c = None) /\
  (forall env fuel request st k o st' k',
      identify env fuel request (st, k) = (o, (st', k')) -> framed st st').
Proof.
  split; [| split; [| split]].
  - intros env cid lid st k o st' k' H. apply statement_inv in H.
    destruct H as [_ [[_ H] | [_ [_ H]]]].
    + inversion H; subst; simpl. split; [reflexivity |].
      apply Forall2_map_r. intros a. apply toSecondary_frame.
    + subst. split; [reflexivity |].
      rewrite <- (map_id (rows st)) at 2.
      apply Forall2_map_r. intros a. split; [apply sameIdentity_refl | auto].
  - intros env old new st k o st' k' H. apply statement_inv in H.
    destruct H as [_ [[_ H] | [_ [_ H]]]].
    + inversion H; subst; simpl. split; [reflexivity |].
      apply Forall2_map_r. intros a. apply toNewPrimary_frame.
    + subst. split; [reflexivity |]. rewrite <- (map_id (rows st)) at 2.
      apply Forall2_map_r. intros a.
      split; [apply sameIdentity_refl | auto].
  - intros env e p l prec st k c st' k' H. apply statement_inv in H.
    destruct H as [_ [[_ H] | [_ [H _]]]]; [| discriminate].
    inversion H; subst; simpl. auto.
  - intros env fuel request st k o st' k' H.
    eapply identify_framed; eassumption.
Qed.

Lemma C10_mutation_frame_witness :
  framed tieStore
    (fst (snd (identify envUp 3 (mkRequest (Some "s") (Some "p"))
                 (tieStore, 0%nat)))).
Proof.
  destruct (identify envUp 3 (mkRequest (Some "s") (Some "p"))
              (tieStore, 0%nat)) as [o [st' k']] eqn:E.
  exact (proj2 (proj2 (proj2 C10_mutation_frame)) envUp 3%nat
           (mkRequest (Some "s") (Some "p")) tieStore 0%nat o st' k' E).
Defined.

(** ** Sorting *)

Section SortFacts.
Context {A : Type} (cmp : A -> A -> Z).
Let le (a b : A) : Prop := cmp a b <= 0.

Lemma insertSorted_perm a l : Permutation (insertSorted cmp a l) (a :: l).
Proof.
  induction l as [| b l IH]; simpl; [reflexivity |].
  destruct (cmp a b <=? 0)%Z; [reflexivity |].
  rewrite IH. apply perm_swap.
Qed.

Lemma sort_perm l : Permutation (sort cmp l) l.
Proof.
  induction l as [| a l IH]; simpl; [reflexivity |].
  rewrite insertSorted_perm. constructor. exact IH.
Qed.

Lemma sort_In a l : In a (sort cmp l) <-> In a l.
Proof.
  split; apply Permutation_in;
    [apply sort_perm | apply Permutation_sym, sort_perm].
Qed.

Lemma sort_length l : List.length (sort cmp l) = List.length l.
Proof. apply Permutation_length, sort_perm. Qed.

Lemma insertSorted_head a l :
  Forall (le a) l -> insertSorted cmp a l = a :: l.
Proof.
  intros H. destruct l as [| b l]; simpl; [reflexivity |].
  inversion H; subst. unfold le in *.
  destruct (Z.leb_spec (cmp a b) 0); [reflexivity | lia].
Qed.

Lemma sort_sorted_id l : StronglySorted le l -> sort cmp l = l.
Proof.
  induction 1 as [| a l Hs IH Ha]; simpl; [reflexivity |].
  rewrite IH. apply insertSorted_head. exact Ha.
Qed.

Hypothesis cmp_total : forall a b, 0 < cmp a b -> cmp b a <= 0.
Hypothesis cmp_trans : forall a b c, cmp a b <= 0 -> cmp b c <= 0 ->
                                     cmp a c <= 0.

Lemma insertSorted_sorted a l :
  StronglySorted le l -> StronglySorted le (insertSorted cmp a l).
Proof.
  induction 1 as [| b l Hs IH Hb]; simpl.
  - repeat constructor.
  - destruct (Z.leb_spec (cmp a b) 0) as [Hab | Hab].
    + constructor; [constructor; assumption |].
      constructor; [exact Hab |].
      eapply Forall_impl; [| exact Hb]. intros c Hc.
      unfold le in *. eauto.
    + constructor; [exact IH |].
      eapply Permutation_Forall;
        [apply Permutation_sym, insertSorted_perm |].
      constructor; [unfold le; auto | exact Hb].
Qed.

Lemma sort_sorted l : StronglySorted le (sort cmp l).
Proof.
  induction l as [| a l IH]; simpl; [constructor |].
  apply insertSorted_sorted. exact IH.
Qed.
End SortFacts.

Lemma byCreatedAt_le a b : byCreatedAt a b <= 0 <-> createdAtLe a b.
Proof. unfold byCreatedAt, createdAtLe. lia. Qed.

Lemma getTime_mono t u : t <= u -> getTime t <= getTime u.
Proof. intros H. unfold getTime. apply Z.div_le_mono; lia. Qed.

Lemma createdAtLe_getTimeLe a b : createdAtLe a b -> getTimeLe a b.
Proof. apply getTime_mono. Qed.

Lemma byGetTime_le a b : byGetTime a b <= 0 <-> getTimeLe a b.
Proof. unfold byGetTime, getTimeLe. lia. Qed.

Lemma byCreatedAtId_le a b : byCreatedAtId a b <= 0 <-> createdAtIdLe a b.
Proof.
  unfold byCreatedAtId, createdAtIdLe.
  destruct (Z.eqb_spec (createdAt a) (createdAt b)); lia.
Qed.

Lemma StronglySorted_iff {A : Type} (R S : A -> A -> Prop) l :
  (forall a b, R a b <-> S a b) -> StronglySorted R l -> StronglySorted S l.
Proof.
  intros H. induction 1; constructor; auto.
  eapply Forall_impl; [| eassumption]. intros b. apply H.
Qed.

Lemma sort_byCreatedAt_sorted l :
  StronglySorted createdAtLe (sort byCreatedAt l).
Proof.
  eapply StronglySorted_iff; [apply byCreatedAt_le |].
  apply sort_sorted; unfold byCreatedAt; intros; lia.
Qed.

Lemma sort_byGetTime_sorted l :
  StronglySorted getTimeLe (sort byGetTime l).
Proof.
  eapply StronglySorted_iff; [apply byGetTime_le |].
  apply sort_sorted; unfold byGetTime; intros; lia.
Qed.

Lemma sort_byCreatedAtId_sorted l :
  StronglySorted createdAtIdLe (sort byCreatedAtId l).
Proof.
  eapply StronglySorted_iff; [apply byCreatedAtId_le |].
  apply sort_sorted.
  - intros a b. rewrite byCreatedAtId_le. unfold byCreatedAtId, createdAtIdLe.
    destruct (Z.eqb_spec (createdAt a) (createdAt b)); lia.
  - intros a b c. rewrite !byCreatedAtId_le. unfold createdAtIdLe. lia.
Qed.

Lemma sort_byCreatedAtId_id l :
  StronglySorted createdAtIdLe l -> sort byCreatedAtId l = l.
Proof.
  intros H. apply sort_sorted_id.
  eapply StronglySorted_iff; [| exact H].
  intros a b. symmetry. apply byCreatedAtId_le.
Qed.

(** ** Candidate lookup *)

Lemma truthy_Some s : truthy s = true -> exists v, s = Some v /\ v <> "".
Proof.
  destruct s as [v |]; simpl; [| discriminate].
  destruct (String.eqb_spec v ""); [discriminate |]. eauto.
Qed.

Lemma sqlEq_true col param :
  truthy param = true -> sqlEq col param = true <-> col = param.
Proof.
  intros H. apply truthy_Some in H. destruct H as (v & -> & _).
  destruct col as [a |]; simpl; [| split; discriminate].
  destruct (String.eqb_spec a v); split; congruence.
Qed.

Lemma matchesEmailOrPhone_spec e p c :
  matchesEmailOrPhone e p c = true <-> isCandidate e p c.
Proof.
  unfold matchesEmailOrPhone, isCandidate.
  rewrite andb_true_iff, orb_true_iff, !andb_true_iff.
  split.
  - intros [Hd [[He H] | [Hp H]]]; (split; [destruct (deletedAt c);
      [discriminate | reflexivity] |]).
    + left. split; [exact He |]. apply sqlEq_true; assumption.
    + right. split; [exact Hp |]. apply sqlEq_true; assumption.
  - intros [Hd [[He H] | [Hp H]]]; (split; [rewrite Hd; reflexivity |]).
    + left. split; [exact He |]. apply sqlEq_true; assumption.
    + right. split; [exact Hp |]. apply sqlEq_true; assumption.
Qed.

Lemma findContacts_run env e p st k :
  available env k = true -> truthy e || truthy p = true ->
  findContactsByEmailOrPhone env e p (st, k)
  = (Ok (sort byCreatedAt (filter (matchesEmailOrPhone e p) (rows st))),
     (st, S k)).
Proof.
  intros Ha Ht. unfold findContactsByEmailOrPhone, statement.
  rewrite Ha, Ht. reflexivity.
Qed.

(** C8 as stated fails: for the request (a, p) the two matching rows of
    [scanRows] have the same createdAt and come back in scan order, id 2
    before id 1, which is not ascending in (createdAt, id). *)
Lemma C8_counterexample :
  exists out,
    findContactsByEmailOrPhone envUp (Some "a") (Some "p")
      (mkStore scanRows 3, 0%nat) = (Ok out, (mkStore scanRows 3, 1%nat)) /\
    ~ StronglySorted createdAtIdLe out.
Proof.
  eexists. split; [reflexivity |].
  intros H. inversion H as [| a l _ Hall]; subst.
  inversion Hall as [| b l' Hab _]; subst.
  unfold createdAtIdLe in Hab; simpl in Hab. lia.
Qed.

(** C8, amended. For a request with at least one field present, answered by
    the store, the lookup returns exactly the rows that are not deleted and
    carry the given email or the given phone number, each as often as it is
    stored, ordered by createdAt ascending; it fixes no order among rows of
    equal createdAt; the store is unchanged. *)
Theorem C8_findCandidates (env : Env) (email' phoneNumber' : option string)
    (st : Store) (k : nat) :
  truthy email' || truthy phoneNumber' = true ->
  available env k = true ->
  exists out,
    findContactsByEmailOrPhone env email' phoneNumber' (st, k)
      = (Ok out, (st, S k)) /\
    Permutation out
      (filter (matchesEmailOrPhone email' phoneNumber') (rows st)) /\
    (forall c, In c out <-> In c (rows st) /\ isCandidate email' phoneNumber' c)
    /\ StronglySorted createdAtLe out.
Proof.
  intros Ht Ha. eexists. split; [apply findContacts_run; assumption |].
  split; [apply sort_perm |]. split; [| apply sort_byCreatedAt_sorted].
  intros c. rewrite sort_In, filter_In, matchesEmailOrPhone_spec. reflexivity.
Qed.

Lemma C8_findCandidates_witness :
  exists out,
    findContactsByEmailOrPhone envUp (Some "a") (Some "p")
      (mkStore scanRows 3, 0%nat) = (Ok out, (mkStore scanRows 3, 1%nat)) /\
    Permutation out
      (filter (matchesEmailOrPhone (Some "a") (Some "p")) scanRows) /\
    (forall c, In c out <->
               In c scanRows /\ isCandidate (Some "a") (Some "p") c) /\
    StronglySorted createdAtLe out.
Proof.
  apply (C8_findCandidates envUp (Some "a") (Some "p") (mkStore scanRows 3) 0);
    reflexivity.
Defined.

(** ** The consistency error *)

(** C7. When the lookup returns matches and none of them yields an owning
    primary id, identify throws its [Unexpected state] error, having issued
    the lookup only: the store is unchanged. *)
Theorem C7_no_owner_throws (env : Env) (fuel : nat) (request : IdentifyRequest)
    (st : Store) (k : nat) (existingContacts : list Contact) :
  findContactsByEmailOrPhone env (r_email request) (r_phoneNumber request)
    (st, k) = (Ok existingContacts, (st, S k)) ->
  existingContacts <> [] ->
  uniquePrimaryIds existingContacts = [] ->
  identify env fuel request (st, k) = (Throw UnexpectedState, (st, S k)).
Proof.
  intros Hfind Hne Hnone. unfold identify, bind. rewrite Hfind.
  destruct existingContacts as [| c cs]; [contradiction |].
  rewrite Hnone. reflexivity.
Qed.

Lemma C7_no_owner_throws_witness :
  identify envUp 3 (mkRequest (Some "a") None) (orphanStore, 0%nat)
  = (Throw UnexpectedState, (orphanStore, 1%nat)).
Proof.
  apply (C7_no_owner_throws envUp 3 (mkRequest (Some "a") None) orphanStore 0
           (rows orphanStore)).
  - reflexivity.
  - discriminate.
  - reflexivity.
Defined.

(** ** Materialization *)

Lemma childrenOf_loop :
  childrenOf (rows loopStore) (rows loopStore) = rows loopStore.
Proof. reflexivity. Qed.

Lemma contact_tree_loop fuel :
  contact_tree fuel (rows loopStore) (rows loopStore) = None.
Proof.
  induction fuel as [| fuel IH]; [reflexivity |].
  change (contact_tree (S fuel) (rows loopStore) (rows loopStore))
    with (match contact_tree fuel (rows loopStore)
                  (childrenOf (rows loopStore) (rows loopStore)) with
          | Some rest => Some (rows loopStore ++ rest)
          | None => None
          end).
  rewrite childrenOf_loop, IH. reflexivity.
Qed.

(** C9 as stated fails: on a row linked to itself the recursive query finds
    the row again at every level; no amount of fuel lets it return. *)
Lemma C9_counterexample :
  ~ exists fuel cl st' k',
      getLinkedContacts envUp fuel 1 (loopStore, 0%nat) = (Ok cl, (st', k')).
Proof.
  intros (fuel & cl & st' & k' & H).
  unfold getLinkedContacts, statement, linkedContacts in H. simpl in H.
  change [mkContact 1 None (Some "a") (Some 1) secondary 10 10 None]
    with (rows loopStore) in H.
  rewrite contact_tree_loop in H. discriminate.
Qed.

Lemma childrenOf_rank rank tbl working n :
  ranked rank tbl ->
  Forall (fun c => (rank (id c) <= S n)%nat) working ->
  Forall (fun c => (rank (id c) <= n)%nat) (childrenOf tbl working).
Proof.
  intros Hr Hw. unfold childrenOf. apply Forall_forall. intros c Hc.
  apply in_flat_map in Hc. destruct Hc as (w & Hw' & Hc).
  apply filter_In in Hc. destruct Hc as [Hc Hm].
  apply andb_true_iff in Hm. destruct Hm as [Hl Hd].
  unfold sqlEqId in Hl. destruct (linkedId c) as [l |] eqn:El; [| discriminate].
  apply Z.eqb_eq in Hl. subst l.
  assert (Hlt : (rank (id c) < rank (id w))%nat).
  { apply Hr; auto. destruct (deletedAt c); [discriminate | reflexivity]. }
  rewrite Forall_forall in Hw. specialize (Hw w Hw'). lia.
Qed.

Lemma childrenOf_rank0 rank tbl working :
  ranked rank tbl ->
  Forall (fun c => (rank (id c) <= 0)%nat) working ->
  childrenOf tbl working = [].
Proof.
  intros Hr Hw. destruct (childrenOf tbl working) as [| c l] eqn:E;
    [reflexivity |].
  assert (Hc : In c (childrenOf tbl working)) by (rewrite E; left; reflexivity).
  unfold childrenOf in Hc.
  apply in_flat_map in Hc. destruct Hc as (w & Hw' & Hc).
  apply filter_In in Hc. destruct Hc as [Hc Hm].
  apply andb_true_iff in Hm. destruct Hm as [Hl Hd].
  unfold sqlEqId in Hl. destruct (linkedId c) as [l' |] eqn:El; [| discriminate].
  apply Z.eqb_eq in Hl. subst l'.
  assert (Hlt : (rank (id c) < rank (id w))%nat).
  { apply Hr; auto. destruct (deletedAt c); [discriminate | reflexivity]. }
  rewrite Forall_forall in Hw. specialize (Hw w Hw'). lia.
Qed.

Lemma contact_tree_terminates rank tbl :
  ranked rank tbl ->
  forall n fuel working,
    Forall (fun c => (rank (id c) <= n)%nat) working ->
    (n < fuel)%nat ->
    exists tree, contact_tree fuel tbl working = Some tree.
Proof.
  intros Hr. induction n as [| n IH]; intros fuel working Hw Hf.
  - destruct working as [| w ws]; [destruct fuel; simpl; eauto |].
    destruct fuel as [| fuel]; [lia |]. cbn [contact_tree].
    rewrite (childrenOf_rank0 rank tbl (w :: ws) Hr Hw).
    destruct fuel; simpl; eauto.
  - destruct working as [| w ws]; [destruct fuel; simpl; eauto |].
    destruct fuel as [| fuel]; [lia |]. cbn [contact_tree].
    destruct (IH fuel (childrenOf tbl (w :: ws))) as [rest Hrest].
    + eapply childrenOf_rank; eassumption.
    + lia.
    + rewrite Hrest. eauto.
Qed.

(** C9, amended. Materialization has no visited-set guard; it terminates on
    every store whose link chains are acyclic, however deep (a secondary
    linked to a secondary included): with fuel above the rank of the
    requested id it returns, and it leaves the store as it was.  On a link
    cycle reached from the requested id it does not terminate. *)
Theorem C9_materialize_terminates (env : Env) (rank : Z -> nat) (fuel : nat)
    (primaryId : Z) (st : Store) (k : nat) :
  ranked rank (rows st) ->
  (rank primaryId < fuel)%nat ->
  available env k = true ->
  exists cl,
    getLinkedContacts env fuel primaryId (st, k) = (Ok cl, (st, S k)).
Proof.
  intros Hr Hf Ha. unfold getLinkedContacts, statement, linkedContacts.
  rewrite Ha.
  destruct (contact_tree_terminates rank (rows st) Hr (rank primaryId) fuel
              (filter (fun c => (id c =? primaryId)%Z && isNull (deletedAt c))
                      (rows st))) as [tree Ht].
  - apply Forall_forall. intros c Hc. apply filter_In in Hc.
    destruct Hc as [_ Hc]. apply andb_true_iff in Hc. destruct Hc as [Hc _].
    apply Z.eqb_eq in Hc. rewrite Hc. lia.
  - exact Hf.
  - rewrite Ht. eauto.
Qed.

Lemma C9_materialize_terminates_witness :
  exists cl,
    getLinkedContacts envUp 3 1 (chainStore, 0%nat)
    = (Ok cl, (chainStore, 1%nat)).
Proof.
  apply (C9_materialize_terminates envUp chainRank 3 1 chainStore 0).
  - intros c p [<- | [<- | [<- | []]]] _ H; inversion H; subst;
      vm_compute; lia.
  - vm_compute. lia.
  - reflexivity.
Defined.

(** ** The consolidated view *)

Lemma filter_filter_implied {A : Type} (f g : A -> bool) l :
  (forall x, f x = true -> g x = true) ->
  filter f (filter g l) = filter f l.
Proof.
  intros H. induction l as [| a l IH]; simpl; [reflexivity |].
  destruct (g a) eqn:Eg; simpl.
  - rewrite IH. reflexivity.
  - destruct (f a) eqn:Ef; [| exact IH].
    apply H in Ef. congruence.
Qed.

Lemma filter_filter_andb {A : Type} (f g : A -> bool) l :
  filter f (filter g l) = filter (fun x => g x && f x) l.
Proof.
  induction l as [| a l IH]; simpl; [reflexivity |].
  destruct (g a); simpl; [destruct (f a); rewrite IH |]; auto.
Qed.

Lemma includes_app l1 l2 s :
  includes (l1 ++ l2) s = includes l1 s || includes l2 s.
Proof. unfold includes. apply existsb_app. Qed.

(** Pushing the values that are not yet there, one after the other, keeps
    the first occurrence of each. *)
Lemma fold_push_keepFirst l : forall acc,
  fold_left (fun arr s => if includes arr s then arr else arr ++ [s]) l acc
  = acc ++ filter (fun s => negb (includes acc s)) (keepFirst l).
Proof.
  induction l as [| s l IH]; intros acc; simpl.
  - rewrite app_nil_r. reflexivity.
  - destruct (includes acc s) eqn:E; simpl.
    + rewrite IH. f_equal. symmetry. apply filter_filter_implied.
      intros x Hx. apply negb_true_iff in Hx. apply negb_true_iff.
      destruct (String.eqb_spec x s); [congruence | reflexivity].
    + rewrite IH, <- app_assoc. simpl. f_equal. f_equal.
      rewrite filter_filter_andb. apply filter_ext. intros x.
      rewrite includes_app. unfold includes at 2. simpl.
      rewrite orb_false_r, negb_orb. apply andb_comm.
Qed.

Lemma pushNew_Some arr s :
  s <> "" ->
  pushNew arr (Some s) = if includes arr s then arr else arr ++ [s].
Proof.
  intros H. unfold pushNew.
  destruct (String.eqb_spec s ""); [contradiction |].
  destruct (includes arr s); reflexivity.
Qed.

Lemma fold_pushNew (field : Contact -> option string) l :
  Forall (fun c => field c <> Some "") l ->
  forall acc,
    fold_left (fun arr c => pushNew arr (field c)) l acc
    = fold_left (fun arr s => if includes arr s then arr else arr ++ [s])
                (somes (map field l)) acc.
Proof.
  induction 1 as [| c l Hc Hl IH]; intros acc; [reflexivity |].
  cbn [fold_left map]. rewrite IH. unfold somes. cbn [flat_map].
  destruct (field c) as [s |] eqn:E.
  - rewrite pushNew_Some by congruence. reflexivity.
  - reflexivity.
Qed.

Lemma collect_keepFirst (field : Contact -> option string) p l :
  field p <> Some "" ->
  Forall (fun c => field c <> Some "") l ->
  fold_left (fun arr c => pushNew arr (field c)) l (pushNew [] (field p))
  = keepFirst (somes (field p :: map field l)).
Proof.
  intros Hp Hl. rewrite fold_pushNew by exact Hl.
  rewrite fold_push_keepFirst.
  unfold somes at 2. cbn [flat_map]. fold (somes (map field l)).
  destruct (field p) as [s |] eqn:E.
  - rewrite pushNew_Some by congruence. simpl. f_equal.
    apply filter_ext. intros x. unfold includes. simpl.
    rewrite orb_false_r. reflexivity.
  - simpl. generalize (keepFirst (somes (map field l))). intros k.
    induction k as [| a k IH]; simpl; congruence.
Qed.

Lemma isSecondary_negb c : isSecondary c = negb (isPrimary c).
Proof. unfold isSecondary, isPrimary. destruct (linkPrecedence c); auto. Qed.

(** On a list in createdAt order the comparator of the builder only moves
    the primaries to the front. *)
Lemma sort_primaryFirst l :
  StronglySorted getTimeLe l ->
  sort primaryFirst l = filter isPrimary l ++ filter isSecondary l.
Proof.
  induction 1 as [| a l Hs IH Ha]; simpl; [reflexivity |].
  rewrite IH. clear IH.
  assert (Hp : Forall (getTimeLe a) (filter isPrimary l)).
  { apply Forall_forall. intros x Hx. apply filter_In in Hx.
    rewrite Forall_forall in Ha. apply Ha, Hx. }
  assert (Hq : Forall (getTimeLe a) (filter isSecondary l)).
  { apply Forall_forall. intros x Hx. apply filter_In in Hx.
    rewrite Forall_forall in Ha. apply Ha, Hx. }
  assert (Hpp : Forall (fun x => linkPrecedence x = primary)
                       (filter isPrimary l)).
  { apply Forall_forall. intros x Hx. apply filter_In in Hx.
    destruct Hx as [_ Hx]. unfold isPrimary in Hx.
    destruct (linkPrecedence x); [reflexivity | discriminate]. }
  assert (Hqq : Forall (fun x => linkPrecedence x = secondary)
                       (filter isSecondary l)).
  { apply Forall_forall. intros x Hx. apply filter_In in Hx.
    destruct Hx as [_ Hx]. unfold isSecondary in Hx.
    destruct (linkPrecedence x); [discriminate | reflexivity]. }
  unfold isPrimary at 2, isSecondary at 2.
  destruct (linkPrecedence a) eqn:Ea.
  - apply insertSorted_head. apply Forall_app. split.
    + eapply Forall_impl; [| apply (Forall_and Hp Hpp)].
      intros x [H1 H2]. unfold primaryFirst, getTimeLe in *.
      rewrite Ea, H2. lia.
    + eapply Forall_impl; [| exact Hqq].
      intros x H2. unfold primaryFirst. rewrite Ea, H2. lia.
  - induction (filter isPrimary l) as [| b bs IHb]; simpl.
    + apply insertSorted_head.
      eapply Forall_impl; [| apply (Forall_and Hq Hqq)].
      intros x [H1 H2]. unfold primaryFirst, getTimeLe in *.
      rewrite Ea, H2. lia.
    + inversion Hp; subst. inversion Hpp; subst.
      unfold primaryFirst at 1. rewrite Ea, H3. simpl.
      rewrite IHb by assumption. reflexivity.
Qed.

Lemma find_filter_app {A : Type} (f : A -> bool) l rest :
  (forall x, In x rest -> f x = false) ->
  find f (filter f l ++ rest) = find f l.
Proof.
  intros Hr. induction l as [| a l IH]; simpl.
  - induction rest as [| b rest IHr]; simpl; [reflexivity |].
    rewrite (Hr b) by (left; reflexivity). apply IHr.
    intros x Hx. apply Hr. right. exact Hx.
  - destruct (f a) eqn:E; simpl; [rewrite E; reflexivity | exact IH].
Qed.

Lemma createdAtIdLe_createdAtLe a b : createdAtIdLe a b -> createdAtLe a b.
Proof. unfold createdAtIdLe, createdAtLe. lia. Qed.

Lemma StronglySorted_impl {A : Type} (R S : A -> A -> Prop) l :
  (forall a b, R a b -> S a b) -> StronglySorted R l -> StronglySorted S l.
Proof.
  intros H. induction 1; constructor; auto.
  eapply Forall_impl; [| eassumption]. intros b. apply H.
Qed.

Lemma StronglySorted_filter {A : Type} (R : A -> A -> Prop) f l :
  StronglySorted R l -> StronglySorted R (filter f l).
Proof.
  induction 1 as [| a l Hs IH Ha]; simpl; [constructor |].
  destruct (f a); [| exact IH]. constructor; [exact IH |].
  apply Forall_forall. intros x Hx. apply filter_In in Hx.
  rewrite Forall_forall in Ha. apply Ha, Hx.
Qed.

(** What the builder is given: the engine never stores an empty string,
    the materializer returns its rows in (createdAt, id) order, and a row
    created after them under a clock that is not behind them comes last. *)
Lemma orNull_not_empty v : orNull v <> Some "".
Proof.
  unfold orNull. destruct v as [s |]; simpl; [| discriminate].
  destruct (String.eqb_spec s ""); simpl; [discriminate | congruence].
Qed.

Lemma identify_stores_no_empty env fuel req :
  preserves (fun st st' => Forall noEmptyValue (rows st) ->
                           Forall noEmptyValue (rows st'))
            (identify env fuel req).
Proof.
  apply preserves_identify.
  - auto.
  - auto.
  - intros now st e p l prec H. simpl. apply Forall_app. split; [exact H |].
    repeat constructor; simpl; apply orNull_not_empty.
  - intros now st cid lid H. simpl. apply Forall_forall. intros c' Hc'.
    apply in_map_iff in Hc'. destruct Hc' as (c & <- & Hc).
    rewrite Forall_forall in H. specialize (H c Hc).
    destruct (toSecondary_frame now cid lid c) as ((_ & E1 & E2 & _) & _).
    unfold noEmptyValue in *. rewrite E1, E2. exact H.
  - intros now st old new H. simpl. apply Forall_forall. intros c' Hc'.
    apply in_map_iff in Hc'. destruct Hc' as (c & <- & Hc).
    rewrite Forall_forall in H. specialize (H c Hc).
    destruct (toNewPrimary_frame now old new c) as ((_ & E1 & E2 & _) & _).
    unfold noEmptyValue in *. rewrite E1, E2. exact H.
Qed.

Lemma linkedContacts_sorted fuel tbl pid cl :
  linkedContacts fuel tbl pid = Some cl -> StronglySorted createdAtIdLe cl.
Proof.
  unfold linkedContacts. destruct (contact_tree fuel tbl _); intros H;
    inversion H. apply sort_byCreatedAtId_sorted.
Qed.

Lemma StronglySorted_snoc {A : Type} (R : A -> A -> Prop) l a :
  StronglySorted R l -> Forall (fun b => R b a) l ->
  StronglySorted R (l ++ [a]).
Proof.
  induction 1 as [| b l Hs IH Hb]; intros Ha; simpl.
  - repeat constructor.
  - inversion Ha; subst. constructor; [auto |].
    apply Forall_app. split; [exact Hb | repeat constructor; assumption].
Qed.

Lemma pushed_sorted now st e p l prec cl :
  StronglySorted createdAtIdLe cl ->
  Forall (fun c => createdAt c <= now /\ id c < nextId st) cl ->
  StronglySorted createdAtIdLe (cl ++ [insertedContact now st e p l prec]).
Proof.
  intros Hs Hb. apply StronglySorted_snoc; [exact Hs |].
  eapply Forall_impl; [| exact Hb]. intros c [H1 H2].
  unfold createdAtIdLe. simpl. lia.
Qed.

(** C6. On a materialized cluster, that is a list of contacts in
    (createdAt, id) order whose values are not empty strings, the builder
    returns the view the specification words: the id of the primary, the
    emails and the phone numbers with the primary's value first and then
    the secondaries' in (createdAt, id) order, nulls skipped and the first
    occurrence of a value kept, and the ids of the non-primary members in
    (createdAt, id) order. *)
Theorem C6_buildConsolidatedContact (cluster : list Contact) :
  StronglySorted createdAtIdLe cluster ->
  Forall noEmptyValue cluster ->
  buildConsolidatedContact cluster = consolidatedView cluster.
Proof.
  intros Hs Hv. unfold buildConsolidatedContact, consolidatedView.
  rewrite sort_primaryFirst
    by (eapply StronglySorted_impl;
        [intros a b H; apply createdAtLe_getTimeLe, createdAtIdLe_createdAtLe;
         exact H | exact Hs]).
  rewrite find_filter_app.
  2:{ intros x Hx. apply filter_In in Hx. destruct Hx as [_ Hx].
      rewrite isSecondary_negb in Hx. apply negb_true_iff. exact Hx. }
  destruct (find isPrimary cluster) as [p |] eqn:Ep; [| reflexivity].
  assert (Hsec : filter isSecondary (filter isPrimary cluster ++
                                     filter isSecondary cluster)
                 = filter isSecondary cluster).
  { rewrite filter_app, filter_filter_andb, filter_filter_andb.
    rewrite (filter_ext (fun x => isPrimary x && isSecondary x)
                        (fun _ => false)).
    2:{ intros x. rewrite isSecondary_negb. apply andb_negb_r. }
    rewrite (filter_ext (fun x => isSecondary x && isSecondary x) isSecondary)
      by (intros x; apply andb_diag).
    assert (Hf : forall l : list Contact, filter (fun _ => false) l = [])
      by (induction l; simpl; auto).
    rewrite Hf. reflexivity. }
  rewrite Hsec.
  rewrite (filter_ext (fun c => negb (isPrimary c)) isSecondary)
    by (intros x; symmetry; apply isSecondary_negb).
  rewrite sort_byCreatedAtId_id by (apply StronglySorted_filter; exact Hs).
  assert (Hp : noEmptyValue p).
  { apply find_some in Ep. rewrite Forall_forall in Hv. apply Hv, Ep. }
  assert (Hq : Forall noEmptyValue (filter isSecondary cluster)).
  { apply Forall_forall. intros x Hx. apply filter_In in Hx.
    rewrite Forall_forall in Hv. apply Hv, Hx. }
  rewrite (collect_keepFirst email), (collect_keepFirst phoneNumber).
  - reflexivity.
  - apply Hp.
  - eapply Forall_impl; [| exact Hq]. intros x Hx. apply Hx.
  - apply Hp.
  - eapply Forall_impl; [| exact Hq]. intros x Hx. apply Hx.
Qed.

Lemma C6_buildConsolidatedContact_witness :
  buildConsolidatedContact
    [ mkContact 1 (Some "p") (Some "a") None primary 10 10 None;
      mkContact 2 (Some "p") (Some "b") (Some 1) secondary 11 11 None;
      mkContact 3 (Some "q") (Some "a") (Some 1) secondary 11 11 None;
      mkContact 4 (Some "q") None (Some 1) secondary 12 12 None ]
  = Ok (mkConsolidated 1 ["a"; "b"] ["p"; "q"] [2; 3; 4]).
Proof.
  rewrite C6_buildConsolidatedContact.
  - reflexivity.
  - repeat constructor; unfold createdAtIdLe; simpl; lia.
  - repeat constructor; discriminate.
Defined.

(** ** One owning primary *)

Lemma getLinkedContacts_inv env fuel pid st k o st' k' :
  getLinkedContacts env fuel pid (st, k) = (o, (st', k')) ->
  st' = st /\ k' = S k /\
  (forall cl, o = Ok cl ->
     available env k = true /\ linkedContacts fuel (rows st) pid = Some cl).
Proof.
  intros H. apply statement_inv in H. destruct H as [-> [[Ha H] | [Ha [-> ->]]]].
  - destruct (linkedContacts fuel (rows st) pid) as [l |];
      inversion H; subst; repeat split; try discriminate.
    + exact Ha.
    + congruence.
  - repeat split; discriminate.
Qed.

Lemma getLinkedContacts_run env fuel pid st k cl :
  available env k = true -> linkedContacts fuel (rows st) pid = Some cl ->
  getLinkedContacts env fuel pid (st, k) = (Ok cl, (st, S k)).
Proof.
  intros Ha H. unfold getLinkedContacts, statement. rewrite Ha, H.
  reflexivity.
Qed.

Lemma createContact_run env e p l prec st k :
  available env k = true ->
  createContact env e p l prec (st, k)
  = (Ok (insertedContact (NOW env k) st e p l prec),
     (mkStore (rows st ++ [insertedContact (NOW env k) st e p l prec])
              (nextId st + 1), S k)).
Proof. intros Ha. unfold createContact, statement. rewrite Ha. reflexivity. Qed.

Lemma in_somes {A : Type} (l : list (option A)) a :
  In a (somes l) <-> In (Some a) l.
Proof.
  unfold somes. rewrite in_flat_map. split.
  - intros ([b |] & Hb & Ha); simpl in Ha; [| contradiction].
    destruct Ha as [-> | []]. exact Hb.
  - intros H. exists (Some a). split; [exact H | left; reflexivity].
Qed.

Lemma includes_In l s : includes l s = true <-> In s l.
Proof.
  unfold includes. rewrite existsb_exists. split.
  - intros (x & Hx & E). apply String.eqb_eq in E. subst. exact Hx.
  - intros H. exists s. split; [exact H | apply String.eqb_refl].
Qed.

Lemma hasNew_spec field v cluster :
  hasNew v (existing field cluster) = true <-> bringsNew field v cluster.
Proof.
  unfold hasNew, bringsNew, existing. destruct v as [s |].
  - rewrite andb_true_iff, !negb_true_iff. split.
    + intros [Hs Hi]. exists s. split; [reflexivity |].
      destruct (String.eqb_spec s ""); [discriminate |]. split; [assumption |].
      intros c Hc E.
      assert (Hin : includes (somes (filter truthy (map field cluster))) s
                    = true).
      { apply includes_In, in_somes, filter_In. split.
        - rewrite <- E. apply in_map. exact Hc.
        - simpl. destruct (String.eqb_spec s ""); [contradiction | auto]. }
      congruence.
    + intros (s' & E & Hs & Hn). inversion E; subst s'.
      split; [destruct (String.eqb_spec s ""); [contradiction | auto] |].
      destruct (includes _ s) eqn:Ei; [| reflexivity].
      apply includes_In, in_somes, filter_In in Ei. destruct Ei as [Ei _].
      apply in_map_iff in Ei. destruct Ei as (c & Ec & Hc).
      exfalso. exact (Hn c Hc Ec).
  - split; [discriminate |]. intros (s & E & _). discriminate.
Qed.

Lemma introducesNew_spec e p cluster :
  introducesNew e p cluster = true <->
  bringsNew email e cluster \/ bringsNew phoneNumber p cluster.
Proof.
  unfold introducesNew. rewrite orb_true_iff, !hasNew_spec. reflexivity.
Qed.




(** ** The owning primaries of the matches *)

Lemma setAdd_In s n i : In i (setAdd s n) <-> In i s \/ i = n.
Proof.
  unfold setAdd. destruct (existsb (Z.eqb n) s) eqn:E.
  - split; [auto |]. intros [H | ->]; [exact H |].
    apply existsb_exists in E. destruct E as (x & Hx & E).
    apply Z.eqb_eq in E. subst. exact Hx.
  - rewrite in_app_iff. simpl. intuition.
Qed.

Lemma setAdd_NoDup s n : NoDup s -> NoDup (setAdd s n).
Proof.
  intros H. unfold setAdd. destruct (existsb (Z.eqb n) s) eqn:E; [exact H |].
  apply NoDup_app; [exact H | repeat constructor; simpl; tauto |].
  intros x Hx [-> | []].
  assert (E' : existsb (Z.eqb x) s = true).
  { apply existsb_exists. exists x. split; [exact Hx | apply Z.eqb_refl]. }
  congruence.
Qed.

Lemma fold_setAdd (f : Contact -> option Z) l : forall acc,
  NoDup acc ->
  let out := fold_left (fun s c => match f c with
                                   | Some n => setAdd s n
                                   | None => s
                                   end) l acc in
  NoDup out /\
  forall i, In i out <-> In i acc \/ exists c, In c l /\ f c = Some i.
Proof.
  induction l as [| c l IH]; intros acc Hacc; simpl.
  - split; [exact Hacc |]. intros i. split; [auto |].
    intros [H | (c & [] & _)]. exact H.
  - destruct (IH (match f c with Some n => setAdd acc n | None => acc end))
      as [Hnd Hin].
    { destruct (f c); [apply setAdd_NoDup |]; exact Hacc. }
    split; [exact Hnd |]. intros i. rewrite Hin. clear Hin Hnd IH.
    destruct (f c) as [n |] eqn:E.
    + rewrite setAdd_In. split.
      * intros [[H | ->] | (c' & Hc' & E')]; eauto.
      * intros [H | (c' & [<- | Hc'] & E')]; eauto.
        rewrite E in E'. inversion E'. auto.
    + split.
      * intros [H | (c' & Hc' & E')]; eauto.
      * intros [H | (c' & [<- | Hc'] & E')]; eauto. congruence.
Qed.

Lemma fold_left_ext {A B : Type} (f g : A -> B -> A) l :
  (forall a b, f a b = g a b) ->
  forall acc, fold_left f l acc = fold_left g l acc.
Proof.
  intros H. induction l as [| b l IH]; intros acc; simpl; [reflexivity |].
  rewrite H. apply IH.
Qed.

Lemma uniquePrimaryIds_spec cands :
  NoDup (uniquePrimaryIds cands) /\
  forall i, In i (uniquePrimaryIds cands) <->
            exists c, In c cands /\ ownerOf c = Some i.
Proof.
  unfold uniquePrimaryIds.
  pose (f1 := fun c : Contact => Some (id c)).
  pose (f2 := fun c : Contact =>
                if truthyId (linkedId c) then linkedId c else None).
  rewrite (fold_left_ext
             (fun s c => setAdd s (id c))
             (fun s c => match f1 c with Some n => setAdd s n | None => s end))
    by reflexivity.
  rewrite (fold_left_ext
             (fun s c => match linkedId c with
                         | Some l => if truthyId (linkedId c) then setAdd s l
                                     else s
                         | None => s
                         end)
             (fun s c => match f2 c with Some n => setAdd s n | None => s end)).
  2:{ intros s c. unfold f2. destruct (linkedId c) as [l |]; [| reflexivity].
      destruct (truthyId (Some l)); reflexivity. }
  destruct (fold_setAdd f1 (filter isPrimary cands) [] (NoDup_nil _))
    as [N1 I1].
  destruct (fold_setAdd f2 (filter isSecondary cands) _ N1) as [N2 I2].
  split; [exact N2 |]. intros i. rewrite I2, I1. clear.
  unfold ownerOf, f1, f2. split.
  - intros [[[] | (c & Hc & E)] | (c & Hc & E)];
      apply filter_In in Hc; destruct Hc as [Hc Hp]; exists c;
      (split; [exact Hc |]).
    + unfold isPrimary in Hp. destruct (linkPrecedence c);
        [exact E | discriminate].
    + unfold isSecondary in Hp. destruct (linkPrecedence c);
        [discriminate | exact E].
  - intros (c & Hc & E). destruct (linkPrecedence c) eqn:Ep.
    + left. right. exists c. split; [| exact E].
      apply filter_In. split; [exact Hc |]. unfold isPrimary. rewrite Ep.
      reflexivity.
    + right. exists c. split; [| exact E].
      apply filter_In. split; [exact Hc |]. unfold isSecondary. rewrite Ep.
      reflexivity.
Qed.

(** ** Materialization on a store that satisfies the invariants *)

Lemma same_id_same_row (l : list Contact) a b :
  NoDup (map id l) -> In a l -> In b l -> id a = id b -> a = b.
Proof.
  induction l as [| c l IH]; simpl; [contradiction |].
  intros Hnd Ha Hb E. inversion Hnd as [| x xs Hx Hnd']; subst.
  destruct Ha as [-> | Ha], Hb as [-> | Hb].
  - reflexivity.
  - exfalso. apply Hx. rewrite E. apply in_map. exact Hb.
  - exfalso. apply Hx. rewrite <- E. apply in_map. exact Ha.
  - apply IH; assumption.
Qed.

Lemma filter_nil {A : Type} (f : A -> bool) l :
  (forall x, In x l -> f x = false) -> filter f l = [].
Proof.
  induction l as [| a l IH]; intros H; simpl; [reflexivity |].
  rewrite (H a) by (left; reflexivity). apply IH.
  intros x Hx. apply H. right. exact Hx.
Qed.

Lemma filter_by_id (l : list Contact) p :
  NoDup (map id l) -> In p l -> Forall (fun c => deletedAt c = None) l ->
  filter (fun c => (id c =? id p)%Z && isNull (deletedAt c)) l = [p].
Proof.
  induction l as [| a l IH]; simpl; [contradiction |].
  intros Hnd Hp Hlive. inversion Hnd as [| x xs Hx Hnd']; subst.
  inversion Hlive as [| y ys Hy Hlive']; subst.
  destruct (Z.eqb_spec (id a) (id p)) as [E | E]; simpl.
  - assert (a = p).
    { destruct Hp as [Hp | Hp]; [exact Hp |].
      exfalso. apply Hx. rewrite E. apply in_map. exact Hp. }
    subst a. rewrite Hy. simpl. f_equal. apply filter_nil.
    intros c Hc. destruct (Z.eqb_spec (id c) (id p)) as [E' | E'];
      [| reflexivity].
    exfalso. apply Hx. rewrite <- E'. apply in_map. exact Hc.
  - destruct Hp as [-> | Hp]; [contradiction |]. apply IH; assumption.
Qed.

Lemma sqlEqId_true col n : sqlEqId col n = true <-> col = Some n.
Proof.
  unfold sqlEqId. destruct col as [a |]; [| split; discriminate].
  rewrite Z.eqb_eq. split; congruence.
Qed.

Lemma secondariesOf_In tbl pid c :
  In c (secondariesOf tbl pid) <->
  In c tbl /\ linkedId c = Some pid /\ deletedAt c = None.
Proof.
  unfold secondariesOf. rewrite filter_In, andb_true_iff, sqlEqId_true.
  destruct (deletedAt c); simpl; intuition congruence.
Qed.

Lemma wf_linked_is_secondary st c l :
  wfStore st -> In c (rows st) -> linkedId c = Some l ->
  linkPrecedence c = secondary.
Proof.
  intros Hwf Hc Hl. pose proof (wf_links st Hwf) as H.
  rewrite Forall_forall in H. specialize (H c Hc).
  destruct (linkPrecedence c); [congruence | reflexivity].
Qed.

Lemma wf_link_target st c p :
  wfStore st -> In c (rows st) -> In p (rows st) ->
  linkedId c = Some (id p) -> linkPrecedence p = primary.
Proof.
  intros Hwf Hc Hp Hl. pose proof (wf_links st Hwf) as H.
  rewrite Forall_forall in H. specialize (H c Hc).
  rewrite (wf_linked_is_secondary st c (id p) Hwf Hc Hl) in H.
  destruct H as (q & Hq & Hprim & Hl').
  assert (q = p).
  { apply (same_id_same_row (rows st)); auto using wf_ids. congruence. }
  subst. exact Hprim.
Qed.

Lemma wf_flat st : wfStore st -> flat st.
Proof.
  intros Hwf c Hc Hs. pose proof (wf_links st Hwf) as H.
  rewrite Forall_forall in H. specialize (H c Hc). rewrite Hs in H.
  destruct H as (p & Hp & Hprim & Hl). eauto.
Qed.

Lemma childrenOf_single tbl p :
  childrenOf tbl [p] = secondariesOf tbl (id p).
Proof. unfold childrenOf. simpl. apply app_nil_r. Qed.

Lemma childrenOf_secondaries st p :
  wfStore st -> In p (rows st) -> linkPrecedence p = primary ->
  childrenOf (rows st) (secondariesOf (rows st) (id p)) = [].
Proof.
  intros Hwf Hp Hprim.
  destruct (childrenOf (rows st) (secondariesOf (rows st) (id p)))
    as [| c l] eqn:E; [reflexivity |].
  assert (Hc : In c (childrenOf (rows st) (secondariesOf (rows st) (id p))))
    by (rewrite E; left; reflexivity).
  unfold childrenOf in Hc. apply in_flat_map in Hc.
  destruct Hc as (w & Hw & Hc).
  apply secondariesOf_In in Hw. destruct Hw as (Hw & Hwl & _).
  fold (secondariesOf (rows st) (id w)) in Hc.
  apply secondariesOf_In in Hc. destruct Hc as (Hc & Hcl & _).
  pose proof (wf_link_target st c w Hwf Hc Hw Hcl) as Hwp.
  pose proof (wf_linked_is_secondary st w (id p) Hwf Hw Hwl). congruence.
Qed.

Lemma contact_tree_wf st p fuel :
  wfStore st -> In p (rows st) -> linkPrecedence p = primary ->
  (2 <= fuel)%nat ->
  contact_tree fuel (rows st) [p] = Some (clusterOf (rows st) p).
Proof.
  intros Hwf Hp Hprim Hf.
  destruct fuel as [| [| fuel]]; [lia | lia |].
  cbn [contact_tree]. rewrite childrenOf_single.
  unfold clusterOf.
  destruct (secondariesOf (rows st) (id p)) as [| c l] eqn:E.
  - destruct fuel; reflexivity.
  - cbn [contact_tree].
    rewrite <- E, (childrenOf_secondaries st p Hwf Hp Hprim), E.
    destruct fuel; simpl; rewrite app_nil_r; reflexivity.
Qed.

Lemma linkedContacts_wf st p fuel :
  wfStore st -> In p (rows st) -> linkPrecedence p = primary ->
  (2 <= fuel)%nat ->
  linkedContacts fuel (rows st) (id p)
  = Some (sort byCreatedAtId (clusterOf (rows st) p)).
Proof.
  intros Hwf Hp Hprim Hf. unfold linkedContacts.
  rewrite filter_by_id by auto using wf_ids, wf_live.
  rewrite contact_tree_wf by assumption. reflexivity.
Qed.

Lemma find_unique {A : Type} (f : A -> bool) l x :
  In x l -> f x = true -> (forall y, In y l -> f y = true -> y = x) ->
  find f l = Some x.
Proof.
  intros Hx Hf Hu. destruct (find f l) as [y |] eqn:E.
  - apply find_some in E. destruct E as [Hy Hfy]. f_equal. auto.
  - pose proof (find_none f l E x Hx). congruence.
Qed.

Lemma isPrimary_true c : isPrimary c = true <-> linkPrecedence c = primary.
Proof. unfold isPrimary. destruct (linkPrecedence c); split; congruence. Qed.

Lemma cluster_primary st p :
  wfStore st -> In p (rows st) -> linkPrecedence p = primary ->
  find isPrimary (sort byCreatedAtId (clusterOf (rows st) p)) = Some p.
Proof.
  intros Hwf Hp Hprim. apply find_unique.
  - apply sort_In. left. reflexivity.
  - apply isPrimary_true. exact Hprim.
  - intros y Hy Hyp. apply sort_In in Hy. destruct Hy as [<- | Hy];
      [reflexivity |].
    apply secondariesOf_In in Hy. destruct Hy as (Hy & Hl & _).
    apply isPrimary_true in Hyp.
    pose proof (wf_linked_is_secondary st y (id p) Hwf Hy Hl). congruence.
Qed.

(** ** The merge loop *)

Lemma updateContactToSecondary_inv env cid lid st k st' k' :
  updateContactToSecondary env cid lid (st, k) = (Ok tt, (st', k')) ->
  st' = mkStore (map (toSecondary (NOW env k) cid lid) (rows st)) (nextId st)
  /\ k' = S k.
Proof.
  intros H. apply statement_inv in H.
  destruct H as [-> [[_ H] | [_ [H _]]]]; [| discriminate].
  inversion H; subst. auto.
Qed.

Lemma updateLinkedContactsPrimary_inv env old new st k st' k' :
  updateLinkedContactsPrimary env old new (st, k) = (Ok tt, (st', k')) ->
  st' = mkStore (map (toNewPrimary (NOW env k) old new) (rows st)) (nextId st)
  /\ k' = S k.
Proof.
  intros H. apply statement_inv in H.
  destruct H as [-> [[_ H] | [_ [H _]]]]; [| discriminate].
  inversion H; subst. auto.
Qed.

Lemma demoteAll_inv env o others : forall st k st' k',
  demoteAll env (Some o) (map Some others) (st, k) = (Ok tt, (st', k')) ->
  st' = mkStore (map (demotedRow env k (id o) (map id others)) (rows st))
                (nextId st) /\
  k' = (k + 2 * List.length others)%nat.
Proof.
  induction others as [| p others IH]; intros st k st' k' H.
  - inversion H; subst. simpl. rewrite map_id. destruct st'. split; auto.
  - cbn [map demoteAll] in H.
    apply bind_Ok_inv in H. destruct H as ([] & [st1 k1] & H1 & H).
    apply bind_Ok_inv in H. destruct H as ([] & [st2 k2] & H2 & H).
    apply updateContactToSecondary_inv in H1. destruct H1 as [-> ->].
    apply updateLinkedContactsPrimary_inv in H2. destruct H2 as [-> ->].
    apply IH in H. destruct H as [-> ->]. cbn [rows nextId].
    split; [| simpl; lia]. f_equal. rewrite !map_map. reflexivity.
Qed.

Lemma demoteAll_run env o others : forall st k,
  (forall j, available env j = true) ->
  demoteAll env (Some o) (map Some others) (st, k)
  = (Ok tt,
     (mkStore (map (demotedRow env k (id o) (map id others)) (rows st))
              (nextId st),
      (k + 2 * List.length others)%nat)).
Proof.
  intros st k Ha. revert st k.
  induction others as [| p others IH]; intros st k.
  - simpl. unfold ret. rewrite map_id, Nat.add_0_r. destruct st. reflexivity.
  - cbn [map demoteAll]. unfold bind at 1.
    unfold updateContactToSecondary at 1, statement at 1. rewrite Ha.
    unfold bind at 1.
    unfold updateLinkedContactsPrimary at 1, statement at 1. rewrite Ha.
    rewrite IH. cbn [rows nextId]. rewrite !map_map.
    f_equal. f_equal. simpl. lia.
Qed.

Lemma demotedRow_stable env o absorbed : forall k c,
  ~ In (id c) absorbed ->
  (forall p, linkedId c = Some p -> ~ In p absorbed) ->
  demotedRow env k o absorbed c = c.
Proof.
  induction absorbed as [| p rest IH]; intros k c Hid Hl; [reflexivity |].
  cbn [demotedRow].
  assert (E1 : toSecondary (NOW env k) p o c = c).
  { apply toSecondary_frame. intros E. apply Hid. left. auto. }
  rewrite E1.
  assert (E2 : toNewPrimary (NOW env (S k)) p o c = c).
  { apply toNewPrimary_frame. intros E. apply (Hl p E). left. reflexivity. }
  rewrite E2. apply IH.
  - intros H. apply Hid. right. exact H.
  - intros q Hq H. apply (Hl q Hq). right. exact H.
Qed.

Lemma demotedRow_spec env o absorbed : forall k c,
  ~ In o absorbed -> NoDup absorbed ->
  (In (id c) absorbed -> linkedId c = None) ->
  mergedRow o absorbed c (demotedRow env k o absorbed c).
Proof.
  induction absorbed as [| p rest IH]; intros k c Ho Hnd Hprim.
  - simpl. split; [apply sameIdentity_refl |].
    split; [contradiction |]. split; [intros _ (q & _ & []) | reflexivity].
  - cbn [demotedRow]. inversion Hnd as [| x xs Hp Hnd']; subst.
    assert (Hop : o <> p) by (intros ->; apply Ho; left; reflexivity).
    assert (Hor : ~ In o rest) by (intros H; apply Ho; right; exact H).
    destruct (Z.eq_dec (id c) p) as [E | E].
    + (* the absorbed primary itself *)
      set (c1 := toNewPrimary (NOW env (S k)) p o
                   (toSecondary (NOW env k) p o c)).
      assert (Hc1 : sameIdentity c c1 /\ linkPrecedence c1 = secondary /\
                    linkedId c1 = Some o).
      { unfold c1, toSecondary. rewrite (proj2 (Z.eqb_eq _ _) E).
        unfold toNewPrimary, sqlEqId. cbn [linkedId].
        destruct (Z.eqb_spec o p); [contradiction |].
        repeat split. }
      destruct Hc1 as (Hsame & Hs & Hl).
      rewrite demotedRow_stable.
      * split; [exact Hsame |]. split; [auto |].
        split; intros Hn; exfalso; apply Hn; left; auto.
      * destruct Hsame as (Hi & _). rewrite Hi, E. exact Hp.
      * intros q Hq. rewrite Hl in Hq. inversion Hq; subst. exact Hor.
    + rewrite (proj2 (toSecondary_frame (NOW env k) p o c) E).
      destruct (linkedId c) as [l |] eqn:El.
      * destruct (Z.eq_dec l p) as [-> | Elp].
        -- (* a row linked to the absorbed primary *)
           assert (Hni : ~ In (id c) (p :: rest)).
           { intros H. apply Hprim in H. discriminate. }
           set (c1 := toNewPrimary (NOW env (S k)) p o c).
           assert (Hc1 : sameIdentity c c1 /\
                         linkPrecedence c1 = linkPrecedence c /\
                         linkedId c1 = Some o).
           { unfold c1, toNewPrimary, sqlEqId. rewrite El, Z.eqb_refl.
             repeat split. }
           destruct Hc1 as (Hsame & Hs & Hl).
           rewrite demotedRow_stable.
           ++ split; [exact Hsame |]. split; [contradiction |].
              split; [auto |]. intros _ H. exfalso.
              apply (H p El). left. reflexivity.
           ++ destruct Hsame as (Hi & _). rewrite Hi. intros H.
              apply Hni. right. exact H.
           ++ intros q Hq. rewrite Hl in Hq. inversion Hq; subst. exact Hor.
        -- rewrite (proj2 (proj2 (toNewPrimary_frame (NOW env (S k)) p o c)))
             by congruence.
           destruct (IH (S (S k)) c Hor Hnd') as (Hsame & H1 & H2 & H3).
           { intros H. rewrite El. apply Hprim. right. exact H. }
           split; [exact Hsame |]. split; [| split].
           ++ intros [H | H]; [congruence | auto].
           ++ intros Hn (q & Hq & [Hqp | Hqr]).
              ** congruence.
              ** apply H2; [intros H; apply Hn; right; exact H |]. eauto.
           ++ intros Hn Hall. apply H3.
              ** intros H; apply Hn; right; exact H.
              ** intros q Hq H. apply (Hall q Hq). right. exact H.
      * rewrite (proj2 (proj2 (toNewPrimary_frame (NOW env (S k)) p o c)))
          by congruence.
        destruct (IH (S (S k)) c Hor Hnd') as (Hsame & H1 & H2 & H3).
        { intros H. rewrite El. apply Hprim. right. exact H. }
        split; [exact Hsame |]. split; [| split].
        -- intros [H | H]; [congruence | auto].
        -- intros _ (q & Hq & _). rewrite El in Hq. discriminate.
        -- intros Hn Hall. apply H3.
           ++ intros H; apply Hn; right; exact H.
           ++ intros q Hq. rewrite El in Hq. discriminate.
Qed.

(** ** Runs that return *)

Lemma steady_statement {A : Type} (query : Z -> Store -> outcome A * Store) :
  steady (fun env => statement env query).
Proof.
  intros env [st k] a r' H. unfold statement in *. simpl.
  destruct (available env k); [exact H | discriminate].
Qed.

Lemma steady_bind {A B : Type} (m : Env -> M A) (f : Env -> A -> M B) :
  steady m -> (forall a, steady (fun env => f env a)) ->
  steady (fun env => bind (m env) (f env)).
Proof.
  intros Hm Hf env r b r' H. apply bind_Ok_inv in H.
  destruct H as (a & r1 & H1 & H2). unfold bind.
  rewrite (Hm env r a r1 H1). apply (Hf a env). exact H2.
Qed.

Lemma steady_const {A : Type} (m : M A) : steady (fun _ => m).
Proof. intros env r a r' H. exact H. Qed.

Lemma steady_mapM {A B : Type} (f : Env -> A -> M B) l :
  (forall a, steady (fun env => f env a)) ->
  steady (fun env => mapM (f env) l).
Proof.
  intros Hf. induction l as [| a l IH]; simpl.
  - apply steady_const.
  - apply (steady_bind (fun env => f env a)); [apply Hf | intros b].
    apply (steady_bind (fun env => mapM (f env) l)); [exact IH | intros bs].
    apply steady_const.
Qed.

Lemma steady_demoteAll o l : steady (fun env => demoteAll env o l).
Proof.
  induction l as [| p l IH]; simpl.
  - apply steady_const.
  - destruct p as [p |]; [destruct o as [o |] |]; try apply steady_const.
    apply (steady_bind (fun env => updateContactToSecondary env _ _));
      [apply steady_statement | intros _].
    apply (steady_bind (fun env => updateLinkedContactsPrimary env _ _));
      [apply steady_statement | intros _].
    exact IH.
Qed.

Lemma steady_extendAndBuild e p pid l :
  steady (fun env => extendAndBuild env e p pid l).
Proof.
  unfold extendAndBuild. destruct (introducesNew e p l).
  - apply (steady_bind (fun env => createContact env _ _ _ _));
      [apply steady_statement | intros c]. apply steady_const.
  - apply steady_const.
Qed.

Lemma steady_identify fuel req : steady (fun env => identify env fuel req).
Proof.
  unfold identify.
  apply (steady_bind (fun env => findContactsByEmailOrPhone env _ _));
    [apply steady_statement | intros cands].
  destruct cands as [| c0 cands].
  - apply (steady_bind (fun env => createContact env _ _ _ _));
      [apply steady_statement | intros c]. apply steady_const.
  - destruct (uniquePrimaryIds (c0 :: cands)) as [| i1 [| i2 ids]].
    + apply steady_const.
    + apply (steady_bind (fun env => getLinkedContacts env fuel i1));
        [apply steady_statement | intros l]. apply steady_extendAndBuild.
    + apply (steady_bind
               (fun env => mapM (getLinkedContacts env fuel) (i1 :: i2 :: ids))).
      { apply (steady_mapM (fun env => getLinkedContacts env fuel)).
        intros a. apply steady_statement. }
      intros groups.
      apply (steady_bind (fun env => demoteAll env _ _));
        [apply steady_demoteAll | intros _].
      destruct (hd None _) as [o |]; [| apply steady_const].
      apply (steady_bind (fun env => getLinkedContacts env fuel (id o)));
        [apply steady_statement | intros l]. apply steady_extendAndBuild.
Qed.

Lemma answering_available env j : available (answering env) j = true.
Proof. reflexivity. Qed.

(** ** Stores that satisfy the invariants *)

Lemma wf_primary_unlinked st c :
  wfStore st -> In c (rows st) -> linkPrecedence c = primary ->
  linkedId c = None.
Proof.
  intros Hwf Hc Hp. pose proof (wf_links st Hwf) as H.
  rewrite Forall_forall in H. specialize (H c Hc). rewrite Hp in H. exact H.
Qed.

Lemma wf_id_bounds st c :
  wfStore st -> In c (rows st) -> 0 < id c < nextId st.
Proof.
  intros Hwf Hc. pose proof (wf_seq st Hwf) as H.
  rewrite Forall_forall in H. exact (H c Hc).
Qed.

Lemma owner_is_primary st cands i :
  wfStore st -> (forall c, In c cands -> In c (rows st)) ->
  In i (uniquePrimaryIds cands) ->
  exists p, In p (rows st) /\ linkPrecedence p = primary /\ id p = i.
Proof.
  intros Hwf Hsub Hi. apply uniquePrimaryIds_spec in Hi.
  destruct Hi as (c & Hc & Ho). unfold ownerOf in Ho.
  destruct (linkPrecedence c) eqn:Ep.
  - inversion Ho; subst. eauto.
  - destruct (truthyId (linkedId c)); [| discriminate].
    pose proof (wf_flat st Hwf c (Hsub c Hc) Ep) as (p & Hp & Hl & Hpp).
    exists p. repeat split; auto. congruence.
Qed.

Lemma owners_nonempty st cands :
  wfStore st -> (forall c, In c cands -> In c (rows st)) ->
  cands <> [] -> uniquePrimaryIds cands <> [].
Proof.
  intros Hwf Hsub Hne. destruct cands as [| c cs]; [contradiction |].
  assert (Hc : In c (c :: cs)) by (left; reflexivity).
  assert (Ho : exists i, ownerOf c = Some i).
  { unfold ownerOf. destruct (linkPrecedence c) eqn:Ep; [eauto |].
    pose proof (wf_flat st Hwf c (Hsub c Hc) Ep) as (p & Hp & Hl & Hpp).
    rewrite Hl. simpl.
    pose proof (wf_id_bounds st p Hwf Hp).
    destruct (Z.eqb_spec (id p) 0); [lia | simpl; eauto]. }
  destruct Ho as (i & Ho).
  assert (Hi : In i (uniquePrimaryIds (c :: cs))).
  { apply uniquePrimaryIds_spec. eauto. }
  intros E. rewrite E in Hi. contradiction.
Qed.

(** ** The merge keeps the invariants *)

Section Merged.
Variables (env : Env) (k : nat) (st : Store) (o : Contact) (absorbed : list Z).
Hypothesis Hwf : wfStore st.
Hypothesis Ho : In o (rows st).
Hypothesis Hop : linkPrecedence o = primary.
Hypothesis Habs : forall i, In i absorbed ->
  exists p, In p (rows st) /\ linkPrecedence p = primary /\ id p = i.
Hypothesis Hoabs : ~ In (id o) absorbed.
Hypothesis Hnd : NoDup absorbed.

Let merged : Store :=
  mkStore (map (demotedRow env k (id o) absorbed) (rows st)) (nextId st).

Lemma merged_row c :
  In c (rows st) ->
  mergedRow (id o) absorbed c (demotedRow env k (id o) absorbed c).
Proof.
  intros Hc. apply demotedRow_spec; auto.
  intros Hi. destruct (Habs _ Hi) as (p & Hp & Hpp & E).
  assert (p = c) by (apply (same_id_same_row (rows st)); auto using wf_ids).
  subst. apply (wf_primary_unlinked st); assumption.
Qed.

Lemma merged_keeps_primary p :
  In p (rows st) -> linkPrecedence p = primary -> ~ In (id p) absorbed ->
  In p (rows merged).
Proof.
  intros Hp Hpp Hn. simpl. apply in_map_iff. exists p. split; [| exact Hp].
  apply demotedRow_stable; [exact Hn |].
  intros q Hq. rewrite (wf_primary_unlinked st p Hwf Hp Hpp) in Hq.
  discriminate.
Qed.

Lemma merged_keeps_survivor : In o (rows merged).
Proof. apply merged_keeps_primary; assumption. Qed.

Lemma merged_ids : map id (rows merged) = map id (rows st).
Proof.
  simpl. rewrite map_map. apply map_ext_in. intros c Hc.
  apply (merged_row c Hc).
Qed.

Lemma merged_cases c :
  In c (rows st) ->
  let c' := demotedRow env k (id o) absorbed c in
  sameIdentity c c' /\
  ((linkPrecedence c' = secondary /\ linkedId c' = Some (id o) /\
    (In (id c) absorbed \/
     exists p, In p (rows st) /\ linkPrecedence p = primary /\
               In (id p) absorbed /\ linkedId c = Some (id p) /\
               linkPrecedence c = secondary)) \/
   (c' = c /\ ~ In (id c) absorbed /\
    forall p, linkedId c = Some p -> ~ In p absorbed)).
Proof.
  intros Hc c'. destruct (merged_row c Hc) as (Hsame & H1 & H2 & H3).
  fold c' in Hsame, H1, H2, H3. split; [exact Hsame |].
  destruct (in_dec Z.eq_dec (id c) absorbed) as [Hi | Hi].
  - left. destruct (H1 Hi). auto.
  - destruct (linkedId c) as [l |] eqn:El.
    + destruct (in_dec Z.eq_dec l absorbed) as [Hl | Hl].
      * left. destruct (H2 Hi) as [Hs Hl']; [eauto |].
        pose proof (wf_linked_is_secondary st c l Hwf Hc El) as Hsec.
        split; [congruence |]. split; [exact Hl' |]. right.
        destruct (Habs _ Hl) as (p & Hp & Hpp & E). exists p.
        subst l. auto.
      * right. split; [| split; [exact Hi |]].
        -- apply H3; [exact Hi |]. intros q Hq. congruence.
        -- intros q Hq. congruence.
    + right. split; [| split; [exact Hi |]].
      * apply H3; [exact Hi |]. intros q Hq. discriminate.
      * intros q Hq. discriminate.
Qed.

Lemma merged_wf : wfStore merged.
Proof.
  constructor.
  - exact (wf_next st Hwf).
  - rewrite merged_ids. exact (wf_ids st Hwf).
  - simpl. apply Forall_forall. intros c' Hc'. apply in_map_iff in Hc'.
    destruct Hc' as (c & <- & Hc).
    destruct (merged_row c Hc) as ((E & _) & _). rewrite E.
    apply (wf_id_bounds st); assumption.
  - simpl. apply Forall_forall. intros c' Hc'. apply in_map_iff in Hc'.
    destruct Hc' as (c & <- & Hc).
    destruct (merged_row c Hc) as ((_ & _ & _ & _ & E) & _). rewrite E.
    pose proof (wf_live st Hwf) as H. rewrite Forall_forall in H. auto.
  - apply Forall_forall. intros c' Hc'. simpl in Hc'.
    apply in_map_iff in Hc'. destruct Hc' as (c & <- & Hc).
    destruct (merged_cases c Hc) as (_ & [(Hs & Hl & _) | (E & Hi & Hl)]).
    + rewrite Hs. exists o. split; [apply merged_keeps_survivor | auto].
    + rewrite E. destruct (linkPrecedence c) eqn:Ep.
      * apply (wf_primary_unlinked st); assumption.
      * destruct (wf_flat st Hwf c Hc Ep) as (p & Hp & Hpl & Hpp).
        exists p. split; [| auto].
        apply merged_keeps_primary; auto.
Qed.

Lemma merged_oldestFirst :
  oldestFirst st ->
  (forall p, In p (rows st) -> In (id p) absorbed -> getTimeLe o p) ->
  oldestFirst merged.
Proof.
  intros Hold Hmin c' p' Hc' Hp' Hl. simpl in Hc', Hp'.
  apply in_map_iff in Hc'. destruct Hc' as (c & <- & Hc).
  apply in_map_iff in Hp'. destruct Hp' as (p & <- & Hp).
  destruct (merged_row p Hp) as ((Ep & _ & _ & Etp & _) & _).
  rewrite Ep in Hl. unfold getTimeLe. rewrite Etp.
  destruct (merged_cases c Hc)
    as ((_ & _ & _ & Etc & _) & [(Hs & Hl' & Hwhy) | (E & Hi & Hn)]).
  - rewrite Etc. rewrite Hl' in Hl. inversion Hl as [Eid].
    assert (o = p) by (apply (same_id_same_row (rows st));
                       auto using wf_ids).
    subst p. destruct Hwhy as [Hi | (q & Hq & Hqp & Hqi & Hcl & _)].
    + apply Hmin; assumption.
    + transitivity (getTime (createdAt q)); [apply Hmin; assumption |].
      apply (Hold c q); assumption.
  - rewrite E in *. apply (Hold c p); assumption.
Qed.

End Merged.

(** ** Creation keeps the invariants *)

Lemma insert_wf now st e p l prec :
  wfStore st ->
  (prec = primary /\ l = None) \/
  (prec = secondary /\
   exists q, In q (rows st) /\ linkPrecedence q = primary /\ l = Some (id q)) ->
  wfStore (mkStore (rows st ++ [insertedContact now st e p l prec])
                   (nextId st + 1)).
Proof.
  intros Hwf Hlink. pose proof (wf_next st Hwf) as Hnext.
  constructor; simpl.
  - lia.
  - rewrite map_app. simpl. apply NoDup_app.
    + exact (wf_ids st Hwf).
    + repeat constructor. simpl. tauto.
    + intros i Hi [<- | []]. apply in_map_iff in Hi.
      destruct Hi as (c & E & Hc). pose proof (wf_id_bounds st c Hwf Hc). lia.
  - apply Forall_app. split.
    + eapply Forall_impl; [| exact (wf_seq st Hwf)]. simpl. intros; lia.
    + repeat constructor; simpl; lia.
  - apply Forall_app. split; [exact (wf_live st Hwf) |].
    repeat constructor.
  - apply Forall_app. split.
    + eapply Forall_impl; [| exact (wf_links st Hwf)]. simpl. intros c Hc.
      destruct (linkPrecedence c); [exact Hc |].
      destruct Hc as (q & Hq & H). exists q.
      split; [apply in_or_app; left; exact Hq | exact H].
    + repeat constructor. simpl.
      destruct Hlink as [[-> ->] | [-> (q & Hq & Hqp & ->)]]; [reflexivity |].
      exists q. split; [apply in_or_app; left; exact Hq | auto].
Qed.

Lemma insert_oldestFirst now st e p l prec :
  wfStore st -> oldestFirst st ->
  (forall c, In c (rows st) -> createdAt c <= now) ->
  oldestFirst (mkStore (rows st ++ [insertedContact now st e p l prec])
                       (nextId st + 1)).
Proof.
  intros Hwf Hold Hnow c q Hc Hq Hl. simpl in Hc, Hq.
  apply in_app_iff in Hc. apply in_app_iff in Hq.
  destruct Hq as [Hq | [<- | []]].
  - destruct Hc as [Hc | [<- | []]].
    + apply (Hold c q); assumption.
    + apply getTime_mono. simpl. apply Hnow. exact Hq.
  - destruct Hc as [Hc | [<- | []]]; [| unfold getTimeLe; simpl; lia].
    simpl in Hl. exfalso.
    destruct (linkPrecedence c) eqn:Ep.
    + rewrite (wf_primary_unlinked st c Hwf Hc Ep) in Hl. discriminate.
    + destruct (wf_flat st Hwf c Hc Ep) as (r & Hr & Hrl & _).
      pose proof (wf_id_bounds st r Hwf Hr). rewrite Hrl in Hl.
      inversion Hl. lia.
Qed.

(** ** The paths of identify on a store that satisfies the invariants *)

Lemma mapM_getLinked_run env fuel st owners groups : forall k,
  (forall j, available env j = true) ->
  Forall2 (fun i cl => linkedContacts fuel (rows st) i = Some cl)
          owners groups ->
  mapM (getLinkedContacts env fuel) owners (st, k)
  = (Ok groups, (st, (k + List.length owners)%nat)).
Proof.
  intros k Ha H. revert k.
  induction H as [| i cl owners groups Hi _ IH]; intros k; simpl.
  - unfold ret. rewrite Nat.add_0_r. reflexivity.
  - unfold bind at 1. rewrite (getLinkedContacts_run _ _ _ _ _ cl) by auto.
    unfold bind at 1. rewrite IH. unfold ret.
    rewrite <- Nat.add_succ_comm. reflexivity.
Qed.

Lemma Forall2_exists {A B : Type} (R : A -> B -> Prop) l :
  (forall a, In a l -> exists b, R a b) -> exists bs, Forall2 R l bs.
Proof.
  induction l as [| a l IH]; intros H.
  - exists []. constructor.
  - destruct (H a (or_introl eq_refl)) as (b & Hb).
    destruct IH as (bs & Hbs); [intros x Hx; apply H; right; exact Hx |].
    exists (b :: bs). constructor; assumption.
Qed.

Lemma somes_map_Some {A : Type} (l : list A) : somes (map Some l) = l.
Proof. induction l as [| a l IH]; simpl; [| rewrite IH]; reflexivity. Qed.

Lemma filter_isNull_map_Some {A : Type} (l : list A) :
  filter isNull (map Some l) = [].
Proof. induction l as [| a l IH]; simpl; auto. Qed.

Lemma sortDefined_all {A : Type} (cmp : A -> A -> Z) l :
  sortDefined cmp (map Some l) = map Some (sort cmp l).
Proof.
  unfold sortDefined.
  rewrite somes_map_Some, filter_isNull_map_Some, app_nil_r. reflexivity.
Qed.

Lemma build_ok cl :
  (exists c, In c cl /\ linkPrecedence c = primary) ->
  exists v, buildConsolidatedContact cl = Ok v.
Proof.
  intros (c & Hc & Hp). unfold buildConsolidatedContact.
  destruct (find isPrimary (sort primaryFirst cl)) as [q |] eqn:E; [eauto |].
  exfalso. pose proof (find_none _ _ E c) as H.
  rewrite (proj2 (isPrimary_true c) Hp) in H.
  assert (In c (sort primaryFirst cl)) by (apply sort_In; exact Hc).
  specialize (H H0). discriminate.
Qed.

(** The store after the block that follows a materialization. *)
Lemma extendAndBuild_run env e p pid cl st k :
  available env k = true ->
  (exists c, In c cl /\ linkPrecedence c = primary) ->
  exists v st' k',
    extendAndBuild env e p pid cl (st, k) = (Ok v, (st', k')) /\
    ((introducesNew e p cl = false /\ st' = st /\ k' = k /\
      buildConsolidatedContact cl = Ok v) \/
     (introducesNew e p cl = true /\ k' = S k /\
      st' = mkStore (rows st ++
                     [insertedContact (NOW env k) st (orNull e) (orNull p)
                                      (Some pid) secondary])
                    (nextId st + 1) /\
      buildConsolidatedContact
        (cl ++ [insertedContact (NOW env k) st (orNull e) (orNull p)
                                (Some pid) secondary]) = Ok v)).
Proof.
  intros Ha (c & Hc & Hp). unfold extendAndBuild.
  destruct (introducesNew e p cl) eqn:E.
  - unfold bind. rewrite createContact_run by exact Ha.
    destruct (build_ok (cl ++ [insertedContact (NOW env k) st (orNull e)
                                 (orNull p) (Some pid) secondary]))
      as (v & Hv).
    { exists c. split; [apply in_or_app; left; exact Hc | exact Hp]. }
    unfold lift. rewrite Hv. eexists _, _, _. split; [reflexivity |].
    right. auto.
  - destruct (build_ok cl) as (v & Hv); [eauto |].
    unfold lift. rewrite Hv. eexists _, _, _. split; [reflexivity |].
    left. auto.
Qed.

Lemma map_demotedRow_nil env k o tbl :
  map (demotedRow env k o []) tbl = tbl.
Proof. simpl. apply map_id. Qed.

Lemma cluster_has_primary tbl p :
  linkPrecedence p = primary ->
  exists c, In c (sort byCreatedAtId (clusterOf tbl p)) /\
            linkPrecedence c = primary.
Proof.
  intros Hp. exists p. split; [| exact Hp]. apply sort_In. left. reflexivity.
Qed.

(** With matches, identify on a valid store comes to the final block with
    the survivor [o] and the store where the primaries [others] and their
    secondaries have been moved under [o]; with one owning primary
    [others] is empty. *)
Lemma identify_reaches env fuel req st k :
  wfStore st -> (forall j, available env j = true) -> (2 <= fuel)%nat ->
  truthy (r_email req) || truthy (r_phoneNumber req) = true ->
  let cands := sort byCreatedAt
                 (filter (matchesEmailOrPhone (r_email req)
                                              (r_phoneNumber req))
                         (rows st)) in
  cands <> [] ->
  exists o others kd k1,
    Permutation (map id (o :: others)) (uniquePrimaryIds cands) /\
    Forall (fun p => In p (rows st) /\ linkPrecedence p = primary)
           (o :: others) /\
    Forall (getTimeLe o) others /\
    (exists prims, map id prims = uniquePrimaryIds cands /\
                   sort byGetTime prims = o :: others) /\
    (k <= k1)%nat /\
    let st1 := mkStore (map (demotedRow env kd (id o) (map id others))
                            (rows st)) (nextId st) in
    identify env fuel req (st, k)
    = extendAndBuild env (r_email req) (r_phoneNumber req) (id o)
        (sort byCreatedAtId (clusterOf (rows st1) o)) (st1, k1).
Proof.
  intros Hwf Ha Hf Hvalid cands Hne.
  assert (Hcands : cands = sort byCreatedAt
                     (filter (matchesEmailOrPhone (r_email req)
                                (r_phoneNumber req)) (rows st)))
    by reflexivity.
  clearbody cands.
  assert (Hsub : forall c, In c cands -> In c (rows st)).
  { intros c Hc. rewrite Hcands in Hc. apply sort_In, filter_In in Hc.
    apply Hc. }
  pose proof (owners_nonempty st cands Hwf Hsub Hne) as Hown.
  destruct (Forall2_exists
              (fun i p => In p (rows st) /\ linkPrecedence p = primary /\
                          id p = i) (uniquePrimaryIds cands)) as (prims & Hpr).
  { intros i Hi. apply (owner_is_primary st cands i Hwf Hsub Hi). }
  assert (Hids : map id prims = uniquePrimaryIds cands).
  { clear - Hpr. induction Hpr as [| i p l ps (_ & _ & E) _ IH]; simpl;
      [reflexivity | rewrite E, IH; reflexivity]. }
  assert (Hall : Forall (fun p => In p (rows st) /\ linkPrecedence p = primary)
                        prims).
  { clear - Hpr. induction Hpr as [| i p l ps (H1 & H2 & _) _ IH];
      constructor; auto. }
  remember (identify env fuel req (st, k)) as run eqn:Hid.
  unfold identify in Hid. unfold bind at 1 in Hid.
  rewrite findContacts_run in Hid by auto. rewrite <- Hcands in Hid.
  destruct cands as [| c0 cs]; [contradiction |]. cbv beta iota in Hid.
  subst run. set (cands := c0 :: cs) in *.
  destruct (uniquePrimaryIds cands) as [| i1 [| i2 ids]] eqn:Eo;
    [contradiction | |].
  - (* one owning primary *)
    destruct prims as [| p [| p2 ps]]; try discriminate.
    simpl in Hids. injection Hids as Ei.
    inversion Hall as [| ? ? [Hp Hpp] _]. subst.
    exists p, [], k, (S (S k)). split; [reflexivity |].
    split; [constructor; auto |]. split; [constructor |].
    split; [exists [p]; split; reflexivity |].
    split; [lia |]. cbn zeta. cbn [map]. cbn [rows].
    rewrite map_demotedRow_nil. unfold bind at 1.
    rewrite (getLinkedContacts_run _ _ _ _ _
               (sort byCreatedAtId (clusterOf (rows st) p)))
      by (auto; apply linkedContacts_wf; auto).
    destruct st; reflexivity.
  - (* several owning primaries *)
    set (owners := i1 :: i2 :: ids) in *.
    set (groups := map (fun p => sort byCreatedAtId (clusterOf (rows st) p))
                       prims).
    assert (Hgroups : Forall2 (fun i cl => linkedContacts fuel (rows st) i
                                           = Some cl) owners groups).
    { unfold groups. clear - Hpr Hwf Hf.
      induction Hpr as [| i p l ps (H1 & H2 & E) _ IH]; simpl; constructor;
        [| exact IH].
      rewrite <- E. apply linkedContacts_wf; auto. }
    assert (Hfound : map (find isPrimary) groups = map Some prims).
    { unfold groups. rewrite map_map. apply map_ext_in. intros p Hp.
      rewrite Forall_forall in Hall. destruct (Hall p Hp).
      apply cluster_primary; auto. }
    destruct (sort byGetTime prims) as [| o others] eqn:Es.
    { exfalso. pose proof (sort_length byGetTime prims) as Hl.
      pose proof (f_equal (@List.length Z) Hids) as Hn.
      rewrite length_map in Hn. rewrite Es, Hn in Hl. discriminate. }
    pose proof (sort_perm byGetTime prims) as Hperm. rewrite Es in Hperm.
    pose proof (sort_byGetTime_sorted prims) as Hsorted.
    rewrite Es in Hsorted.
    assert (Hall' : Forall (fun p => In p (rows st) /\
                                     linkPrecedence p = primary)
                           (o :: others)).
    { eapply Permutation_Forall; [apply Permutation_sym, Hperm | exact Hall]. }
    assert (Hpids : Permutation (map id (o :: others)) owners).
    { rewrite <- Hids. apply Permutation_map. exact Hperm. }
    assert (Hndo : NoDup (map id (o :: others))).
    { eapply Permutation_NoDup; [apply Permutation_sym, Hpids |].
      rewrite <- Eo. apply uniquePrimaryIds_spec. }
    inversion Hall' as [| ? ? (Ho & Hop) Hothers]; subst.
    inversion Hndo as [| ? ? Hno Hndr]; subst.
    set (kd := (S k + List.length owners)%nat).
    set (st1 := mkStore (map (demotedRow env kd (id o) (map id others))
                             (rows st)) (nextId st)).
    assert (Hwf1 : wfStore st1).
    { apply merged_wf; auto. intros i Hi. apply in_map_iff in Hi.
      destruct Hi as (p & <- & Hp). rewrite Forall_forall in Hothers.
      destruct (Hothers p Hp). eauto. }
    assert (Ho1 : In o (rows st1)) by (apply merged_keeps_survivor; auto).
    exists o, others, kd, (S (kd + 2 * List.length others)).
    split; [exact Hpids |]. split; [exact Hall' |].
    split; [inversion Hsorted; assumption |].
    split; [exists prims; split; [exact Hids | exact Es] |].
    split; [unfold kd; lia |]. cbn zeta. fold st1.
    unfold bind at 1.
    rewrite (mapM_getLinked_run _ _ _ _ groups) by auto. fold kd.
    rewrite Hfound, sortDefined_all, Es. cbn [hd tl map].
    unfold bind at 1. rewrite demoteAll_run by auto. fold st1.
    unfold bind at 1.
    rewrite (getLinkedContacts_run _ _ _ _ _
               (sort byCreatedAtId (clusterOf (rows st1) o)))
      by (auto; apply linkedContacts_wf; auto).
    reflexivity.
Qed.

Lemma distinctIds_NoDup l : distinctIds l = true -> NoDup l.
Proof.
  induction l as [| i l IH]; simpl; intros H; constructor.
  - apply andb_true_iff in H. destruct H as [H _].
    apply negb_true_iff in H. intros Hi.
    assert (existsb (Z.eqb i) l = true).
    { apply existsb_exists. exists i. split; [exact Hi | apply Z.eqb_refl]. }
    congruence.
  - apply IH. apply andb_true_iff in H. apply H.
Qed.

Lemma wfStoreb_sound st : wfStoreb st = true -> wfStore st.
Proof.
  unfold wfStoreb. rewrite !andb_true_iff.
  intros ((((H1 & H2) & H3) & H4) & H5). constructor.
  - apply Z.ltb_lt. exact H1.
  - apply distinctIds_NoDup. exact H2.
  - apply Forall_forall. intros c Hc.
    rewrite forallb_forall in H3. specialize (H3 c Hc).
    apply andb_true_iff in H3. destruct H3 as [Ha Hb].
    apply Z.ltb_lt in Ha. apply Z.ltb_lt in Hb. lia.
  - apply Forall_forall. intros c Hc.
    rewrite forallb_forall in H4. specialize (H4 c Hc).
    destruct (deletedAt c); [discriminate | reflexivity].
  - apply Forall_forall. intros c Hc.
    rewrite forallb_forall in H5. specialize (H5 c Hc).
    destruct (linkPrecedence c).
    + destruct (linkedId c); [discriminate | reflexivity].
    + apply existsb_exists in H5. destruct H5 as (p & Hp & H).
      apply andb_true_iff in H. destruct H as [Hpp Hl].
      exists p. split; [exact Hp |].
      split; [apply isPrimary_true; exact Hpp | apply sqlEqId_true; exact Hl].
Qed.

Lemma identify_no_match env fuel req st k :
  (forall j, available env j = true) ->
  truthy (r_email req) || truthy (r_phoneNumber req) = true ->
  sort byCreatedAt
    (filter (matchesEmailOrPhone (r_email req) (r_phoneNumber req)) (rows st))
  = [] ->
  exists v,
    identify env fuel req (st, k)
    = (Ok v,
       (mkStore (rows st ++
                 [insertedContact (NOW env (S k)) st (orNull (r_email req))
                    (orNull (r_phoneNumber req)) None primary])
                (nextId st + 1), S (S k))).
Proof.
  intros Ha Hvalid Hnone. unfold identify. unfold bind at 1.
  rewrite findContacts_run by auto. rewrite Hnone.
  unfold bind. rewrite createContact_run by auto.
  destruct (build_ok [insertedContact (NOW env (S k)) st
                        (orNull (r_email req)) (orNull (r_phoneNumber req))
                        None primary]) as (v & Hv).
  { eexists. split; [left; reflexivity | reflexivity]. }
  exists v. unfold lift. rewrite Hv. reflexivity.
Qed.

Lemma identify_rejects env fuel req st k :
  (forall j, available env j = true) ->
  truthy (r_email req) || truthy (r_phoneNumber req) = false ->
  identify env fuel req (st, k) = (Throw SqlSyntaxError, (st, S k)).
Proof.
  intros Ha Hinvalid. unfold identify, bind, findContactsByEmailOrPhone,
    statement. rewrite Ha, Hinvalid. reflexivity.
Qed.

Lemma clockAhead_later env st k k' :
  clockAhead env st k -> (k <= k')%nat -> clockAhead env st k'.
Proof. intros H Hk c j Hc Hj. apply H; [exact Hc | lia]. Qed.

(** One call on a store that answers: the invariants are kept, and the
    call fails only by rejecting a request without email and phone. *)
Lemma identify_keeps env fuel req st k :
  wfStore st -> (forall j, available env j = true) -> (2 <= fuel)%nat ->
  exists o st' k',
    identify env fuel req (st, k) = (o, (st', k')) /\
    (truthy (r_email req) || truthy (r_phoneNumber req) = true ->
     exists v, o = Ok v) /\
    wfStore st' /\ (k <= k')%nat /\
    (oldestFirst st -> clockAhead env st k -> monotoneClock env ->
     oldestFirst st' /\ clockAhead env st' k').
Proof.
  intros Hwf Ha Hf.
  destruct (truthy (r_email req) || truthy (r_phoneNumber req)) eqn:Hvalid.
  2:{ eexists _, _, _. split; [apply identify_rejects; auto |].
      split; [discriminate |]. split; [exact Hwf |]. split; [lia |].
      intros Hold Hclock _. split; [exact Hold |].
      eapply clockAhead_later; [exact Hclock | lia]. }
  destruct (sort byCreatedAt
              (filter (matchesEmailOrPhone (r_email req) (r_phoneNumber req))
                      (rows st))) as [| c0 cs] eqn:Ec.
  - destruct (identify_no_match env fuel req st k Ha Hvalid Ec) as (v & Hv).
    eexists _, _, _. split; [exact Hv |]. split; [eauto |].
    split; [apply insert_wf; auto |]. split; [lia |].
    intros Hold Hclock Hmono. split.
    + apply insert_oldestFirst; [exact Hwf | exact Hold |].
      intros c Hc. apply Hclock; [exact Hc | lia].
    + intros c j Hc Hj. simpl in Hc. apply in_app_iff in Hc.
      destruct Hc as [Hc | [<- | []]].
      * apply Hclock; [exact Hc | lia].
      * simpl. apply Hmono. lia.
  - destruct (identify_reaches env fuel req st k Hwf Ha Hf Hvalid)
      as (o & others & kd & k1 & Hperm & Hall & Hsorted & Hchosen & Hk1 &
          Hrun).
    { rewrite Ec. discriminate. }
    cbn zeta in Hrun.
    set (st1 := mkStore (map (demotedRow env kd (id o) (map id others))
                             (rows st)) (nextId st)) in *.
    inversion Hall as [| ? ? (Ho & Hop) Hothers]; subst.
    assert (Hndo : NoDup (map id (o :: others))).
    { eapply Permutation_NoDup; [apply Permutation_sym, Hperm |].
      apply uniquePrimaryIds_spec. }
    inversion Hndo as [| ? ? Hno Hndr]; subst.
    assert (Habs : forall i, In i (map id others) ->
              exists p, In p (rows st) /\ linkPrecedence p = primary /\
                        id p = i).
    { intros i Hi. apply in_map_iff in Hi.
      destruct Hi as (p & <- & Hp). rewrite Forall_forall in Hothers.
      destruct (Hothers p Hp). eauto. }
    assert (Hwf1 : wfStore st1) by (apply merged_wf; auto).
    assert (Ho1 : In o (rows st1)) by (apply merged_keeps_survivor; auto).
    assert (Hcreated : forall c', In c' (rows st1) ->
              exists c, In c (rows st) /\ createdAt c' = createdAt c).
    { intros c' Hc'. simpl in Hc'. apply in_map_iff in Hc'.
      destruct Hc' as (c & <- & Hc). exists c. split; [exact Hc |].
      apply (merged_row env kd st o (map id others)); auto. }
    destruct (extendAndBuild_run env (r_email req) (r_phoneNumber req) (id o)
                (sort byCreatedAtId (clusterOf (rows st1) o)) st1 k1 (Ha k1)
                (cluster_has_primary (rows st1) o Hop))
      as (v & st' & k' & Hext & Hcases).
    exists (Ok v), st', k'. split; [rewrite Hrun; exact Hext |].
    split; [eauto |].
    assert (Hold1 : oldestFirst st -> oldestFirst st1).
    { intros Hold. apply merged_oldestFirst; auto.
      intros p Hp Hi. apply in_map_iff in Hi. destruct Hi as (q & E & Hq).
      rewrite Forall_forall in Hothers, Hsorted.
      destruct (Hothers q Hq) as [Hq' _].
      assert (q = p) by (apply (same_id_same_row (rows st));
                         auto using wf_ids).
      subst. apply Hsorted. exact Hq. }
    assert (Hclock1 : clockAhead env st k -> clockAhead env st1 k).
    { intros Hclock c' j Hc' Hj. destruct (Hcreated c' Hc') as (c & Hc & E).
      rewrite E. apply Hclock; auto. }
    destruct Hcases as [(_ & -> & -> & _) | (_ & -> & -> & _)].
    + split; [exact Hwf1 |]. split; [exact Hk1 |].
      intros Hold Hclock _. split; [auto |].
      eapply clockAhead_later; [apply Hclock1; exact Hclock | exact Hk1].
    + split; [apply insert_wf; [exact Hwf1 | right; eauto] |].
      split; [lia |]. intros Hold Hclock Hmono. split.
      * apply insert_oldestFirst; [exact Hwf1 | exact (Hold1 Hold) |].
        intros c Hc. apply (Hclock1 Hclock); [exact Hc | exact Hk1].
      * intros c j Hc Hj. simpl in Hc. apply in_app_iff in Hc.
        destruct Hc as [Hc | [<- | []]].
        -- apply (Hclock1 Hclock); [exact Hc | lia].
        -- simpl. apply Hmono. lia.
Qed.

(** The same for a call that returned, whatever the store answered to the
    statements the call did not issue. *)
Lemma identify_returned_keeps env fuel req st k v st' k' :
  wfStore st -> (2 <= fuel)%nat ->
  identify env fuel req (st, k) = (Ok v, (st', k')) ->
  wfStore st' /\ (k <= k')%nat /\
  (oldestFirst st -> clockAhead env st k -> monotoneClock env ->
   oldestFirst st' /\ clockAhead env st' k').
Proof.
  intros Hwf Hf Hrun. apply steady_identify in Hrun.
  destruct (identify_keeps (answering env) fuel req st k Hwf
              (answering_available env) Hf)
    as (o1 & st1 & k1 & Hrun1 & _ & H).
  rewrite Hrun in Hrun1. inversion Hrun1; subst. exact H.
Qed.

(** ** Invariant 2 *)

(** C4 as stated fails for a call that does not return: from [tieStore],
    which satisfies the invariants, the call identify(s, p) whose relinking
    (statement 4) the store does not answer ends with contact 3, a
    secondary, linked to contact 1, which the call has already rewritten
    to a secondary. *)
Lemma C4_counterexample :
  wfStore tieStore /\
  exists o st' k' c p,
    identify (envDownAt 4) 3 (mkRequest (Some "s") (Some "p"))
      (tieStore, 0%nat) = (o, (st', k')) /\
    In c (rows st') /\ In p (rows st') /\
    linkPrecedence c = secondary /\ linkedId c = Some (id p) /\
    linkPrecedence p = secondary /\
    ~ flat st'.
Proof.
  split; [apply wfStoreb_sound; reflexivity |].
  exists (Throw StoreUnavailable), tieTorn, 5%nat,
    (mkContact 3 (Some "q") (Some "s") (Some 1) secondary 11 11 None),
    (mkContact 1 None (Some "a") (Some 2) secondary 10 103 None).
  split; [reflexivity |]. split; [simpl; auto |]. split; [simpl; auto |].
  split; [reflexivity |]. split; [reflexivity |]. split; [reflexivity |].
  intros H.
  destruct (H (mkContact 3 (Some "q") (Some "s") (Some 1) secondary 11 11 None))
    as (q & Hq & Hl & Hqp); [simpl; auto | reflexivity |].
  simpl in Hq. destruct Hq as [<- | [<- | [<- | []]]]; discriminate.
Qed.

(** C4, amended. From a store that satisfies the invariants, a call of
    identify that returns leaves a store that satisfies them again: in
    particular the link of every secondary references a stored primary.  A
    store that answers every statement makes every call with an email or a
    phone number return. *)
Theorem C4_links_reference_primaries (env : Env) (fuel : nat)
    (request : IdentifyRequest) (st : Store) (k : nat) :
  wfStore st -> (2 <= fuel)%nat ->
  (forall v st' k',
      identify env fuel request (st, k) = (Ok v, (st', k')) ->
      wfStore st' /\ flat st') /\
  ((forall j, available env j = true) ->
   truthy (r_email request) || truthy (r_phoneNumber request) = true ->
   exists v st' k', identify env fuel request (st, k) = (Ok v, (st', k'))).
Proof.
  intros Hwf Hf. split.
  - intros v st' k' Hrun.
    destruct (identify_returned_keeps env fuel request st k v st' k' Hwf Hf Hrun)
      as (Hwf' & _). split; [exact Hwf' | apply wf_flat; exact Hwf'].
  - intros Ha Hvalid.
    destruct (identify_keeps env fuel request st k Hwf Ha Hf)
      as (o & st' & k' & Hrun & Hok & _).
    destruct (Hok Hvalid) as (v & ->). eauto.
Qed.

Lemma C4_links_reference_primaries_witness :
  flat (fst (snd (identify envUp 3 (mkRequest (Some "s") (Some "p"))
                    (tieStore, 0%nat)))).
Proof.
  refine (proj2 (proj1 (C4_links_reference_primaries envUp 3%nat
                          (mkRequest (Some "s") (Some "p")) tieStore 0%nat
                          (wfStoreb_sound tieStore eq_refl) _) _ _ _ _)).
  - lia.
  - vm_compute. reflexivity.
Defined.

(** ** Invariant 4 *)

Lemma tie_run :
  identify envUp 3 (mkRequest (Some "s") (Some "p")) (tieStore, 0%nat)
  = (Ok (mkConsolidated 2 ["a"; "s"] ["p"; "q"] [1; 3]), (tieMerged, 6%nat)).
Proof. reflexivity. Qed.

(** The merge reads dates to the millisecond.  Of two touched primaries
    created in the same millisecond the later one can survive: in
    [sameMilliStore] contact 2 over contact 1, created 100 microseconds
    before it.  When the milliseconds differ the earlier one survives,
    whatever the order in which the owners were collected. *)
Lemma millisecond_runs :
  (exists st' k',
     identify envLate 3 (mkRequest (Some "s") (Some "p"))
       (sameMilliStore, 0%nat)
     = (Ok (mkConsolidated 2 ["a"; "s"] ["p"; "q"] [1; 3]), (st', k')) /\
     oldestFirst st' /\
     ~ (forall c p, In c (rows st') -> In p (rows st') ->
                    linkedId c = Some (id p) -> createdAt p <= createdAt c)) /\
  (exists st' k',
     identify envLate 3 (mkRequest (Some "s") (Some "p"))
       (nextMilliStore, 0%nat)
     = (Ok (mkConsolidated 1 ["a"; "s"] ["p"; "q"] [2; 3]), (st', k'))).
Proof.
  split.
  - exists (mkStore
              [ mkContact 1 None (Some "a") (Some 2) secondary 5000 9300 None;
                mkContact 2 (Some "p") None None primary 5100 5100 None;
                mkContact 3 (Some "q") (Some "s") (Some 2) secondary
                          6000 9400 None ] 4), 6%nat.
    split; [reflexivity |]. split.
    + intros c p Hc Hp. simpl in Hc, Hp.
      destruct Hc as [<- | [<- | [<- | []]]];
        destruct Hp as [<- | [<- | [<- | []]]]; simpl; intros H;
        try discriminate; clear H; unfold getTimeLe, getTime; simpl;
        apply Z.leb_le; reflexivity.
    + intros H.
      specialize (H (mkContact 1 None (Some "a") (Some 2) secondary
                               5000 9300 None)
                    (mkContact 2 (Some "p") None None primary 5100 5100 None)).
      simpl in H. assert (5100 <= 5000) by (apply H; auto). lia.
  - exists (mkStore
              [ mkContact 1 None (Some "a") None primary 5000 5000 None;
                mkContact 2 (Some "p") None (Some 1) secondary 6100 9300 None;
                mkContact 3 (Some "q") (Some "s") (Some 1) secondary
                          7000 7000 None ] 4), 6%nat.
    reflexivity.
Qed.

(** C2 as stated fails: in [tieStore] every secondary comes after its
    primary in (createdAt, id) order; after identify(s, p) contact 2 is the
    primary of the cluster that holds contact 1, created at the same
    instant with the smaller id. *)
Lemma C2_counterexample :
  wfStore tieStore /\ oldestFirstById tieStore /\
  exists v st' k',
    identify envUp 3 (mkRequest (Some "s") (Some "p")) (tieStore, 0%nat)
      = (Ok v, (st', k')) /\
    ~ oldestFirstById st'.
Proof.
  split; [apply wfStoreb_sound; reflexivity |]. split.
  - intros c p Hc Hp. simpl in Hc, Hp.
    destruct Hc as [<- | [<- | [<- | []]]];
      destruct Hp as [<- | [<- | [<- | []]]]; simpl; intros H;
      try discriminate; clear H; unfold createdAtIdLe; simpl; lia.
  - eexists _, _, _. split; [apply tie_run |]. intros H.
    specialize (H (mkContact 1 None (Some "a") (Some 2) secondary 10 103 None)
                  (mkContact 2 (Some "p") None None primary 10 10 None)).
    unfold createdAtIdLe in H. simpl in H.
    assert (10 < 10 \/ 10 = 10 /\ 2 <= 1) by (apply H; auto). lia.
Qed.

Lemma history_keeps env fuel r r' :
  history env fuel r r' ->
  wfStore (fst r) -> oldestFirst (fst r) -> clockAhead env (fst r) (snd r) ->
  monotoneClock env -> (2 <= fuel)%nat ->
  wfStore (fst r') /\ oldestFirst (fst r').
Proof.
  intros H. induction H as [r | [st k] req v [st1 k1] r2 Hrun _ IH];
    intros Hwf Hold Hclock Hmono Hf; [auto |].
  simpl in *.
  destruct (identify_returned_keeps env fuel req st k v st1 k1 Hwf Hf Hrun)
    as (Hwf1 & _ & H1).
  destruct (H1 Hold Hclock Hmono). apply IH; auto.
Qed.

(** C2, amended. The code reads dates through getTime(), to the
    millisecond.  Along every history of calls that returned, started from
    a store that satisfies the invariants and in which no member of a
    cluster was created in a millisecond before that of its primary, under
    a clock that does not run backwards, the primary of every cluster is a
    member of earliest createdAt to the millisecond: no contact linked to
    it was created in an earlier millisecond.  Among primaries created in
    the same millisecond the survivor of a merge is chosen neither by the
    microseconds of createdAt nor by id. *)
Theorem C2_primary_is_earliest (env : Env) (fuel : nat) (st : Store) (k : nat)
    (st' : Store) (k' : nat) :
  wfStore st -> oldestFirst st -> clockAhead env st k -> monotoneClock env ->
  (2 <= fuel)%nat ->
  history env fuel (st, k) (st', k') ->
  wfStore st' /\ oldestFirst st'.
Proof.
  intros Hwf Hold Hclock Hmono Hf H.
  apply (history_keeps env fuel (st, k) (st', k') H); assumption.
Qed.

Lemma C2_primary_is_earliest_witness :
  wfStore tieMerged /\ oldestFirst tieMerged.
Proof.
  apply (C2_primary_is_earliest envUp 3 tieStore 0 tieMerged 8).
  - apply wfStoreb_sound. reflexivity.
  - intros c p Hc Hp. simpl in Hc, Hp.
    destruct Hc as [<- | [<- | [<- | []]]];
      destruct Hp as [<- | [<- | [<- | []]]]; simpl; intros H;
      try discriminate; clear H; lia.
  - intros c j Hc Hj. simpl in Hc.
    destruct Hc as [<- | [<- | [<- | []]]]; unfold envUp;
      cbn [createdAt NOW]; lia.
  - intros i j Hij. unfold envUp. cbn [NOW]. lia.
  - lia.
  - eapply history_call; [apply tie_run |].
    eapply history_call; [| apply history_nil].
    instantiate (2 := mkRequest (Some "a") (Some "q")).
    vm_compute. reflexivity.
Defined.

(** ** Atomicity *)

(** C5 as stated fails: when the store does not answer the relinking
    (statement 4 of the call), identify fails and leaves contact 1 demoted
    and contact 3 still linked to it: neither the store it started from
    nor the store of the complete merge, and contact 3 now links to a
    secondary. *)
Lemma C5_counterexample :
  identify (envDownAt 4) 3 (mkRequest (Some "s") (Some "p")) (tieStore, 0%nat)
    = (Throw StoreUnavailable, (tieTorn, 5%nat)) /\
  tieTorn <> tieStore /\ tieTorn <> tieMerged /\ ~ flat tieTorn.
Proof.
  split; [reflexivity |]. split; [discriminate |]. split; [discriminate |].
  intros H.
  destruct (H (mkContact 3 (Some "q") (Some "s") (Some 1) secondary 11 11 None))
    as (p & Hp & Hl & Hpp); [simpl; auto | reflexivity |].
  simpl in Hp. destruct Hp as [<- | [<- | [<- | []]]]; discriminate.
Qed.

Lemma build_throws cl e :
  buildConsolidatedContact cl = Throw e -> e = TypeError.
Proof.
  unfold buildConsolidatedContact.
  destruct (find isPrimary (sort primaryFirst cl)); intros H;
    inversion H; reflexivity.
Qed.

Lemma createContact_inv env e p l prec st k o st' k' :
  createContact env e p l prec (st, k) = (o, (st', k')) ->
  (o = Throw StoreUnavailable /\ st' = st) \/
  (exists c, o = Ok c /\ linkPrecedence c = prec).
Proof.
  intros H. apply statement_inv in H.
  destruct H as [_ [[_ H] | [_ [-> ->]]]]; [| auto].
  inversion H; subst. right. eexists. split; reflexivity.
Qed.

Lemma extendAndBuild_failure env e p pid cl st k err st' k' :
  extendAndBuild env e p pid cl (st, k) = (Throw err, (st', k')) ->
  err <> TypeError -> st' = st.
Proof.
  unfold extendAndBuild. intros H Herr.
  destruct (introducesNew e p cl).
  - apply bind_inv in H.
    destruct H as [(c & [st1 k1] & H1 & H2) | [(e1 & H1 & _) | [_ H]]];
      [| | discriminate].
    + inversion H2 as [[Hb Hs Hk]]. apply build_throws in Hb. contradiction.
    + apply createContact_inv in H1.
      destruct H1 as [[_ ->] | (c & Hc & _)]; [reflexivity | discriminate].
  - inversion H as [[Hb Hs Hk]]. reflexivity.
Qed.

(** C5, amended. There is no transaction: every write is committed by its
    own statement.  An invocation that touches at most one owning primary
    issues at most one write, so when it fails for any reason other than a
    missing primary in the view builder the store is the one it started
    from; a merge commits each demotion and each relinking on its own, and
    a failure between them leaves the earlier ones in the store. *)
Theorem C5_failure_without_merge (env : Env) (fuel : nat)
    (request : IdentifyRequest) (st : Store) (k : nat) (e : error)
    (st' : Store) (k' : nat) :
  identify env fuel request (st, k) = (Throw e, (st', k')) ->
  e <> TypeError ->
  (List.length
     (uniquePrimaryIds
        (sort byCreatedAt
           (filter (matchesEmailOrPhone (r_email request)
                                        (r_phoneNumber request))
                   (rows st)))) <= 1)%nat ->
  st' = st.
Proof.
  intros H He Hone. unfold identify in H. apply bind_inv in H.
  destruct H as [(cands & [st1 k1] & H1 & H2) | [(e1 & H1 & _) | [_ H]]];
    [| | discriminate].
  2:{ apply statement_inv in H1.
      destruct H1 as [_ [[_ H1] | [_ [_ H1]]]]; [| exact H1].
      destruct (truthy (r_email request) || truthy (r_phoneNumber request));
        inversion H1; reflexivity. }
  apply statement_inv in H1. destruct H1 as [-> [[_ H1] | [_ [H1 _]]]];
    [| discriminate].
  destruct (truthy (r_email request) || truthy (r_phoneNumber request));
    [| discriminate].
  inversion H1; subst st1 cands. clear H1.
  destruct (sort byCreatedAt _) as [| c0 cs] eqn:Ec.
  - apply bind_inv in H2.
    destruct H2 as [(c & [st1 k1] & H1 & H2) | [(e1 & H1 & _) | [_ H]]];
      [| | discriminate].
    + exfalso. apply createContact_inv in H1.
      destruct H1 as [[H1 _] | (c' & H1 & Hp)]; [discriminate |].
      inversion H1; subst c'. inversion H2 as [[Hb Hs Hk]].
      destruct (build_ok [c]) as (v & Hv);
        [exists c; split; [left; reflexivity | exact Hp] | congruence].
    + apply createContact_inv in H1.
      destruct H1 as [[_ ->] | (c & Hc & _)]; [reflexivity | discriminate].
  - destruct (uniquePrimaryIds (c0 :: cs)) as [| i1 [| i2 ids]].
    + inversion H2. reflexivity.
    + apply bind_inv in H2.
      destruct H2 as [(cl & [st1 k1] & H1 & H2) | [(e1 & H1 & _) | [_ H]]];
        [| | discriminate].
      * apply getLinkedContacts_inv in H1. destruct H1 as [-> _].
        eapply extendAndBuild_failure; eassumption.
      * apply getLinkedContacts_inv in H1. apply H1.
    + simpl in Hone. lia.
Qed.

Lemma C5_failure_without_merge_witness :
  identify (envDownAt 2) 3 (mkRequest (Some "a@x.com") (Some "123"))
           (oneStore, 0%nat)
    = (Throw StoreUnavailable, (oneStore, 3%nat)) /\
  oneStore = oneStore.
Proof.
  split; [reflexivity |].
  apply (C5_failure_without_merge (envDownAt 2) 3
           (mkRequest (Some "a@x.com") (Some "123")) oneStore 0
           StoreUnavailable oneStore 3).
  - reflexivity.
  - discriminate.
  - vm_compute. lia.
Defined.

(** ** The cluster of the survivor *)

Lemma clusterOf_rows tbl p c :
  In p tbl -> In c (clusterOf tbl p) -> In c tbl.
Proof.
  intros Hp [<- | Hc]; [exact Hp |]. apply secondariesOf_In in Hc. apply Hc.
Qed.

Lemma NoDup_map_filter {A B : Type} (g : A -> B) (f : A -> bool) l :
  NoDup (map g l) -> NoDup (map g (filter f l)).
Proof.
  induction l as [| a l IH]; simpl; intros H; [constructor |].
  inversion H as [| x xs Hx Hnd]; subst.
  destruct (f a); [| auto]. simpl. constructor; [| auto].
  intros Hin. apply Hx. apply in_map_iff in Hin.
  destruct Hin as (b & E & Hb). apply filter_In in Hb.
  rewrite <- E. apply in_map. apply Hb.
Qed.

Lemma cluster_ids_NoDup st p :
  wfStore st -> In p (rows st) -> linkPrecedence p = primary ->
  NoDup (map id (clusterOf (rows st) p)).
Proof.
  intros Hwf Hp Hpp. unfold clusterOf. simpl. constructor.
  - intros Hin. apply in_map_iff in Hin. destruct Hin as (c & E & Hc).
    apply secondariesOf_In in Hc. destruct Hc as (Hc & Hl & _).
    assert (c = p) by (apply (same_id_same_row (rows st));
                       auto using wf_ids).
    subst c. rewrite (wf_primary_unlinked st p Hwf Hp Hpp) in Hl.
    discriminate.
  - apply NoDup_map_filter. exact (wf_ids st Hwf).
Qed.

Lemma cluster_member_owner st p q c :
  wfStore st ->
  In p (rows st) -> linkPrecedence p = primary ->
  In q (rows st) -> linkPrecedence q = primary ->
  In c (clusterOf (rows st) p) -> In c (clusterOf (rows st) q) ->
  id p = id q.
Proof.
  intros Hwf Hp Hpp Hq Hqp [<- | Hc] [<- | Hc'].
  - reflexivity.
  - apply secondariesOf_In in Hc'. destruct Hc' as (_ & Hl & _).
    rewrite (wf_primary_unlinked st p Hwf Hp Hpp) in Hl. discriminate.
  - apply secondariesOf_In in Hc. destruct Hc as (_ & Hl & _).
    rewrite (wf_primary_unlinked st q Hwf Hq Hqp) in Hl. discriminate.
  - apply secondariesOf_In in Hc. apply secondariesOf_In in Hc'.
    destruct Hc as (_ & Hl & _), Hc' as (_ & Hl' & _). congruence.
Qed.

Lemma clusters_ids_NoDup st ps :
  wfStore st ->
  Forall (fun p => In p (rows st) /\ linkPrecedence p = primary) ps ->
  NoDup (map id ps) ->
  NoDup (List.concat (map (fun p => map id (clusterOf (rows st) p)) ps)).
Proof.
  intros Hwf Hall Hnd. induction ps as [| p ps IH]; [constructor |].
  cbn [map List.concat].
  inversion Hall as [| ? ? (Hp & Hpp) Hall']; subst.
  inversion Hnd as [| ? ? Hn Hnd']; subst.
  apply NoDup_app.
  - apply cluster_ids_NoDup; assumption.
  - apply IH; assumption.
  - intros i Hi Hi'. apply Hn.
    apply in_map_iff in Hi. destruct Hi as (c & E & Hc).
    apply in_concat in Hi'. destruct Hi' as (ids & Hids & Hi').
    apply in_map_iff in Hids. destruct Hids as (q & <- & Hq).
    apply in_map_iff in Hi'. destruct Hi' as (c' & E' & Hc').
    rewrite Forall_forall in Hall'. destruct (Hall' q Hq) as (Hq' & Hqp).
    assert (c' = c).
    { apply (same_id_same_row (rows st)).
      - exact (wf_ids st Hwf).
      - apply (clusterOf_rows _ q); assumption.
      - apply (clusterOf_rows _ p); assumption.
      - congruence. }
    subst c'.
    rewrite (cluster_member_owner st p q c Hwf Hp Hpp Hq' Hqp Hc Hc').
    apply in_map. exact Hq.
Qed.

Section MergedCluster.
Variables (env : Env) (k : nat) (st : Store) (o : Contact)
          (others : list Contact).
Hypothesis Hwf : wfStore st.
Hypothesis Hall :
  Forall (fun p => In p (rows st) /\ linkPrecedence p = primary) (o :: others).
Hypothesis Hnd : NoDup (map id (o :: others)).

Let merged : Store :=
  mkStore (map (demotedRow env k (id o) (map id others)) (rows st))
          (nextId st).

Lemma mc_o : In o (rows st) /\ linkPrecedence o = primary.
Proof. inversion Hall; assumption. Qed.

Lemma mc_others p :
  In p others -> In p (rows st) /\ linkPrecedence p = primary.
Proof.
  intros Hp. inversion Hall as [| ? ? _ H]; subst.
  rewrite Forall_forall in H. auto.
Qed.

Lemma mc_abs i :
  In i (map id others) ->
  exists p, In p (rows st) /\ linkPrecedence p = primary /\ id p = i.
Proof.
  intros Hi. apply in_map_iff in Hi. destruct Hi as (p & <- & Hp).
  destruct (mc_others p Hp). eauto.
Qed.

Lemma mc_o_fresh : ~ In (id o) (map id others).
Proof. inversion Hnd; assumption. Qed.

Lemma mc_nodup : NoDup (map id others).
Proof. inversion Hnd; assumption. Qed.

Lemma mc_absorbed_row c :
  In c (rows st) -> In (id c) (map id others) -> In c others.
Proof.
  intros Hc Hi. apply in_map_iff in Hi. destruct Hi as (p & E & Hp).
  destruct (mc_others p Hp) as [Hp' _].
  assert (p = c) by (apply (same_id_same_row (rows st)); auto using wf_ids).
  subst. exact Hp.
Qed.

Lemma mc_cases c :
  In c (rows st) ->
  let c' := demotedRow env k (id o) (map id others) c in
  sameIdentity c c' /\
  ((linkPrecedence c' = secondary /\ linkedId c' = Some (id o) /\
    (In (id c) (map id others) \/
     exists p, In p (rows st) /\ linkPrecedence p = primary /\
               In (id p) (map id others) /\ linkedId c = Some (id p) /\
               linkPrecedence c = secondary)) \/
   (c' = c /\ ~ In (id c) (map id others) /\
    forall p, linkedId c = Some p -> ~ In p (map id others))).
Proof.
  destruct mc_o. apply merged_cases;
    auto using mc_abs, mc_o_fresh, mc_nodup.
Qed.

Lemma merged_cluster_members c :
  In c (rows st) ->
  In (demotedRow env k (id o) (map id others) c) (clusterOf (rows merged) o)
  <-> exists p, In p (o :: others) /\ In c (clusterOf (rows st) p).
Proof.
  intros Hc. destruct mc_o as [Ho Hop].
  pose proof (wf_live st Hwf) as Hlive. rewrite Forall_forall in Hlive.
  destruct (mc_cases c Hc) as (Hsame & Hcase). cbn zeta in Hsame, Hcase.
  set (c' := demotedRow env k (id o) (map id others) c) in *.
  assert (Hc' : In c' (rows merged)) by (apply in_map; exact Hc).
  assert (Hlive' : deletedAt c' = None).
  { destruct Hsame as (_ & _ & _ & _ & ->). auto. }
  split.
  - intros [E | Hsec].
    + exists o. split; [left; reflexivity |]. left.
      apply (same_id_same_row (rows st)); auto using wf_ids.
      destruct Hsame as (Hi & _). rewrite <- Hi. f_equal. exact E.
    + apply secondariesOf_In in Hsec. destruct Hsec as (_ & Hl & _).
      destruct Hcase as [(_ & _ & [Hi | (p & Hp & Hpp & Hpi & Hcl & _)])
                        | (E & _ & _)].
      * exists c. split; [right; apply mc_absorbed_row; auto |].
        left. reflexivity.
      * exists p. split; [right; apply mc_absorbed_row; auto |].
        right. apply secondariesOf_In. auto.
      * exists o. split; [left; reflexivity |]. right.
        apply secondariesOf_In. rewrite E in Hl. auto.
  - intros (p & [<- | Hp] & [<- | Hsec]).
    + left. symmetry. apply demotedRow_stable; [apply mc_o_fresh |].
      intros q Hq. rewrite (wf_primary_unlinked st o Hwf Ho Hop) in Hq.
      discriminate.
    + apply secondariesOf_In in Hsec. destruct Hsec as (_ & Hl & _).
      right. apply secondariesOf_In.
      destruct Hcase as [(_ & _ & [Hi | (q & Hq & Hqp & Hqi & Hcl & _)])
                        | (E & _ & _)].
      * exfalso. destruct (mc_abs _ Hi) as (q & Hq & Hqp & E).
        assert (q = c) by (apply (same_id_same_row (rows st));
                           auto using wf_ids).
        subst q. rewrite (wf_primary_unlinked st c Hwf Hc Hqp) in Hl.
        discriminate.
      * exfalso. apply mc_o_fresh. congruence.
      * rewrite E in *. auto.
    + right. apply secondariesOf_In.
      destruct Hcase as [(_ & Hl & _) | (_ & Hn & _)]; [auto |].
      exfalso. apply Hn. apply in_map. exact Hp.
    + apply secondariesOf_In in Hsec. destruct Hsec as (_ & Hl & _).
      right. apply secondariesOf_In.
      destruct Hcase as [(_ & Hl' & _) | (_ & _ & Hn)]; [auto |].
      exfalso. apply (Hn _ Hl). apply in_map. exact Hp.
Qed.

Lemma merged_cluster_ids :
  Permutation (map id (clusterOf (rows merged) o))
    (List.concat (map (fun p => map id (clusterOf (rows st) p)) (o :: others))).
Proof.
  destruct mc_o as [Ho Hop].
  assert (Hwf1 : wfStore merged).
  { apply merged_wf; auto using mc_abs, mc_o_fresh, mc_nodup. }
  assert (Ho1 : In o (rows merged)).
  { apply merged_keeps_survivor; auto using mc_o_fresh. }
  apply NoDup_Permutation.
  - apply cluster_ids_NoDup; assumption.
  - apply clusters_ids_NoDup; assumption.
  - intros i. split.
    + intros Hi. apply in_map_iff in Hi. destruct Hi as (c' & <- & Hc').
      pose proof (clusterOf_rows _ _ _ Ho1 Hc') as Hin. simpl in Hin.
      apply in_map_iff in Hin. destruct Hin as (c & <- & Hc).
      apply (merged_cluster_members c Hc) in Hc'.
      destruct Hc' as (p & Hp & Hcp).
      apply in_concat. exists (map id (clusterOf (rows st) p)).
      split; [apply in_map_iff; eauto |].
      destruct (mc_cases c Hc) as ((E & _) & _). rewrite E.
      apply in_map. exact Hcp.
    + intros Hi. apply in_concat in Hi. destruct Hi as (ids & Hids & Hi).
      apply in_map_iff in Hids. destruct Hids as (p & <- & Hp).
      apply in_map_iff in Hi. destruct Hi as (c & <- & Hcp).
      assert (Hc : In c (rows st)).
      { rewrite Forall_forall in Hall. destruct (Hall p Hp).
        eapply clusterOf_rows; eassumption. }
      destruct (mc_cases c Hc) as ((E & _) & _). rewrite <- E.
      apply in_map. apply merged_cluster_members; eauto.
Qed.

End MergedCluster.

(** ** The merge *)

Lemma merged_cluster_values env k st o others
    (field : Contact -> option string) :
  wfStore st ->
  Forall (fun p => In p (rows st) /\ linkPrecedence p = primary) (o :: others) ->
  NoDup (map id (o :: others)) ->
  (forall c c', sameIdentity c c' -> field c' = field c) ->
  forall v,
    bringsNew field v
      (sort byCreatedAtId
         (clusterOf (map (demotedRow env k (id o) (map id others)) (rows st))
                    o))
    <-> bringsNew field v
          (List.concat (map (clusterOf (rows st)) (o :: others))).
Proof.
  intros Hwf Hall Hnd Hfield v.
  destruct (mc_o st o others Hall) as [Ho Hop].
  assert (Ho1 : In o (map (demotedRow env k (id o) (map id others)) (rows st))).
  { apply (merged_keeps_survivor env k st o (map id others)); auto.
    eapply mc_o_fresh; eassumption. }
  unfold bringsNew. split; intros (s & E & Hs & Hnone); exists s;
    (split; [exact E |]); (split; [exact Hs |]).
  - intros c Hc Hf. apply in_concat in Hc. destruct Hc as (cl & Hcl & Hc).
    apply in_map_iff in Hcl. destruct Hcl as (p & <- & Hp).
    assert (Hin : In c (rows st)).
    { rewrite Forall_forall in Hall. destruct (Hall p Hp).
      eapply clusterOf_rows; eassumption. }
    apply (Hnone (demotedRow env k (id o) (map id others) c)).
    + apply sort_In.
      apply (merged_cluster_members env k st o others Hwf Hall Hnd c Hin).
      eauto.
    + rewrite (Hfield c); [exact Hf |].
      apply (mc_cases env k st o others Hwf Hall Hnd c Hin).
  - intros c' Hc' Hf. apply sort_In in Hc'.
    pose proof (clusterOf_rows _ _ _ Ho1 Hc') as Hin.
    apply in_map_iff in Hin. destruct Hin as (c & <- & Hc).
    apply (merged_cluster_members env k st o others Hwf Hall Hnd c Hc) in Hc'.
    destruct Hc' as (p & Hp & Hcp).
    apply (Hnone c).
    + apply in_concat. exists (clusterOf (rows st) p).
      split; [apply in_map; exact Hp | exact Hcp].
    + rewrite <- (Hfield c (demotedRow env k (id o) (map id others) c));
        [exact Hf |].
      apply (mc_cases env k st o others Hwf Hall Hnd c Hc).
Qed.

Lemma build_primary cl o v :
  buildConsolidatedContact cl = Ok v ->
  In o cl -> linkPrecedence o = primary ->
  (forall c, In c cl -> linkPrecedence c = primary -> c = o) ->
  primaryContatctId v = id o.
Proof.
  intros Hb Ho Hop Hu. unfold buildConsolidatedContact in Hb.
  rewrite (find_unique isPrimary (sort primaryFirst cl) o) in Hb.
  - inversion Hb. reflexivity.
  - apply sort_In. exact Ho.
  - apply isPrimary_true. exact Hop.
  - intros y Hy Hyp. apply sort_In in Hy. apply isPrimary_true in Hyp. auto.
Qed.

Lemma cluster_only_primary st o c :
  wfStore st -> In o (rows st) ->
  In c (sort byCreatedAtId (clusterOf (rows st) o)) ->
  linkPrecedence c = primary -> c = o.
Proof.
  intros Hwf Ho Hc Hp. apply sort_In in Hc. destruct Hc as [<- | Hc];
    [reflexivity |].
  apply secondariesOf_In in Hc. destruct Hc as (Hc & Hl & _).
  pose proof (wf_linked_is_secondary st c (id o) Hwf Hc Hl). congruence.
Qed.

Lemma no_match_when_invalid e p tbl :
  truthy e || truthy p = false -> filter (matchesEmailOrPhone e p) tbl = [].
Proof.
  intros H. apply orb_false_iff in H. destruct H as [He Hp].
  apply filter_nil. intros c _. unfold matchesEmailOrPhone.
  rewrite He, Hp. simpl. apply andb_false_r.
Qed.

(** On a store whose clusters are maximal a merge brings nothing new: the
    request reaches two clusters only through two values, and each is the
    value of a matched contact. *)
Lemma NoDup_all_equal {A : Type} (l : list A) :
  NoDup l -> (forall x y, In x l -> In y l -> x = y) ->
  (List.length l <= 1)%nat.
Proof.
  intros Hnd Heq. destruct l as [| a [| b l]]; simpl; try lia.
  exfalso. inversion Hnd as [| ? ? Hn _]; subst. apply Hn.
  rewrite (Heq a b); simpl; auto.
Qed.

Lemma one_owner_when_all_share cands :
  (forall a b, In a cands -> In b cands -> ownerOf a = ownerOf b) ->
  (List.length (uniquePrimaryIds cands) <= 1)%nat.
Proof.
  intros H. destruct (uniquePrimaryIds_spec cands) as [Hnd Hin].
  apply NoDup_all_equal; [exact Hnd |].
  intros i j Hi Hj. apply Hin in Hi. apply Hin in Hj.
  destruct Hi as (a & Ha & Ea), Hj as (b & Hb & Eb).
  rewrite (H a b Ha Hb) in Ea. congruence.
Qed.

Lemma match_in_union st cands ps c :
  wfStore st -> (forall x, In x cands -> In x (rows st)) ->
  Permutation (map id ps) (uniquePrimaryIds cands) ->
  Forall (fun p => In p (rows st) /\ linkPrecedence p = primary) ps ->
  In c cands ->
  In c (List.concat (map (clusterOf (rows st)) ps)).
Proof.
  intros Hwf Hsub Hperm Hall Hc.
  pose proof (Hsub c Hc) as Hin.
  assert (Ho : exists i, ownerOf c = Some i /\ In i (map id ps)).
  { unfold ownerOf. destruct (linkPrecedence c) eqn:Ep.
    - exists (id c). split; [reflexivity |].
      eapply Permutation_in; [apply Permutation_sym, Hperm |].
      apply uniquePrimaryIds_spec. exists c. split; [exact Hc |].
      unfold ownerOf. rewrite Ep. reflexivity.
    - destruct (wf_flat st Hwf c Hin Ep) as (q & Hq & Hl & _).
      pose proof (wf_id_bounds st q Hwf Hq) as Hb.
      assert (Ht : truthyId (linkedId c) = true).
      { rewrite Hl. simpl. destruct (Z.eqb_spec (id q) 0); [lia | auto]. }
      rewrite Ht. exists (id q). split; [exact Hl |].
      eapply Permutation_in; [apply Permutation_sym, Hperm |].
      apply uniquePrimaryIds_spec. exists c. split; [exact Hc |].
      unfold ownerOf. rewrite Ep, Ht. exact Hl. }
  destruct Ho as (i & Ho & Hi). apply in_map_iff in Hi.
  destruct Hi as (p & E & Hp). rewrite Forall_forall in Hall.
  destruct (Hall p Hp) as [Hp' Hpp].
  apply in_concat. exists (clusterOf (rows st) p).
  split; [apply in_map; exact Hp |].
  unfold ownerOf in Ho. destruct (linkPrecedence c) eqn:Ep.
  - left. apply (same_id_same_row (rows st)); auto using wf_ids. congruence.
  - right. apply secondariesOf_In. split; [exact Hin |].
    destruct (truthyId (linkedId c)); [| discriminate].
    split; [congruence |].
    pose proof (wf_live st Hwf) as Hlive. rewrite Forall_forall in Hlive. auto.
Qed.

Lemma maximal_merge_brings_nothing st e p ps :
  wfStore st -> maximalClusters st ->
  let cands := sort byCreatedAt
                 (filter (matchesEmailOrPhone e p) (rows st)) in
  Permutation (map id ps) (uniquePrimaryIds cands) ->
  Forall (fun q => In q (rows st) /\ linkPrecedence q = primary) ps ->
  (2 <= List.length (uniquePrimaryIds cands))%nat ->
  ~ (bringsNew email e (List.concat (map (clusterOf (rows st)) ps)) \/
     bringsNew phoneNumber p (List.concat (map (clusterOf (rows st)) ps))).
Proof.
  intros Hwf Hmax cands Hperm Hall Hmany Hbrings.
  assert (Hsub : forall x, In x cands -> In x (rows st)).
  { intros x Hx. apply sort_In, filter_In in Hx. apply Hx. }
  assert (Hcand : forall x, In x cands -> isCandidate e p x).
  { intros x Hx. apply sort_In, filter_In in Hx.
    apply matchesEmailOrPhone_spec, Hx. }
  pose proof (fun c => match_in_union st cands ps c Hwf Hsub Hperm Hall)
    as Hunion.
  assert (Hone : (List.length (uniquePrimaryIds cands) <= 1)%nat); [| lia].
  apply one_owner_when_all_share. intros a b Ha Hb.
  apply Hmax; [auto | auto |].
  destruct Hbrings as [(s & E & Hs & Hnone) | (s & E & Hs & Hnone)].
  - right.
    destruct (Hcand a Ha) as (_ & [(_ & Ea) | (Hp & Ea)]);
      [exfalso; apply (Hnone a (Hunion a Ha)); congruence |].
    destruct (Hcand b Hb) as (_ & [(_ & Eb) | (_ & Eb)]);
      [exfalso; apply (Hnone b (Hunion b Hb)); congruence |].
    apply truthy_Some in Hp. destruct Hp as (t & Et & Ht).
    exists t. split; [exact Ht |]. split; congruence.
  - left.
    destruct (Hcand a Ha) as (_ & [(He & Ea) | (_ & Ea)]);
      [| exfalso; apply (Hnone a (Hunion a Ha)); congruence].
    destruct (Hcand b Hb) as (_ & [(_ & Eb) | (_ & Eb)]);
      [| exfalso; apply (Hnone b (Hunion b Hb)); congruence].
    apply truthy_Some in He. destruct He as (t & Et & Ht).
    exists t. split; [exact Ht |]. split; congruence.
Qed.

(** C1, amended. When the matches of a request touch two or more owning
    primaries of a store that satisfies the invariants and answers, identify
    returns; its surviving primary is one of the touched primaries and none
    of them was created in an earlier millisecond: the touched primaries
    are sorted by getTime() of createdAt, stably over the order in which
    their ids were collected, so within a millisecond neither the
    microseconds of createdAt nor the id settle who survives;
    every other touched primary is rewritten to a secondary linked to the
    survivor; every contact that was linked to one of those is linked to
    the survivor; and the cluster of the survivor holds exactly the
    contacts of the merged clusters, each once, together with the one
    secondary the call creates when the request brings an email or a phone
    number that none of them carries, which cannot happen when the
    clusters of the store are maximal. *)
Theorem C1_merge (env : Env) (fuel : nat) (request : IdentifyRequest)
    (st : Store) (k : nat) :
  wfStore st -> (forall j, available env j = true) -> (2 <= fuel)%nat ->
  let cands := sort byCreatedAt
                 (filter (matchesEmailOrPhone (r_email request)
                                              (r_phoneNumber request))
                         (rows st)) in
  (2 <= List.length (uniquePrimaryIds cands))%nat ->
  exists survivor absorbed created v st' k',
    identify env fuel request (st, k) = (Ok v, (st', k')) /\
    Permutation (map id (survivor :: absorbed)) (uniquePrimaryIds cands) /\
    Forall (fun p => In p (rows st) /\ linkPrecedence p = primary)
           (survivor :: absorbed) /\
    Forall (getTimeLe survivor) absorbed /\
    (exists touched, map id touched = uniquePrimaryIds cands /\
                     sort byGetTime touched = survivor :: absorbed) /\
    In survivor (rows st') /\
    primaryContatctId v = id survivor /\
    (forall p, In p absorbed ->
       exists p', In p' (rows st') /\ sameIdentity p p' /\
                  linkPrecedence p' = secondary /\
                  linkedId p' = Some (id survivor)) /\
    (forall p c, In p absorbed -> In c (rows st) ->
       linkedId c = Some (id p) ->
       exists c', In c' (rows st') /\ sameIdentity c c' /\
                  linkPrecedence c' = secondary /\
                  linkedId c' = Some (id survivor)) /\
    map id (rows st') = map id (rows st) ++ map id created /\
    Permutation
      (map id (clusterOf (rows st') survivor))
      (List.concat (map (fun p => map id (clusterOf (rows st) p))
                        (survivor :: absorbed)) ++ map id created) /\
    let union := List.concat (map (clusterOf (rows st))
                                  (survivor :: absorbed)) in
    let brings := bringsNew email (r_email request) union \/
                  bringsNew phoneNumber (r_phoneNumber request) union in
    (~ brings -> created = []) /\
    (brings ->
     exists c, created = [c] /\ email c = orNull (r_email request) /\
               phoneNumber c = orNull (r_phoneNumber request) /\
               linkPrecedence c = secondary /\
               linkedId c = Some (id survivor)) /\
    (maximalClusters st -> created = []).
Proof.
  intros Hwf Ha Hf cands Hmany.
  assert (Hvalid : truthy (r_email request) || truthy (r_phoneNumber request)
                   = true).
  { destruct (truthy (r_email request) || truthy (r_phoneNumber request))
      eqn:E; [reflexivity |]. exfalso. unfold cands in Hmany.
    rewrite (no_match_when_invalid _ _ _ E) in Hmany. simpl in Hmany. lia. }
  destruct (identify_reaches env fuel request st k Hwf Ha Hf Hvalid)
    as (o & others & kd & k1 & Hperm & Hall & Hsorted & Hchosen & Hk1 &
          Hrun).
  { fold cands. intros E. rewrite E in Hmany. simpl in Hmany. lia. }
  fold cands in Hperm. cbn zeta in Hrun.
  set (rows1 := map (demotedRow env kd (id o) (map id others)) (rows st)) in *.
  set (st1 := mkStore rows1 (nextId st)) in *.
  assert (Hndo : NoDup (map id (o :: others))).
  { eapply Permutation_NoDup; [apply Permutation_sym, Hperm |].
    apply uniquePrimaryIds_spec. }
  destruct (mc_o st o others Hall) as [Ho Hop].
  assert (Hwf1 : wfStore st1).
  { apply merged_wf; auto.
    - intros i. apply (mc_abs st o others Hall).
    - apply (mc_o_fresh o others Hndo).
    - apply (mc_nodup o others Hndo). }
  assert (Ho1 : In o rows1).
  { apply (merged_keeps_survivor env kd st o (map id others)); auto.
    apply (mc_o_fresh o others Hndo). }
  pose proof (mc_cases env kd st o others Hwf Hall Hndo) as Hcases.
  pose proof (merged_cluster_ids env kd st o others Hwf Hall Hndo) as Hunion.
  fold rows1 in Hcases, Hunion. cbn [rows] in Hunion.
  assert (Habsorbed : forall p, In p others ->
            exists p', In p' rows1 /\ sameIdentity p p' /\
                       linkPrecedence p' = secondary /\
                       linkedId p' = Some (id o)).
  { intros p Hp. destruct (mc_others st o others Hall p Hp) as [Hp' _].
    exists (demotedRow env kd (id o) (map id others) p).
    split; [apply in_map; exact Hp' |].
    destruct (Hcases p Hp') as (Hsame & [(Hs & Hl & _) | (_ & Hn & _)]).
    - auto.
    - exfalso. apply Hn. apply in_map. exact Hp. }
  assert (Hrelinked : forall p c, In p others -> In c (rows st) ->
            linkedId c = Some (id p) ->
            exists c', In c' rows1 /\ sameIdentity c c' /\
                       linkPrecedence c' = secondary /\
                       linkedId c' = Some (id o)).
  { intros p c Hp Hc Hl.
    exists (demotedRow env kd (id o) (map id others) c).
    split; [apply in_map; exact Hc |].
    destruct (Hcases c Hc) as (Hsame & [(Hs & Hl' & _) | (_ & _ & Hn)]).
    - auto.
    - exfalso. apply (Hn _ Hl). apply in_map. exact Hp. }
  assert (Hids1 : map id rows1 = map id (rows st)).
  { apply (merged_ids env kd st o (map id others)); auto.
    - intros i. apply (mc_abs st o others Hall).
    - apply (mc_o_fresh o others Hndo).
    - apply (mc_nodup o others Hndo). }
  assert (Hbrings : forall field (Hfield : forall c c', sameIdentity c c' ->
                                             field c' = field c) v,
            bringsNew field v (sort byCreatedAtId (clusterOf rows1 o)) <->
            bringsNew field v
              (List.concat (map (clusterOf (rows st)) (o :: others)))).
  { intros field Hfield v.
    apply merged_cluster_values; assumption. }
  assert (Hnew : introducesNew (r_email request) (r_phoneNumber request)
                   (sort byCreatedAtId (clusterOf rows1 o)) = true <->
                 bringsNew email (r_email request)
                   (List.concat (map (clusterOf (rows st)) (o :: others))) \/
                 bringsNew phoneNumber (r_phoneNumber request)
                   (List.concat (map (clusterOf (rows st)) (o :: others)))).
  { rewrite introducesNew_spec.
    rewrite (Hbrings email), (Hbrings phoneNumber); [reflexivity | |].
    - intros c c' (_ & _ & E & _). exact E.
    - intros c c' (_ & E & _). exact E. }
  destruct (extendAndBuild_run env (r_email request) (r_phoneNumber request)
              (id o) (sort byCreatedAtId (clusterOf (rows st1) o)) st1 k1
              (Ha k1) (cluster_has_primary (rows st1) o Hop))
    as (v & st' & k' & Hext & Hend).
  change (rows st1) with rows1 in Hend.
  destruct Hend as [(Hno & -> & -> & Hb) | (Hyes & -> & -> & Hb)].
  - exists o, others, [], v, st1, k1.
    split; [rewrite Hrun; exact Hext |].
    split; [exact Hperm |]. split; [exact Hall |]. split; [exact Hsorted |].
    split; [exact Hchosen |].
    split; [exact Ho1 |].
    split.
    { apply (build_primary _ o v Hb).
      - apply sort_In. left. reflexivity.
      - exact Hop.
      - intros c Hc Hp. apply (cluster_only_primary st1); assumption. }
    split; [exact Habsorbed |]. split; [exact Hrelinked |].
    split; [simpl; rewrite app_nil_r; exact Hids1 |].
    split; [simpl map at 3; rewrite app_nil_r; exact Hunion |].
    split; [reflexivity |].
    split; [| reflexivity].
    intros Hb'. apply Hnew in Hb'. congruence.
  - set (c := insertedContact (NOW env k1) st1 (orNull (r_email request))
                (orNull (r_phoneNumber request)) (Some (id o)) secondary)
      in *.
    exists o, others, [c], v,
      (mkStore (rows1 ++ [c]) (nextId st + 1)), (S k1).
    split; [rewrite Hrun; exact Hext |].
    split; [exact Hperm |]. split; [exact Hall |]. split; [exact Hsorted |].
    split; [exact Hchosen |].
    split; [apply in_or_app; left; exact Ho1 |].
    split.
    { apply (build_primary _ o v Hb).
      - apply in_or_app. left. apply sort_In. left. reflexivity.
      - exact Hop.
      - intros c0 Hc Hp. apply in_app_iff in Hc.
        destruct Hc as [Hc | [<- | []]]; [| discriminate].
        apply (cluster_only_primary st1); assumption. }
    split.
    { intros p Hp. destruct (Habsorbed p Hp) as (p' & Hp' & H).
      exists p'. split; [apply in_or_app; left; exact Hp' | exact H]. }
    split.
    { intros p c0 Hp Hc Hl.
      destruct (Hrelinked p c0 Hp Hc Hl) as (c' & Hc' & H).
      exists c'. split; [apply in_or_app; left; exact Hc' | exact H]. }
    split; [cbn [rows]; rewrite map_app, Hids1; reflexivity |].
    split.
    { cbn [rows]. unfold clusterOf, secondariesOf.
      rewrite filter_app. cbn [filter c insertedContact linkedId deletedAt].
      unfold sqlEqId. rewrite Z.eqb_refl. cbn [andb isNull].
      rewrite app_comm_cons, map_app.
      apply Permutation_app; [exact Hunion | reflexivity]. }
    split; [intros Hb'; exfalso; apply Hb', Hnew, Hyes |].
    split; [intros _; exists c; repeat split |].
    intros Hmax. exfalso.
    apply (maximal_merge_brings_nothing st (r_email request)
             (r_phoneNumber request) (o :: others) Hwf Hmax Hperm Hall Hmany).
    apply Hnew. exact Hyes.
Qed.

(** C1 as stated fails: the request (s, p) touches the primaries 1 and 2 of
    [tieStore], created at the same instant; contact 1 comes first in
    (createdAt, id) order, yet the call keeps contact 2 as the primary and
    rewrites contact 1 to a secondary linked to it. *)
Lemma C1_counterexample :
  let first := mkContact 1 None (Some "a") None primary 10 10 None in
  let later := mkContact 2 (Some "p") None None primary 10 10 None in
  wfStore tieStore /\
  In first (rows tieStore) /\ In later (rows tieStore) /\
  uniquePrimaryIds
    (sort byCreatedAt
       (filter (matchesEmailOrPhone (Some "s") (Some "p")) (rows tieStore)))
    = [id later; id first] /\
  createdAtIdLe first later /\ ~ createdAtIdLe later first /\
  exists v st' k',
    identify envUp 3 (mkRequest (Some "s") (Some "p")) (tieStore, 0%nat)
      = (Ok v, (st', k')) /\
    primaryContatctId v = id later /\
    In later (rows st') /\
    In (mkContact 1 None (Some "a") (Some (id later)) secondary 10 103 None)
       (rows st').
Proof.
  cbv zeta. split; [apply wfStoreb_sound; reflexivity |].
  split; [simpl; auto |]. split; [simpl; auto |].
  split; [reflexivity |].
  split; [unfold createdAtIdLe; simpl; lia |].
  split; [unfold createdAtIdLe; simpl; lia |].
  eexists _, _, _. split; [apply tie_run |].
  split; [reflexivity |]. simpl. auto.
Qed.

Lemma C1_merge_witness :
  exists survivor absorbed created v st' k',
    identify envUp 3 (mkRequest (Some "n") (Some "p")) (sharedStore, 0%nat)
      = (Ok v, (st', k')) /\
    Permutation (map id (survivor :: absorbed)) [1; 2] /\
    primaryContatctId v = id survivor /\
    Permutation
      (map id (clusterOf (rows st') survivor))
      (List.concat (map (fun p => map id (clusterOf (rows sharedStore) p))
                        (survivor :: absorbed)) ++ map id created).
Proof.
  destruct (C1_merge envUp 3 (mkRequest (Some "n") (Some "p")) sharedStore 0)
    as (survivor & absorbed & created & v & st' & k' & Hrun & Hperm & _ & _ &
        _ & _ & Hprimary & _ & _ & _ & Hunion & _).
  - apply wfStoreb_sound. reflexivity.
  - intros j. reflexivity.
  - lia.
  - vm_compute. lia.
  - exists survivor, absorbed, created, v, st', k'.
    split; [exact Hrun |]. split; [exact Hperm |].
    split; [exact Hprimary | exact Hunion].
Defined.

(** * Further properties *)

(** ** The view builder on any list *)

Lemma pushNew_NoDup arr v : NoDup arr -> NoDup (pushNew arr v).
Proof.
  intros H. unfold pushNew. destruct v as [s |]; [| exact H].
  destruct (negb (s =? "") && negb (includes arr s)) eqn:E; [| exact H].
  apply andb_true_iff in E. destruct E as [_ E].
  apply negb_true_iff in E.
  apply NoDup_app; [exact H | repeat constructor; simpl; tauto |].
  intros x Hx [<- | []]. apply includes_In in Hx. congruence.
Qed.

Lemma pushNew_In arr v s :
  In s (pushNew arr v) <-> In s arr \/ (s <> "" /\ v = Some s).
Proof.
  unfold pushNew. destruct v as [t |].
  - destruct (String.eqb_spec t "") as [Et | Et]; simpl.
    + split; [auto |]. intros [H | [Hs E]]; [exact H |].
      inversion E; subst. contradiction.
    + destruct (includes arr t) eqn:Ei; simpl.
      * split; [auto |]. intros [H | [Hs E]]; [exact H |].
        inversion E; subst. apply includes_In. exact Ei.
      * rewrite in_app_iff. simpl. split.
        -- intros [H | [<- | []]]; auto.
        -- intros [H | [Hs E]]; [auto |]. inversion E; subst. auto.
  - split; [auto |]. intros [H | [_ E]]; [exact H | discriminate].
Qed.

Lemma fold_pushNew_spec (field : Contact -> option string) l : forall acc,
  NoDup acc ->
  let out := fold_left (fun arr c => pushNew arr (field c)) l acc in
  NoDup out /\
  forall s, In s out <->
            In s acc \/ (s <> "" /\ exists c, In c l /\ field c = Some s).
Proof.
  induction l as [| c l IH]; intros acc Hacc; simpl.
  - split; [exact Hacc |]. intros s. split; [auto |].
    intros [H | (_ & c & [] & _)]. exact H.
  - destruct (IH (pushNew acc (field c)) (pushNew_NoDup _ _ Hacc))
      as [Hnd Hin].
    split; [exact Hnd |]. intros s. rewrite Hin, pushNew_In. split.
    + intros [[H | [Hs E]] | (Hs & c' & Hc' & E)]; eauto 6.
    + intros [H | (Hs & c' & [<- | Hc'] & E)]; eauto 6.
Qed.

Lemma primaryFirst_total a b : 0 < primaryFirst a b -> primaryFirst b a <= 0.
Proof.
  unfold primaryFirst.
  destruct (linkPrecedence a), (linkPrecedence b); lia.
Qed.

Lemma primaryFirst_trans a b c :
  primaryFirst a b <= 0 -> primaryFirst b c <= 0 -> primaryFirst a c <= 0.
Proof.
  unfold primaryFirst.
  destruct (linkPrecedence a), (linkPrecedence b), (linkPrecedence c); lia.
Qed.

Lemma filter_perm {A : Type} (f : A -> bool) l l' :
  Permutation l l' -> Permutation (filter f l) (filter f l').
Proof.
  induction 1; simpl.
  - constructor.
  - destruct (f x); [constructor |]; assumption.
  - destruct (f x), (f y); try reflexivity. apply perm_swap.
  - etransitivity; eassumption.
Qed.

Lemma find_sorted_head (l : list Contact) p :
  StronglySorted (fun a b => primaryFirst a b <= 0) l ->
  find isPrimary l = Some p ->
  exists rest, l = p :: rest.
Proof.
  intros Hs Hf. destruct l as [| a rest]; [discriminate |].
  simpl in Hf. destruct (isPrimary a) eqn:Ea.
  - inversion Hf; subst. eauto.
  - exfalso. apply find_some in Hf. destruct Hf as [Hp Hpp].
    inversion Hs as [| ? ? _ Hall]; subst.
    rewrite Forall_forall in Hall. specialize (Hall p Hp).
    unfold primaryFirst in Hall. unfold isPrimary in Ea, Hpp.
    destruct (linkPrecedence a), (linkPrecedence p);
      try discriminate; lia.
Qed.

Lemma sorted_secondaries l :
  StronglySorted (fun a b => primaryFirst a b <= 0) l ->
  StronglySorted getTimeLe (filter isSecondary l).
Proof.
  induction 1 as [| a l Hs IH Ha]; simpl; [constructor |].
  destruct (isSecondary a) eqn:Ea; [| exact IH].
  constructor; [exact IH |]. apply Forall_forall. intros x Hx.
  apply filter_In in Hx. destruct Hx as [Hx Hxs].
  rewrite Forall_forall in Ha. specialize (Ha x Hx).
  unfold primaryFirst in Ha. unfold isSecondary in Ea, Hxs.
  unfold getTimeLe.
  destruct (linkPrecedence a), (linkPrecedence x); try discriminate; lia.
Qed.

(** X6. The builder needs a primary: on a list without one, the empty list
    included, reading the primary's email throws; on any list with one it
    returns. *)
Theorem X6_build_needs_primary (contacts : list Contact) :
  (Forall (fun c => linkPrecedence c = secondary) contacts ->
   buildConsolidatedContact contacts = Throw TypeError) /\
  ((exists c, In c contacts /\ linkPrecedence c = primary) ->
   exists v, buildConsolidatedContact contacts = Ok v).
Proof.
  split; [| apply build_ok].
  intros Hall. unfold buildConsolidatedContact.
  destruct (find isPrimary (sort primaryFirst contacts)) as [p |] eqn:E;
    [| reflexivity].
  exfalso. apply find_some in E. destruct E as [Hp Hpp].
  apply sort_In in Hp. rewrite Forall_forall in Hall.
  apply isPrimary_true in Hpp. rewrite (Hall p Hp) in Hpp. discriminate.
Qed.

Lemma X6_build_needs_primary_witness :
  buildConsolidatedContact [] = Throw TypeError /\
  exists v,
    buildConsolidatedContact
      [mkContact 1 None (Some "a") None primary 10 10 None] = Ok v.
Proof.
  split.
  - apply (proj1 (X6_build_needs_primary [])). constructor.
  - apply (proj2 (X6_build_needs_primary _)).
    eexists. split; [left; reflexivity | reflexivity].
Defined.

Lemma find_sorted_first {A : Type} (R : A -> A -> Prop) (f : A -> bool)
    l p q :
  (forall x, R x x) -> StronglySorted R l ->
  find f l = Some p -> In q l -> f q = true -> R p q.
Proof.
  intros Hrefl Hs. induction Hs as [| a l Hs IH Ha]; simpl;
    [discriminate |].
  intros Hf Hq Hfq. destruct (f a) eqn:Ea.
  - inversion Hf; subst. destruct Hq as [<- | Hq]; [apply Hrefl |].
    rewrite Forall_forall in Ha. auto.
  - destruct Hq as [<- | Hq]; [congruence | auto].
Qed.

Lemma secondaries_of_split (l : list Contact) :
  filter isSecondary (filter isPrimary l ++ filter isSecondary l)
  = filter isSecondary l.
Proof.
  rewrite filter_app. rewrite (filter_nil isSecondary (filter isPrimary l)).
  - simpl. apply filter_filter_implied. auto.
  - intros x Hx. apply filter_In in Hx. destruct Hx as [_ Hx].
    rewrite isSecondary_negb, Hx. reflexivity.
Qed.

(** X7. Whatever the order of the list it is given, a view the builder
    returns names a primary of the list that no other primary of the list
    precedes to the millisecond; its emails and its phone numbers hold no
    value twice and hold exactly the non-empty values of that primary and
    of the secondaries; its secondary ids are the ids of the secondaries of
    the list, in the order of their createdAt to the millisecond.  On a
    list that comes in createdAt order they are the secondaries in the
    order of the list, and no primary of the list was created before the
    one named. *)
Theorem X7_build_view (contacts : list Contact) (v : ConsolidatedContact) :
  buildConsolidatedContact contacts = Ok v ->
  exists p,
    In p contacts /\ linkPrecedence p = primary /\
    primaryContatctId v = id p /\
    (forall q, In q contacts -> linkPrecedence q = primary ->
               getTimeLe p q) /\
    NoDup (emails v) /\ NoDup (phoneNumbers v) /\
    (forall s, In s (emails v) <->
       s <> "" /\ (email p = Some s \/
                   exists c, In c contacts /\ linkPrecedence c = secondary /\
                             email c = Some s)) /\
    (forall s, In s (phoneNumbers v) <->
       s <> "" /\ (phoneNumber p = Some s \/
                   exists c, In c contacts /\ linkPrecedence c = secondary /\
                             phoneNumber c = Some s)) /\
    exists secondaries,
      secondaryContactIds v = map id secondaries /\
      Permutation secondaries (filter isSecondary contacts) /\
      StronglySorted getTimeLe secondaries /\
      (StronglySorted createdAtLe contacts ->
       secondaries = filter isSecondary contacts /\
       StronglySorted createdAtLe secondaries /\
       forall q, In q contacts -> linkPrecedence q = primary ->
                 createdAt p <= createdAt q).
Proof.
  unfold buildConsolidatedContact. intros H.
  pose proof (sort_sorted primaryFirst primaryFirst_total primaryFirst_trans
                contacts) as Hsorted.
  destruct (find isPrimary (sort primaryFirst contacts)) as [p |] eqn:E;
    [| discriminate].
  inversion H as [Hv]. clear H. simpl.
  destruct (find_sorted_head _ p Hsorted E) as (rest & Hrest).
  pose proof (find_some _ _ E) as [Hp Hpp].
  apply sort_In in Hp. apply isPrimary_true in Hpp.
  assert (Hsec : forall c, In c (filter isSecondary (sort primaryFirst contacts))
                           <-> In c contacts /\ linkPrecedence c = secondary).
  { intros c. rewrite filter_In, sort_In. unfold isSecondary.
    destruct (linkPrecedence c); intuition congruence. }
  exists p. split; [exact Hp |]. split; [exact Hpp |].
  split; [reflexivity |]. split.
  { intros q Hq Hqp. assert (Hq' : In q (sort primaryFirst contacts))
      by (apply sort_In; exact Hq).
    rewrite Hrest in Hq', Hsorted. unfold getTimeLe.
    destruct Hq' as [<- | Hq']; [lia |].
    inversion Hsorted as [| ? ? _ Hall]; subst.
    rewrite Forall_forall in Hall. specialize (Hall q Hq').
    unfold primaryFirst in Hall. rewrite Hpp, Hqp in Hall. lia. }
  destruct (fold_pushNew_spec email
              (filter isSecondary (sort primaryFirst contacts))
              (pushNew [] (email p)) (pushNew_NoDup _ _ (NoDup_nil _)))
    as [He1 He2].
  destruct (fold_pushNew_spec phoneNumber
              (filter isSecondary (sort primaryFirst contacts))
              (pushNew [] (phoneNumber p)) (pushNew_NoDup _ _ (NoDup_nil _)))
    as [Hp1 Hp2].
  split; [exact He1 |]. split; [exact Hp1 |]. split; [| split].
  - intros s. rewrite He2, pushNew_In. split.
    + intros [[[] | [Hs Ep]] | (Hs & c & Hc & Ec)]; [auto |].
      split; [exact Hs |]. right. exists c. apply Hsec in Hc.
      destruct Hc. auto.
    + intros (Hs & [Ep | (c & Hc & Hcs & Ec)]); [auto |].
      right. split; [exact Hs |]. exists c. split; [| exact Ec].
      apply Hsec. auto.
  - intros s. rewrite Hp2, pushNew_In. split.
    + intros [[[] | [Hs Ep]] | (Hs & c & Hc & Ec)]; [auto |].
      split; [exact Hs |]. right. exists c. apply Hsec in Hc.
      destruct Hc. auto.
    + intros (Hs & [Ep | (c & Hc & Hcs & Ec)]); [auto |].
      right. split; [exact Hs |]. exists c. split; [| exact Ec].
      apply Hsec. auto.
  - exists (filter isSecondary (sort primaryFirst contacts)).
    split; [reflexivity |].
    split; [apply filter_perm, sort_perm |].
    split; [apply sorted_secondaries; exact Hsorted |].
    intros Hs.
    assert (Hsplit : sort primaryFirst contacts
                     = filter isPrimary contacts ++ filter isSecondary contacts).
    { apply sort_primaryFirst.
      eapply StronglySorted_impl; [apply createdAtLe_getTimeLe | exact Hs]. }
    rewrite Hsplit, secondaries_of_split.
    split; [reflexivity |].
    split; [apply StronglySorted_filter; exact Hs |].
    intros q Hq Hqp. rewrite Hsplit, find_filter_app in E.
    2:{ intros x Hx. apply filter_In in Hx. destruct Hx as [_ Hx].
        rewrite isSecondary_negb in Hx. apply negb_true_iff. exact Hx. }
    apply (find_sorted_first createdAtLe isPrimary contacts p q);
      [intros x; unfold createdAtLe; lia | exact Hs | exact E | exact Hq |].
    apply isPrimary_true. exact Hqp.
Qed.

(** The builder reads dates to the millisecond: two secondaries created
    in the same millisecond keep the order in which they were given, here
    contact 3 before contact 2, although contact 2 was created 300
    microseconds earlier. *)
Lemma build_reads_milliseconds :
  buildConsolidatedContact
    [ mkContact 3 None (Some "c") (Some 1) secondary 1500 1500 None;
      mkContact 2 None (Some "b") (Some 1) secondary 1200 1200 None;
      mkContact 1 None (Some "a") None primary 1000 1000 None ]
  = Ok (mkConsolidated 1 ["a"; "c"; "b"] [] [3; 2]).
Proof. reflexivity. Qed.

Lemma X7_build_view_witness :
  exists p,
    In p (rows tieMerged) /\ linkPrecedence p = primary /\
    primaryContatctId (mkConsolidated 2 ["a"; "s"] ["p"; "q"] [1; 3]) = id p.
Proof.
  destruct (X7_build_view (rows tieMerged)
              (mkConsolidated 2 ["a"; "s"] ["p"; "q"] [1; 3]) eq_refl)
    as (p & Hp & Hpp & Hid & _).
  exists p. auto.
Defined.

(** ** What the recursive query returns *)

Lemma childrenOf_In tbl working c :
  In c (childrenOf tbl working) <->
  exists w, In w working /\ In c tbl /\ linkedId c = Some (id w) /\
            deletedAt c = None.
Proof.
  unfold childrenOf. rewrite in_flat_map. split.
  - intros (w & Hw & Hc). fold (secondariesOf tbl (id w)) in Hc.
    apply secondariesOf_In in Hc. exists w. tauto.
  - intros (w & Hw & Hc). exists w. split; [exact Hw |].
    fold (secondariesOf tbl (id w)). apply secondariesOf_In. exact Hc.
Qed.

Lemma contact_tree_working fuel tbl working tree c :
  contact_tree fuel tbl working = Some tree -> In c working -> In c tree.
Proof.
  intros H Hc. destruct working as [| w ws]; [contradiction |].
  destruct fuel as [| fuel]; [discriminate |]. cbn [contact_tree] in H.
  destruct (contact_tree fuel tbl (childrenOf tbl (w :: ws)));
    [| discriminate].
  inversion H. apply (in_or_app (w :: ws) _ c). left. exact Hc.
Qed.

Lemma contact_tree_closed tbl : forall fuel working tree,
  contact_tree fuel tbl working = Some tree ->
  forall w c, In w tree -> In c (childrenOf tbl [w]) -> In c tree.
Proof.
  induction fuel as [| fuel IH]; intros working tree H w c Hw Hc.
  - destruct working; [| discriminate]. inversion H; subst. contradiction.
  - destruct working as [| w0 ws]; [inversion H; subst; contradiction |].
    cbn [contact_tree] in H.
    destruct (contact_tree fuel tbl (childrenOf tbl (w0 :: ws)))
      as [rest |] eqn:E; [| discriminate].
    inversion H; subst tree. apply (in_or_app (w0 :: ws) _ c). right.
    apply (in_app_or (w0 :: ws) _ w) in Hw. destruct Hw as [Hw | Hw].
    + apply (contact_tree_working _ _ _ _ _ E).
      apply childrenOf_In in Hc. destruct Hc as (w' & [<- | []] & Hc).
      apply childrenOf_In. exists w. split; [exact Hw | exact Hc].
    + apply (IH _ _ E w c Hw Hc).
Qed.

Lemma below_children tbl working c :
  below tbl (childrenOf tbl working) c -> below tbl working c.
Proof.
  induction 1 as [c Hc | w c _ IH Hc].
  - apply childrenOf_In in Hc. destruct Hc as (w & Hw & Hc).
    apply (below_child _ _ w); [apply below_here; exact Hw |].
    apply childrenOf_In. exists w. split; [left; reflexivity | exact Hc].
  - apply (below_child _ _ w); assumption.
Qed.

Lemma contact_tree_below tbl : forall fuel working tree,
  contact_tree fuel tbl working = Some tree ->
  forall c, In c tree <-> below tbl working c.
Proof.
  intros fuel working tree H c. split.
  - revert working tree H c.
    induction fuel as [| fuel IH]; intros working tree H c Hc.
    + destruct working; [| discriminate]. inversion H; subst. contradiction.
    + destruct working as [| w0 ws]; [inversion H; subst; contradiction |].
      cbn [contact_tree] in H.
      destruct (contact_tree fuel tbl (childrenOf tbl (w0 :: ws)))
        as [rest |] eqn:E; [| discriminate].
      inversion H; subst tree. apply (in_app_or (w0 :: ws) _ c) in Hc.
      destruct Hc as [Hc | Hc]; [apply below_here; exact Hc |].
      apply below_children. apply (IH _ _ E). exact Hc.
  - induction 1 as [c Hc | w c _ IH Hc].
    + apply (contact_tree_working _ _ _ _ _ H Hc).
    + apply (contact_tree_closed _ _ _ _ H w c IH Hc).
Qed.

Lemma below_linkedFrom tbl pid c :
  below tbl (filter (fun c => (id c =? pid)%Z && isNull (deletedAt c)) tbl) c
  <-> linkedFrom tbl pid c.
Proof.
  split.
  - induction 1 as [c Hc | w c _ IH Hc].
    + apply filter_In in Hc. destruct Hc as [Hc Hm].
      apply andb_true_iff in Hm. destruct Hm as [Hi Hd].
      apply Z.eqb_eq in Hi.
      apply linkedFrom_root; auto. destruct (deletedAt c);
        [discriminate | reflexivity].
    + apply childrenOf_In in Hc. destruct Hc as (w' & [<- | []] & Hc).
      apply (linkedFrom_child _ _ w); tauto.
  - induction 1 as [c Hc Hi Hd | w c _ IH Hc Hl Hd].
    + apply below_here. apply filter_In. split; [exact Hc |].
      rewrite Hi, Z.eqb_refl, Hd. reflexivity.
    + apply (below_child _ _ w); [exact IH |].
      apply childrenOf_In. exists w. split; [left; reflexivity | auto].
Qed.

(** X9. When the query of getLinkedContacts returns, it returns exactly the
    rows linked, through any number of links, to the live row of the
    requested id, in (createdAt, id) order, and the store is as it was. *)
Theorem X9_getLinkedContacts_closure (env : Env) (fuel : nat) (primaryId : Z)
    (st : Store) (k : nat) (cl : list Contact) (st' : Store) (k' : nat) :
  getLinkedContacts env fuel primaryId (st, k) = (Ok cl, (st', k')) ->
  st' = st /\
  (forall c, In c cl <-> linkedFrom (rows st) primaryId c) /\
  StronglySorted createdAtIdLe cl.
Proof.
  intros H. apply getLinkedContacts_inv in H.
  destruct H as (-> & _ & H). destruct (H cl eq_refl) as [_ Hl].
  split; [reflexivity |].
  split; [| apply (linkedContacts_sorted _ _ _ _ Hl)].
  unfold linkedContacts in Hl.
  destruct (contact_tree fuel (rows st) _) as [tree |] eqn:E;
    [| discriminate].
  inversion Hl; subst cl. intros c.
  rewrite sort_In, (contact_tree_below _ _ _ _ E). apply below_linkedFrom.
Qed.

Lemma X9_getLinkedContacts_closure_witness :
  linkedFrom (rows chainStore) 1
    (mkContact 3 None (Some "c") (Some 2) secondary 12 12 None).
Proof.
  apply (proj1 (proj2 (X9_getLinkedContacts_closure envUp 3 1 chainStore 0
                         (rows chainStore) chainStore 1 eq_refl))).
  simpl. auto.
Defined.

(** X10. For an id that no live row carries (never stored, or soft-deleted)
    getLinkedContacts returns the empty list at once, whatever else the
    store holds. *)
Theorem X10_getLinkedContacts_missing (env : Env) (fuel : nat)
    (primaryId : Z) (st : Store) (k : nat) :
  available env k = true ->
  (forall c, In c (rows st) -> id c = primaryId -> deletedAt c <> None) ->
  getLinkedContacts env fuel primaryId (st, k) = (Ok [], (st, S k)).
Proof.
  intros Ha Hmiss. apply getLinkedContacts_run; [exact Ha |].
  unfold linkedContacts. rewrite filter_nil.
  - destruct fuel; reflexivity.
  - intros c Hc. destruct (Z.eqb_spec (id c) primaryId) as [E | E];
      [| reflexivity].
    specialize (Hmiss c Hc E). destruct (deletedAt c); [reflexivity |].
    contradiction.
Qed.

Lemma X10_getLinkedContacts_missing_witness :
  getLinkedContacts envUp 0 7 (loopStore, 0%nat) = (Ok [], (loopStore, 1%nat)).
Proof.
  apply (X10_getLinkedContacts_missing envUp 0 7 loopStore 0).
  - reflexivity.
  - intros c [<- | []] H. discriminate.
Defined.

(** ** How identify can fail *)

Lemma sameOrDown_statement {A : Type}
    (query : Z -> Store -> outcome A * Store) :
  sameOrDown (fun env => statement env query).
Proof.
  intros env [st k]. unfold statement. simpl.
  destruct (available env k); [left; reflexivity | right; eauto].
Qed.

Lemma sameOrDown_const {A : Type} (m : M A) : sameOrDown (fun _ => m).
Proof. intros env r. left. reflexivity. Qed.

Lemma sameOrDown_bind {A B : Type} (m : Env -> M A) (f : Env -> A -> M B) :
  sameOrDown m -> (forall a, sameOrDown (fun env => f env a)) ->
  sameOrDown (fun env => bind (m env) (f env)).
Proof.
  intros Hm Hf env r. unfold bind.
  destruct (Hm env r) as [E | (r' & E)]; rewrite E.
  - destruct (m (answering env) r) as [[a | e |] r1]; [| left; reflexivity..].
    apply (Hf a env r1).
  - right. eauto.
Qed.

Lemma sameOrDown_mapM {A B : Type} (f : Env -> A -> M B) l :
  (forall a, sameOrDown (fun env => f env a)) ->
  sameOrDown (fun env => mapM (f env) l).
Proof.
  intros Hf. induction l as [| a l IH]; simpl.
  - apply sameOrDown_const.
  - apply (sameOrDown_bind (fun env => f env a)); [apply Hf | intros b].
    apply (sameOrDown_bind (fun env => mapM (f env) l)); [exact IH |].
    intros bs. apply sameOrDown_const.
Qed.

Lemma sameOrDown_demoteAll o l : sameOrDown (fun env => demoteAll env o l).
Proof.
  induction l as [| p l IH]; simpl.
  - apply sameOrDown_const.
  - destruct p as [p |]; [destruct o as [o |] |];
      try apply sameOrDown_const.
    apply (sameOrDown_bind (fun env => updateContactToSecondary env _ _));
      [apply sameOrDown_statement | intros _].
    apply (sameOrDown_bind (fun env => updateLinkedContactsPrimary env _ _));
      [apply sameOrDown_statement | intros _].
    exact IH.
Qed.

Lemma sameOrDown_extendAndBuild e p pid l :
  sameOrDown (fun env => extendAndBuild env e p pid l).
Proof.
  unfold extendAndBuild. destruct (introducesNew e p l).
  - apply (sameOrDown_bind (fun env => createContact env _ _ _ _));
      [apply sameOrDown_statement | intros c]. apply sameOrDown_const.
  - apply sameOrDown_const.
Qed.

Lemma sameOrDown_identify fuel req :
  sameOrDown (fun env => identify env fuel req).
Proof.
  unfold identify.
  apply (sameOrDown_bind (fun env => findContactsByEmailOrPhone env _ _));
    [apply sameOrDown_statement | intros cands].
  destruct cands as [| c0 cands].
  - apply (sameOrDown_bind (fun env => createContact env _ _ _ _));
      [apply sameOrDown_statement | intros c]. apply sameOrDown_const.
  - destruct (uniquePrimaryIds (c0 :: cands)) as [| i1 [| i2 ids]].
    + apply sameOrDown_const.
    + apply (sameOrDown_bind (fun env => getLinkedContacts env fuel i1));
        [apply sameOrDown_statement | intros l].
      apply sameOrDown_extendAndBuild.
    + apply (sameOrDown_bind
               (fun env => mapM (getLinkedContacts env fuel)
                                (i1 :: i2 :: ids))).
      { apply (sameOrDown_mapM (fun env => getLinkedContacts env fuel)).
        intros a. apply sameOrDown_statement. }
      intros groups.
      apply (sameOrDown_bind (fun env => demoteAll env _ _));
        [apply sameOrDown_demoteAll | intros _].
      destruct (hd None _) as [o |]; [| apply sameOrDown_const].
      apply (sameOrDown_bind (fun env => getLinkedContacts env fuel (id o)));
        [apply sameOrDown_statement | intros l].
      apply sameOrDown_extendAndBuild.
Qed.

(** X5. On a store that satisfies the invariants identify fails only
    because the store does not answer a statement or because the request
    carries neither an email nor a phone number: the "Unexpected state"
    fallback and the reads of an undefined primary are never reached, and
    every materialization returns. *)
Theorem X5_failures_on_valid_store (env : Env) (fuel : nat)
    (request : IdentifyRequest) (st : Store) (k : nat)
    (o : outcome ConsolidatedContact) (r' : Run) :
  wfStore st -> (2 <= fuel)%nat ->
  identify env fuel request (st, k) = (o, r') ->
  (exists v, o = Ok v) \/
  o = Throw StoreUnavailable \/
  (o = Throw SqlSyntaxError /\
   truthy (r_email request) || truthy (r_phoneNumber request) = false).
Proof.
  intros Hwf Hf Hrun.
  destruct (sameOrDown_identify fuel request env (st, k)) as [E | (r1 & E)].
  - rewrite E in Hrun.
    destruct (identify_keeps (answering env) fuel request st k Hwf
                (answering_available env) Hf)
      as (o1 & st1 & k1 & Hrun1 & Hok & _).
    rewrite Hrun in Hrun1. inversion Hrun1; subst o1.
    destruct (truthy (r_email request) || truthy (r_phoneNumber request))
      eqn:Hvalid.
    + left. apply Hok. reflexivity.
    + right. right. split; [| reflexivity].
      rewrite (identify_rejects (answering env) fuel request st k
                 (answering_available env) Hvalid) in Hrun.
      inversion Hrun. reflexivity.
  - rewrite E in Hrun. inversion Hrun. auto.
Qed.

Lemma X5_failures_on_valid_store_witness :
  (exists v, @Throw ConsolidatedContact StoreUnavailable = Ok v) \/
  @Throw ConsolidatedContact StoreUnavailable = Throw StoreUnavailable \/
  (@Throw ConsolidatedContact StoreUnavailable = Throw SqlSyntaxError /\
   truthy (Some "s") || truthy (Some "p") = false).
Proof.
  apply (X5_failures_on_valid_store (envDownAt 4) 3
           (mkRequest (Some "s") (Some "p")) tieStore 0
           (Throw StoreUnavailable) (tieTorn, 5%nat)).
  - apply wfStoreb_sound. reflexivity.
  - lia.
  - reflexivity.
Defined.

(** ** How much identify writes *)

Lemma sameSize_refl st : sameSize st st.
Proof. split; reflexivity. Qed.

Lemma sameSize_trans a b c : sameSize a b -> sameSize b c -> sameSize a c.
Proof. unfold sameSize. intros [H1 H2] [H3 H4]. split; congruence. Qed.

Lemma sameSize_atMostOneMore a b c :
  sameSize a b -> atMostOneMore b c -> atMostOneMore a c.
Proof.
  intros Hab [Hbc | (kept & x & E & Hl & Hi & Hn)].
  - left. eapply sameSize_trans; eassumption.
  - right. exists kept, x. destruct Hab as [H1 H2].
    repeat split; congruence.
Qed.

Lemma preserves_step {A B : Type} (m : M A) (f : A -> M B) :
  preserves sameSize m -> (forall a, preserves atMostOneMore (f a)) ->
  preserves atMostOneMore (bind m f).
Proof.
  intros Hm Hf st k o st' k' H. apply bind_inv in H.
  destruct H as [(a & [st1 k1] & H1 & H2) | [(e & H1 & _) | [H1 _]]].
  - eapply sameSize_atMostOneMore; [eapply Hm | eapply Hf]; eassumption.
  - left. eapply Hm; eassumption.
  - left. eapply Hm; eassumption.
Qed.

Lemma sameSize_find env e p :
  preserves sameSize (findContactsByEmailOrPhone env e p).
Proof. apply preserves_find. apply sameSize_refl. Qed.

Lemma sameSize_getLinked env fuel pid :
  preserves sameSize (getLinkedContacts env fuel pid).
Proof. apply preserves_getLinked. apply sameSize_refl. Qed.

Lemma sameSize_demoteAll env o l : preserves sameSize (demoteAll env o l).
Proof.
  apply preserves_demoteAll.
  - apply sameSize_refl.
  - apply sameSize_trans.
  - intros now st cid lid. split; simpl; [apply length_map | reflexivity].
  - intros now st old new. split; simpl; [apply length_map | reflexivity].
Qed.

Lemma atMostOneMore_create env e p l prec :
  preserves atMostOneMore
    (c <- createContact env e p l prec ;; lift (buildConsolidatedContact [c])).
Proof.
  intros st k o st' k' H. apply bind_inv in H.
  destruct H as [(c & [st1 k1] & H1 & H2) | [(e1 & H1 & _) | [H1 _]]].
  - inversion H2; subst. apply statement_inv in H1.
    destruct H1 as [_ [[_ H1] | [_ [H1 _]]]]; [| discriminate].
    inversion H1; subst. right. eexists _, _. simpl. repeat split.
  - apply statement_inv in H1.
    destruct H1 as [_ [[_ H1] | [_ [_ ->]]]];
      [discriminate | left; apply sameSize_refl].
  - apply statement_inv in H1.
    destruct H1 as [_ [[_ H1] | [_ [H1 _]]]]; discriminate.
Qed.

Lemma atMostOneMore_extendAndBuild env e p pid cl :
  preserves atMostOneMore (extendAndBuild env e p pid cl).
Proof.
  unfold extendAndBuild. destruct (introducesNew e p cl).
  - intros st k o st' k' H. apply bind_inv in H.
    destruct H as [(c & [st1 k1] & H1 & H2) | [(e1 & H1 & _) | [H1 _]]].
    + inversion H2; subst. apply statement_inv in H1.
      destruct H1 as [_ [[_ H1] | [_ [H1 _]]]]; [| discriminate].
      inversion H1; subst. right. eexists _, _. simpl. repeat split.
    + apply statement_inv in H1.
      destruct H1 as [_ [[_ H1] | [_ [_ ->]]]];
        [discriminate | left; apply sameSize_refl].
    + apply statement_inv in H1.
      destruct H1 as [_ [[_ H1] | [_ [H1 _]]]]; discriminate.
  - intros st k o st' k' H. inversion H; subst. left. apply sameSize_refl.
Qed.

(** X4. Whatever the store, the request and the outcome, one call of
    identify adds at most one row; a row it adds is the last one and has
    the id the sequence stood at, and the sequence advances by one exactly
    then. *)
Theorem X4_at_most_one_row (env : Env) (fuel : nat)
    (request : IdentifyRequest) (st : Store) (k : nat)
    (o : outcome ConsolidatedContact) (st' : Store) (k' : nat) :
  identify env fuel request (st, k) = (o, (st', k')) ->
  atMostOneMore st st'.
Proof.
  revert st k o st' k'. change (preserves atMostOneMore
                                  (identify env fuel request)).
  unfold identify. apply preserves_step; [apply sameSize_find |].
  intros cands. destruct cands as [| c0 cands].
  - apply atMostOneMore_create.
  - destruct (uniquePrimaryIds (c0 :: cands)) as [| i1 [| i2 ids]].
    + intros st k o st' k' H. inversion H; subst. left. apply sameSize_refl.
    + apply preserves_step; [apply sameSize_getLinked |].
      intros cl. apply atMostOneMore_extendAndBuild.
    + apply preserves_step.
      { apply preserves_mapM; [apply sameSize_refl | apply sameSize_trans |].
        intros a. apply sameSize_getLinked. }
      intros groups. apply preserves_step; [apply sameSize_demoteAll |].
      intros _. destruct (hd None _) as [p |].
      * apply preserves_step; [apply sameSize_getLinked |].
        intros cl. apply atMostOneMore_extendAndBuild.
      * intros st k o st' k' H. inversion H; subst. left.
        apply sameSize_refl.
Qed.

Lemma X4_at_most_one_row_witness : atMostOneMore sharedStore
  (fst (snd (identify envUp 3 (mkRequest (Some "n") (Some "p"))
               (sharedStore, 0%nat)))).
Proof.
  destruct (identify envUp 3 (mkRequest (Some "n") (Some "p"))
              (sharedStore, 0%nat)) as [o [st' k']] eqn:E.
  exact (X4_at_most_one_row envUp 3 (mkRequest (Some "n") (Some "p"))
           sharedStore 0 o st' k' E).
Defined.

(** ** No match *)




(** ** What a call leaves behind *)

Lemma insertSorted_snoc {A : Type} (cmp : A -> A -> Z) b a s :
  cmp b a <= 0 ->
  insertSorted cmp b (s ++ [a]) = insertSorted cmp b s ++ [a].
Proof.
  intros H. induction s as [| x s IH]; simpl.
  - destruct (Z.leb_spec (cmp b a) 0); [reflexivity | lia].
  - destruct (cmp b x <=? 0)%Z; [reflexivity |]. rewrite IH. reflexivity.
Qed.

Lemma sort_snoc {A : Type} (cmp : A -> A -> Z) l a :
  Forall (fun b => cmp b a <= 0) l ->
  sort cmp (l ++ [a]) = sort cmp l ++ [a].
Proof.
  induction 1 as [| b l Hb Hl IH]; simpl; [reflexivity |].
  rewrite IH. apply insertSorted_snoc. exact Hb.
Qed.

Lemma isCandidate_sameIdentity e p c c' :
  sameIdentity c c' -> isCandidate e p c' <-> isCandidate e p c.
Proof.
  intros (_ & E1 & E2 & _ & E3). unfold isCandidate.
  rewrite E1, E2, E3. reflexivity.
Qed.

Lemma hasNew_false_carried field v l :
  hasNew v (existing field l) = false -> carried field v l.
Proof.
  intros H s -> Hs. unfold hasNew in H.
  destruct (String.eqb_spec s ""); [contradiction |]. simpl in H.
  apply negb_false_iff in H. apply includes_In in H.
  unfold existing in H. apply in_somes, filter_In in H.
  destruct H as [H _]. apply in_map_iff in H.
  destruct H as (c & E & Hc). eauto.
Qed.

Lemma carried_hasNew_false field v l :
  carried field v l -> hasNew v (existing field l) = false.
Proof.
  intros H. destruct (hasNew v (existing field l)) eqn:E; [| reflexivity].
  exfalso. apply hasNew_spec in E. destruct E as (s & -> & Hs & Hnone).
  destruct (H s eq_refl Hs) as (c & Hc & Ec). exact (Hnone c Hc Ec).
Qed.

Lemma introducesNew_false e p l :
  introducesNew e p l = false <->
  carried email e l /\ carried phoneNumber p l.
Proof.
  unfold introducesNew. rewrite orb_false_iff. split.
  - intros [H1 H2]. split; apply hasNew_false_carried; assumption.
  - intros [H1 H2]. split; apply carried_hasNew_false; assumption.
Qed.

Lemma carried_orNull field v c l :
  field c = orNull v -> In c l -> carried field v l.
Proof.
  intros E Hc s -> Hs. exists c. split; [exact Hc |].
  rewrite E. unfold orNull. simpl.
  destruct (String.eqb_spec s ""); [contradiction | reflexivity].
Qed.

Lemma carried_incl field v l l' :
  (forall c, In c l -> In c l') -> carried field v l -> carried field v l'.
Proof.
  intros Hsub H s E Hs. destruct (H s E Hs) as (c & Hc & Ec). eauto.
Qed.

Lemma fresh_id_unlinked st c :
  wfStore st -> In c (rows st) -> linkedId c <> Some (nextId st).
Proof.
  intros Hwf Hc E.
  pose proof (wf_linked_is_secondary st c _ Hwf Hc E) as Hs.
  destruct (wf_flat st Hwf c Hc Hs) as (q & Hq & Hl & _).
  pose proof (wf_id_bounds st q Hwf Hq). rewrite Hl in E.
  inversion E. lia.
Qed.

Lemma clusterOf_after_insert st now e p l prec q :
  wfStore st -> In q (rows st) ->
  let c := insertedContact now st e p l prec in
  clusterOf (rows st ++ [c]) q
  = clusterOf (rows st) q ++ (if sqlEqId l (id q) then [c] else []).
Proof.
  intros Hwf Hq c. unfold clusterOf, secondariesOf.
  rewrite filter_app. simpl. rewrite andb_true_r.
  destruct (sqlEqId l (id q)); reflexivity.
Qed.

(** On a store that satisfies the invariants and answers, a call with an
    email or a phone number returns the view built from a list [final] of
    the members of one cluster of the store it leaves: every contact
    matching the request is in that cluster, the values of the request are
    carried by members, and, when the clock is not behind the stored
    rows, [final] is that cluster in (createdAt, id) order. *)
Lemma identify_final env fuel req st k :
  wfStore st -> (forall j, available env j = true) -> (2 <= fuel)%nat ->
  truthy (r_email req) || truthy (r_phoneNumber req) = true ->
  exists o final v st' k',
    identify env fuel req (st, k) = (Ok v, (st', k')) /\
    wfStore st' /\ In o (rows st') /\ linkPrecedence o = primary /\
    buildConsolidatedContact final = Ok v /\
    Permutation final (clusterOf (rows st') o) /\
    carried email (r_email req) final /\
    carried phoneNumber (r_phoneNumber req) final /\
    (forall c, In c (rows st') ->
               isCandidate (r_email req) (r_phoneNumber req) c ->
               In c (clusterOf (rows st') o)) /\
    (clockAhead env st k ->
     final = sort byCreatedAtId (clusterOf (rows st') o)).
Proof.
  intros Hwf Ha Hf Hvalid.
  destruct (sort byCreatedAt
              (filter (matchesEmailOrPhone (r_email req) (r_phoneNumber req))
                      (rows st))) as [| c0 cs] eqn:Ec.
  - (* nothing matches: a new primary *)
    destruct (identify_no_match env fuel req st k Ha Hvalid Ec) as (v & Hv).
    set (c := insertedContact (NOW env (S k)) st (orNull (r_email req))
                (orNull (r_phoneNumber req)) None primary) in *.
    assert (Hb : buildConsolidatedContact [c] = Ok v).
    { unfold identify, bind in Hv. rewrite findContacts_run in Hv by auto.
      rewrite Ec in Hv. rewrite createContact_run in Hv by auto.
      unfold lift in Hv. fold c in Hv. exact (f_equal fst Hv). }
    assert (Hnone : filter (matchesEmailOrPhone (r_email req)
                              (r_phoneNumber req)) (rows st) = []).
    { destruct (filter _ (rows st)) as [| x xs] eqn:Ef; [reflexivity |].
      exfalso. assert (Hx : In x (sort byCreatedAt (x :: xs)))
        by (apply sort_In; left; reflexivity).
      rewrite Ec in Hx. contradiction. }
    assert (Hwf' : wfStore (mkStore (rows st ++ [c]) (nextId st + 1)))
      by (apply insert_wf; auto).
    assert (Hcl : clusterOf (rows st ++ [c]) c = [c]).
    { unfold clusterOf, secondariesOf. rewrite filter_app. simpl.
      rewrite app_nil_r. f_equal. apply filter_nil. intros x Hx.
      destruct (sqlEqId (linkedId x) (nextId st)) eqn:E; [| reflexivity].
      apply sqlEqId_true in E.
      exfalso. exact (fresh_id_unlinked st x Hwf Hx E). }
    exists c, [c], v, (mkStore (rows st ++ [c]) (nextId st + 1)), (S (S k)).
    split; [exact Hv |]. split; [exact Hwf' |].
    split; [apply in_or_app; right; left; reflexivity |].
    split; [reflexivity |]. split; [exact Hb |]. cbn [rows]. rewrite Hcl.
    split; [reflexivity |].
    split; [apply (carried_orNull email _ c); [reflexivity | left; auto] |].
    split; [apply (carried_orNull phoneNumber _ c);
            [reflexivity | left; auto] |].
    split; [| reflexivity].
    intros x Hx Hcand. apply in_app_iff in Hx.
    destruct Hx as [Hx | Hx]; [| exact Hx].
    exfalso. assert (Hin : In x (filter (matchesEmailOrPhone (r_email req)
                                           (r_phoneNumber req)) (rows st))).
    { apply filter_In. split; [exact Hx |].
      apply matchesEmailOrPhone_spec. exact Hcand. }
    rewrite Hnone in Hin. contradiction.
  - (* matches: the cluster of the survivor *)
    destruct (identify_reaches env fuel req st k Hwf Ha Hf Hvalid)
      as (o & others & kd & k1 & Hperm & Hall & Hsorted & Hchosen & Hk1 &
          Hrun).
    { rewrite Ec. discriminate. }
    cbn zeta in Hrun.
    set (rows1 := map (demotedRow env kd (id o) (map id others)) (rows st))
      in *.
    set (st1 := mkStore rows1 (nextId st)) in *.
    assert (Hndo : NoDup (map id (o :: others))).
    { eapply Permutation_NoDup; [apply Permutation_sym, Hperm |].
      apply uniquePrimaryIds_spec. }
    destruct (mc_o st o others Hall) as [Ho Hop].
    assert (Hwf1 : wfStore st1).
    { apply merged_wf; auto.
      - intros i. apply (mc_abs st o others Hall).
      - apply (mc_o_fresh o others Hndo).
      - apply (mc_nodup o others Hndo). }
    assert (Ho1 : In o rows1).
    { apply (merged_keeps_survivor env kd st o (map id others)); auto.
      apply (mc_o_fresh o others Hndo). }
    pose proof (mc_cases env kd st o others Hwf Hall Hndo) as Hcases.
    fold rows1 in Hcases.
    assert (Hsub : forall x,
              In x (sort byCreatedAt
                      (filter (matchesEmailOrPhone (r_email req)
                                 (r_phoneNumber req)) (rows st))) ->
              In x (rows st)).
    { intros x Hx. apply sort_In, filter_In in Hx. apply Hx. }
    assert (Hcand1 : forall c', In c' rows1 ->
              isCandidate (r_email req) (r_phoneNumber req) c' ->
              In c' (clusterOf rows1 o)).
    { intros c' Hc' Hcand. apply in_map_iff in Hc'.
      destruct Hc' as (c & <- & Hc).
      destruct (Hcases c Hc) as (Hsame & _).
      apply (isCandidate_sameIdentity _ _ _ _ Hsame) in Hcand.
      apply (merged_cluster_members env kd st o others Hwf Hall Hndo c Hc).
      assert (Hin : In c (List.concat (map (clusterOf (rows st))
                                           (o :: others)))).
      { apply (match_in_union st _ (o :: others) c Hwf Hsub Hperm Hall).
        apply sort_In, filter_In. split; [exact Hc |].
        apply matchesEmailOrPhone_spec. exact Hcand. }
      apply in_concat in Hin. destruct Hin as (cl & Hcl & Hin).
      apply in_map_iff in Hcl. destruct Hcl as (q & <- & Hq). eauto. }
    destruct (extendAndBuild_run env (r_email req) (r_phoneNumber req) (id o)
                (sort byCreatedAtId (clusterOf (rows st1) o)) st1 k1 (Ha k1)
                (cluster_has_primary (rows st1) o Hop))
      as (v & st' & k' & Hext & Hend).
    change (rows st1) with rows1 in Hend.
    destruct Hend as [(Hno & -> & -> & Hb) | (Hyes & -> & -> & Hb)].
    + exists o, (sort byCreatedAtId (clusterOf rows1 o)), v, st1, k1.
      split; [rewrite Hrun; exact Hext |]. split; [exact Hwf1 |].
      split; [exact Ho1 |]. split; [exact Hop |]. split; [exact Hb |].
      split; [apply sort_perm |].
      apply introducesNew_false in Hno. destruct Hno as [He Hp].
      split; [exact He |]. split; [exact Hp |].
      split; [exact Hcand1 | reflexivity].
    + set (c := insertedContact (NOW env k1) st1 (orNull (r_email req))
                  (orNull (r_phoneNumber req)) (Some (id o)) secondary) in *.
      assert (Hcl : clusterOf (rows1 ++ [c]) o = clusterOf rows1 o ++ [c]).
      { pose proof (clusterOf_after_insert st1 (NOW env k1)
                      (orNull (r_email req)) (orNull (r_phoneNumber req))
                      (Some (id o)) secondary o Hwf1 Ho1) as H.
        cbn zeta in H. fold c in H. simpl sqlEqId in H.
        rewrite Z.eqb_refl in H. exact H. }
      exists o, (sort byCreatedAtId (clusterOf rows1 o) ++ [c]), v,
        (mkStore (rows1 ++ [c]) (nextId st + 1)), (S k1).
      split; [rewrite Hrun; exact Hext |].
      split.
      { apply (insert_wf (NOW env k1) st1 (orNull (r_email req))
                 (orNull (r_phoneNumber req)) (Some (id o)) secondary Hwf1).
        right. split; [reflexivity |]. exists o. auto. }
      split; [apply in_or_app; left; exact Ho1 |].
      split; [exact Hop |]. split; [exact Hb |]. cbn [rows]. rewrite Hcl.
      split; [apply Permutation_app_tail, sort_perm |].
      split; [apply (carried_orNull email _ c);
              [reflexivity | apply in_or_app; right; left; auto] |].
      split; [apply (carried_orNull phoneNumber _ c);
              [reflexivity | apply in_or_app; right; left; auto] |].
      split.
      { intros x Hx Hcand. apply in_app_iff in Hx. apply in_or_app.
        destruct Hx as [Hx | Hx]; [left; auto | right; exact Hx]. }
      intros Hclock. symmetry. apply sort_snoc.
      apply Forall_forall. intros b Hb'.
      pose proof (clusterOf_rows _ _ _ Ho1 Hb') as Hin.
      pose proof (wf_id_bounds st1 b Hwf1 Hin) as Hid.
      apply in_map_iff in Hin. destruct Hin as (b0 & E & Hb0).
      destruct (Hcases b0 Hb0) as ((_ & _ & _ & Et & _) & _).
      rewrite E in Et.
      pose proof (Hclock b0 k1 Hb0 Hk1) as Hle.
      apply byCreatedAtId_le. unfold createdAtIdLe, c. simpl.
      simpl in Hid. lia.
Qed.

Lemma build_of_cluster st o final v :
  wfStore st -> In o (rows st) -> linkPrecedence o = primary ->
  Permutation final (clusterOf (rows st) o) ->
  buildConsolidatedContact final = Ok v ->
  primaryContatctId v = id o /\
  secondaryContactIds v
  = map id (filter isSecondary (sort primaryFirst final)) /\
  (forall s, In s (emails v) <->
             s <> "" /\ exists c, In c final /\ email c = Some s) /\
  (forall s, In s (phoneNumbers v) <->
             s <> "" /\ exists c, In c final /\ phoneNumber c = Some s).
Proof.
  intros Hwf Ho Hop Hperm Hb.
  assert (Hin : forall c, In c final <-> In c (clusterOf (rows st) o)).
  { intros c. split; apply Permutation_in;
      [exact Hperm | apply Permutation_sym, Hperm]. }
  assert (Hu : forall c, In c final -> linkPrecedence c = primary -> c = o).
  { intros c Hc Hp. apply Hin in Hc. destruct Hc as [<- | Hc];
      [reflexivity |].
    apply secondariesOf_In in Hc. destruct Hc as (Hc & Hl & _).
    pose proof (wf_linked_is_secondary st c (id o) Hwf Hc Hl). congruence. }
  assert (Hof : In o final) by (apply Hin; left; reflexivity).
  assert (Hsec : forall c, In c (filter isSecondary (sort primaryFirst final))
                           <-> In c final /\ linkPrecedence c = secondary).
  { intros c. rewrite filter_In, sort_In. unfold isSecondary.
    destruct (linkPrecedence c); intuition congruence. }
  assert (Hcases : forall c, In c final ->
             c = o \/ In c (filter isSecondary (sort primaryFirst final))).
  { intros c Hc. destruct (linkPrecedence c) eqn:Ep.
    - left. apply Hu; assumption.
    - right. apply Hsec. auto. }
  unfold buildConsolidatedContact in Hb.
  rewrite (find_unique isPrimary (sort primaryFirst final) o) in Hb.
  2: apply sort_In; exact Hof.
  2: apply isPrimary_true; exact Hop.
  2: { intros y Hy Hyp. apply Hu; [apply sort_In in Hy; exact Hy |].
       apply isPrimary_true. exact Hyp. }
  inversion Hb as [Hv]. clear Hb. simpl.
  split; [reflexivity |]. split; [reflexivity |].
  destruct (fold_pushNew_spec email
              (filter isSecondary (sort primaryFirst final))
              (pushNew [] (email o)) (pushNew_NoDup _ _ (NoDup_nil _)))
    as [_ He].
  destruct (fold_pushNew_spec phoneNumber
              (filter isSecondary (sort primaryFirst final))
              (pushNew [] (phoneNumber o)) (pushNew_NoDup _ _ (NoDup_nil _)))
    as [_ Hp].
  split.
  - intros s. rewrite He, pushNew_In. split.
    + intros [[[] | [Hs E]] | (Hs & c & Hc & E)]; [eauto |].
      split; [exact Hs |]. exists c. apply Hsec in Hc. destruct Hc. auto.
    + intros (Hs & c & Hc & E).
      destruct (Hcases c Hc) as [-> | Hc']; [auto | eauto].
  - intros s. rewrite Hp, pushNew_In. split.
    + intros [[[] | [Hs E]] | (Hs & c & Hc & E)]; [eauto |].
      split; [exact Hs |]. exists c. apply Hsec in Hc. destruct Hc. auto.
    + intros (Hs & c & Hc & E).
      destruct (Hcases c Hc) as [-> | Hc']; [auto | eauto].
Qed.

Lemma returned_is_valid env fuel req st k v r' :
  identify env fuel req (st, k) = (Ok v, r') ->
  truthy (r_email req) || truthy (r_phoneNumber req) = true.
Proof.
  intros H. apply steady_identify in H.
  destruct (truthy (r_email req) || truthy (r_phoneNumber req)) eqn:E;
    [reflexivity |].
  rewrite (identify_rejects (answering env) fuel req st k) in H;
    [discriminate | reflexivity | exact E].
Qed.

(** What a returning call on a store that satisfies the invariants leaves:
    [identify_final] read at the run the call took. *)
Lemma identify_returned env fuel req st k v st' k' :
  wfStore st -> (2 <= fuel)%nat ->
  identify env fuel req (st, k) = (Ok v, (st', k')) ->
  exists o final,
    wfStore st' /\ In o (rows st') /\ linkPrecedence o = primary /\
    buildConsolidatedContact final = Ok v /\
    Permutation final (clusterOf (rows st') o) /\
    carried email (r_email req) final /\
    carried phoneNumber (r_phoneNumber req) final /\
    (forall c, In c (rows st') ->
               isCandidate (r_email req) (r_phoneNumber req) c ->
               In c (clusterOf (rows st') o)) /\
    (clockAhead env st k ->
     final = sort byCreatedAtId (clusterOf (rows st') o)).
Proof.
  intros Hwf Hf H. pose proof (returned_is_valid _ _ _ _ _ _ _ H) as Hvalid.
  apply steady_identify in H.
  destruct (identify_final (answering env) fuel req st k Hwf
              (fun _ => eq_refl) Hf Hvalid)
    as (o & final & v0 & st0 & k0 & Hrun & Hrest).
  rewrite Hrun in H. inversion H; subst.
  exists o, final. exact Hrest.
Qed.



Lemma filter_all {A : Type} (f : A -> bool) l :
  (forall x, In x l -> f x = true) -> filter f l = l.
Proof.
  induction l as [| a l IH]; intros H; simpl; [reflexivity |].
  rewrite (H a) by (left; reflexivity). f_equal. apply IH.
  intros x Hx. apply H. right. exact Hx.
Qed.

Lemma cluster_secondaries st o :
  wfStore st -> linkPrecedence o = primary ->
  filter isSecondary (clusterOf (rows st) o) = secondariesOf (rows st) (id o).
Proof.
  intros Hwf Hop. unfold clusterOf. simpl. unfold isSecondary at 1.
  rewrite Hop. apply filter_all. intros x Hx.
  apply secondariesOf_In in Hx. destruct Hx as (Hx & Hl & _).
  unfold isSecondary.
  rewrite (wf_linked_is_secondary st x (id o) Hwf Hx Hl). reflexivity.
Qed.

Lemma view_secondaries st o final v :
  wfStore st -> In o (rows st) -> linkPrecedence o = primary ->
  Permutation final (clusterOf (rows st) o) ->
  buildConsolidatedContact final = Ok v ->
  Permutation (secondaryContactIds v)
              (map id (secondariesOf (rows st) (id o))).
Proof.
  intros Hwf Ho Hop Hperm Hb.
  destruct (build_of_cluster st o final v Hwf Ho Hop Hperm Hb)
    as (_ & -> & _).
  apply Permutation_map. rewrite <- (cluster_secondaries st o Hwf Hop).
  apply filter_perm. etransitivity; [apply sort_perm | exact Hperm].
Qed.

(** X3. After a call that returns on a store satisfying the invariants,
    every stored contact that matches the request is the primary the view
    names or a secondary linked to it whose id the view lists: one call
    leaves no match outside the identity it answers with. *)
Theorem X3_matches_gathered env fuel req st k v st' k' :
  wfStore st -> (2 <= fuel)%nat ->
  identify env fuel req (st, k) = (Ok v, (st', k')) ->
  forall c, In c (rows st') ->
            isCandidate (r_email req) (r_phoneNumber req) c ->
            (id c = primaryContatctId v /\ linkPrecedence c = primary) \/
            (linkedId c = Some (primaryContatctId v) /\
             linkPrecedence c = secondary /\
             In (id c) (secondaryContactIds v)).
Proof.
  intros Hwf Hf H c Hc Hcand.
  destruct (identify_returned _ _ _ _ _ _ _ _ Hwf Hf H)
    as (o & final & Hwf' & Ho & Hop & Hb & Hperm & _ & _ & Hall & _).
  destruct (build_of_cluster st' o final v Hwf' Ho Hop Hperm Hb)
    as (Hid & _).
  pose proof (view_secondaries st' o final v Hwf' Ho Hop Hperm Hb) as Hsec.
  rewrite Hid. destruct (Hall c Hc Hcand) as [<- | Hin].
  - left. auto.
  - right. pose proof Hin as Hin'. apply secondariesOf_In in Hin'.
    destruct Hin' as (_ & Hl & _).
    split; [exact Hl |].
    split; [exact (wf_linked_is_secondary st' c (id o) Hwf' Hc Hl) |].
    apply (Permutation_in _ (Permutation_sym Hsec)).
    apply in_map. exact Hin.
Qed.

Lemma X3_matches_gathered_witness :
  (3 = 2 /\ secondary = primary) \/
  (Some 2 = Some 2 /\ secondary = secondary /\ In 3 [3; 4]).
Proof.
  apply (X3_matches_gathered envUp 2 (mkRequest (Some "b") (Some "q"))
           sharedStore 0 (mkConsolidated 2 ["b"] ["p"; "r"; "q"] [3; 4])
           (fst (snd (identify envUp 2 (mkRequest (Some "b") (Some "q"))
                        (sharedStore, 0%nat))))
           (snd (snd (identify envUp 2 (mkRequest (Some "b") (Some "q"))
                        (sharedStore, 0%nat))))
           (wfStoreb_sound sharedStore eq_refl) (le_n 2) eq_refl
           (mkContact 3 (Some "r") (Some "b") (Some 2) secondary 30 30 None)).
  - vm_compute. auto.
  - split; [reflexivity |]. left. split; reflexivity.
Defined.

(** X8. The view a returning call answers with describes the store the
    call leaves behind: it names a stored primary, its secondary ids are
    the ids of the rows linked to that primary, each once, and its emails
    and phone numbers are the non-empty values of that primary and of
    those rows. *)
Theorem X8_view_describes_store env fuel req st k v st' k' :
  wfStore st -> (2 <= fuel)%nat ->
  identify env fuel req (st, k) = (Ok v, (st', k')) ->
  wfStore st' /\
  exists o,
    In o (rows st') /\ linkPrecedence o = primary /\
    primaryContatctId v = id o /\
    Permutation (secondaryContactIds v)
                (map id (secondariesOf (rows st') (id o))) /\
    NoDup (primaryContatctId v :: secondaryContactIds v) /\
    (forall s, In s (emails v) <->
       s <> "" /\ exists c, In c (clusterOf (rows st') o) /\
                            email c = Some s) /\
    (forall s, In s (phoneNumbers v) <->
       s <> "" /\ exists c, In c (clusterOf (rows st') o) /\
                            phoneNumber c = Some s).
Proof.
  intros Hwf Hf H.
  destruct (identify_returned _ _ _ _ _ _ _ _ Hwf Hf H)
    as (o & final & Hwf' & Ho & Hop & Hb & Hperm & _).
  destruct (build_of_cluster st' o final v Hwf' Ho Hop Hperm Hb)
    as (Hid & _ & Hem & Hph).
  pose proof (view_secondaries st' o final v Hwf' Ho Hop Hperm Hb) as Hsec.
  assert (Hin : forall c, In c final <-> In c (clusterOf (rows st') o)).
  { intros c. split; apply Permutation_in;
      [exact Hperm | apply Permutation_sym, Hperm]. }
  split; [exact Hwf' |]. exists o.
  split; [exact Ho |]. split; [exact Hop |]. split; [exact Hid |].
  split; [exact Hsec |]. split.
  { rewrite Hid.
    apply (Permutation_NoDup
             (l := map id (clusterOf (rows st') o))).
    - unfold clusterOf. simpl. constructor. apply Permutation_sym, Hsec.
    - apply cluster_ids_NoDup; assumption. }
  split.
  - intros s. rewrite Hem. split; intros (Hs & c & Hc & E);
      (split; [exact Hs |]); exists c; (split; [apply Hin; exact Hc |]);
      exact E.
  - intros s. rewrite Hph. split; intros (Hs & c & Hc & E);
      (split; [exact Hs |]); exists c; (split; [apply Hin; exact Hc |]);
      exact E.
Qed.

Lemma X8_view_describes_store_witness :
  exists o,
    In o (rows (fst (snd (identify envUp 2 (mkRequest (Some "b") (Some "q"))
                            (sharedStore, 0%nat))))) /\
    linkPrecedence o = primary /\ 2 = id o.
Proof.
  destruct (X8_view_describes_store envUp 2
              (mkRequest (Some "b") (Some "q")) sharedStore 0
              (mkConsolidated 2 ["b"] ["p"; "r"; "q"] [3; 4])
              (fst (snd (identify envUp 2 (mkRequest (Some "b") (Some "q"))
                           (sharedStore, 0%nat))))
              (snd (snd (identify envUp 2 (mkRequest (Some "b") (Some "q"))
                           (sharedStore, 0%nat))))
              (wfStoreb_sound sharedStore eq_refl) (le_n 2) eq_refl)
    as (_ & o & Ho & Hop & Hid & _).
  exists o. auto.
Defined.




(** ** The route *)

Lemma validated_request body :
  validateIdentifyRequest body = None ->
  truthy (r_email (asRequest body))
  || truthy (r_phoneNumber (asRequest body)) = true.
Proof.
  unfold validateIdentifyRequest, asRequest. cbn [r_email r_phoneNumber].
  destruct body as [e p]. cbn [b_email b_phoneNumber].
  destruct e as [| | [] | [] | s |], p as [| | [] | [] | t |];
    cbn [jsTruthy isString asField truthy negb andb orb];
    try discriminate;
    try (destruct (s =? ""); cbn; try discriminate; intros _; reflexivity);
    try (destruct (t =? ""); cbn; try discriminate; intros _;
         try reflexivity; apply orb_true_r).
  destruct (s =? ""), (t =? ""); cbn; try discriminate; reflexivity.
Qed.

Lemma rejected_status body resp :
  validateIdentifyRequest body = Some resp -> status resp = 400.
Proof.
  unfold validateIdentifyRequest.
  destruct (negb (jsTruthy (b_email body))
            && negb (jsTruthy (b_phoneNumber body)));
    [intros H; inversion H; reflexivity |].
  destruct (jsTruthy (b_email body) && negb (isString (b_email body)));
    [intros H; inversion H; reflexivity |].
  destruct (jsTruthy (b_phoneNumber body)
            && negb (isString (b_phoneNumber body)));
    [intros H; inversion H; reflexivity | discriminate].
Qed.

(** X12. On a store that satisfies the invariants every POST /identify is
    answered, in one of three ways: with the 400 of the validation, and
    then no statement was sent and the store is untouched; with 200 and
    the view identify returned, and then the store still satisfies the
    invariants; or with 500 "Internal server error", and then either the
    body never reached the validation as an object (the parser passed an
    error on, or left the body undefined), no statement was sent and the
    store is untouched, or the store left some statement unanswered.  A
    body that passes the validation never runs into the malformed lookup,
    the missing primary or the "Unexpected state" fallback. *)
Theorem X12_endpoint_on_valid_store (env : Env) (fuel : nat)
    (req : Incoming) (st : Store) (k : nat) :
  wfStore st -> (2 <= fuel)%nat ->
  exists resp r',
    postIdentify env fuel req (st, k) = (Some resp, r') /\
    ((exists body,
        req = BodyObject body /\
        validateIdentifyRequest body = Some resp /\ status resp = 400 /\
        r' = (st, k)) \/
     (exists body v,
        req = BodyObject body /\ validateIdentifyRequest body = None /\
        resp = Json 200 (ContactPayload v) /\
        identify env fuel (asRequest body) (st, k) = (Ok v, r') /\
        wfStore (fst r')) \/
     (resp = Json 500 (ErrorPayload "Internal server error") /\
      (((req = ParseError \/ req = BodyUndefined) /\ r' = (st, k)) \/
       (exists body,
          req = BodyObject body /\ validateIdentifyRequest body = None /\
          ~ (forall j, available env j = true))))).
Proof.
  intros Hwf Hf. unfold postIdentify.
  destruct req as [| | body].
  - exists errorMiddleware, (st, k). split; [reflexivity |].
    right. right. split; [reflexivity |]. left. auto.
  - exists errorMiddleware, (st, k). split; [reflexivity |].
    right. right. split; [reflexivity |]. left. auto.
  - unfold identifyRoute.
    destruct (validateIdentifyRequest body) as [rejected |] eqn:Ev.
    + exists rejected, (st, k). split; [reflexivity |]. left.
      exists body. split; [reflexivity |]. split; [exact Ev |].
      split; [| reflexivity]. apply (rejected_status body). exact Ev.
    + pose proof (validated_request body Ev) as Hvalid.
      destruct (identify_final (answering env) fuel (asRequest body) st k
                  Hwf (answering_available env) Hf Hvalid)
        as (o & final & v & st' & k' & Hrun & Hwf' & _).
      destruct (sameOrDown_identify fuel (asRequest body) env (st, k))
        as [E | (r1 & E)].
      * rewrite E, Hrun. eexists _, _. split; [reflexivity |].
        right. left. exists body, v. split; [reflexivity |].
        split; [exact Ev |]. split; [reflexivity |].
        split; [rewrite E; exact Hrun | exact Hwf'].
      * rewrite E. eexists _, _. split; [reflexivity |].
        right. right. split; [reflexivity |]. right. exists body.
        split; [reflexivity |]. split; [exact Ev |].
        intros Hall.
        destruct (identify_final env fuel (asRequest body) st k Hwf Hall Hf
                    Hvalid) as (o2 & f2 & v2 & st2 & k2 & Hrun2 & _).
        rewrite Hrun2 in E. discriminate.
Qed.

Lemma X12_endpoint_on_valid_store_witness :
  exists resp r',
    postIdentify (envDownAt 1) 2
      (BodyObject (mkBody (JString "b") (JNumber true)))
      (sharedStore, 0%nat) = (Some resp, r').
Proof.
  destruct (X12_endpoint_on_valid_store (envDownAt 1) 2
              (BodyObject (mkBody (JString "b") (JNumber true)))
              sharedStore 0
              (wfStoreb_sound sharedStore eq_refl) (le_n 2))
    as (resp & r' & H & _).
  exists resp, r'. exact H.
Defined.

(** ** The statements one after another *)



(** X14. On a store that satisfies the invariants, the primary ids that
    identify resolves from a non-empty list of stored matches are not
    empty, hold no id twice, and are exactly the ids of the stored
    primaries that are a match themselves or the link of a match. *)
Theorem X14_owning_primaries (st : Store) (cands : list Contact) :
  wfStore st -> (forall c, In c cands -> In c (rows st)) -> cands <> [] ->
  uniquePrimaryIds cands <> [] /\
  NoDup (uniquePrimaryIds cands) /\
  forall i, In i (uniquePrimaryIds cands) <->
            exists q c, In q (rows st) /\ linkPrecedence q = primary /\
                        id q = i /\ In c cands /\
                        (c = q \/ linkedId c = Some i).
Proof.
  intros Hwf Hsub Hne.
  destruct (uniquePrimaryIds_spec cands) as [Hnd Hin].
  split; [apply (owners_nonempty st); assumption |].
  split; [exact Hnd |]. intros i. rewrite Hin. split.
  - intros (c & Hc & Hown). unfold ownerOf in Hown.
    destruct (linkPrecedence c) eqn:Ep.
    + inversion Hown; subst. exists c, c. auto 6.
    + destruct (truthyId (linkedId c)); [| discriminate].
      destruct (wf_flat st Hwf c (Hsub c Hc) Ep) as (q & Hq & Hl & Hqp).
      exists q, c. rewrite Hl in Hown. inversion Hown; subst.
      auto 6.
  - intros (q & c & Hq & Hqp & Hid & Hc & [-> | Hl]).
    + exists q. split; [exact Hc |]. unfold ownerOf. rewrite Hqp.
      congruence.
    + exists c. split; [exact Hc |]. unfold ownerOf.
      rewrite (wf_linked_is_secondary st c i Hwf (Hsub c Hc) Hl), Hl.
      pose proof (wf_id_bounds st q Hwf Hq). simpl.
      destruct (Z.eqb_spec i 0); [lia | reflexivity].
Qed.

Lemma X14_owning_primaries_witness :
  uniquePrimaryIds (rows sharedStore) <> [].
Proof.
  apply (X14_owning_primaries sharedStore (rows sharedStore)
           (wfStoreb_sound sharedStore eq_refl) (fun c H => H)).
  discriminate.
Defined.

Lemma map_unchanged {A : Type} (f : A -> A) l :
  (forall x, In x l -> f x = x) -> map f l = l.
Proof.
  induction l as [| a l IH]; intros H; simpl; [reflexivity |].
  rewrite (H a) by (left; reflexivity). f_equal. apply IH.
  intros x Hx. apply H. right. exact Hx.
Qed.

(** X15. The two updates do not look at how many rows they changed: when
    no stored contact has the given id, [updateContactToSecondary]
    returns with the store as it was, and so does
    [updateLinkedContactsPrimary] when no stored contact is linked to the
    old primary. *)
Theorem X15_updates_without_target (env : Env) (st : Store) (k : nat)
    (target newPrimaryId : Z) :
  available env k = true ->
  ((forall c, In c (rows st) -> id c <> target) ->
   updateContactToSecondary env target newPrimaryId (st, k)
   = (Ok tt, (st, S k))) /\
  ((forall c, In c (rows st) -> linkedId c <> Some target) ->
   updateLinkedContactsPrimary env target newPrimaryId (st, k)
   = (Ok tt, (st, S k))).
Proof.
  intros Ha. split; intros Hno.
  - unfold updateContactToSecondary, statement. rewrite Ha.
    rewrite map_unchanged; [destruct st; reflexivity |].
    intros c Hc. unfold toSecondary.
    destruct (Z.eqb_spec (id c) target) as [E | _]; [| reflexivity].
    exfalso. exact (Hno c Hc E).
  - unfold updateLinkedContactsPrimary, statement. rewrite Ha.
    rewrite map_unchanged; [destruct st; reflexivity |].
    intros c Hc. unfold toNewPrimary.
    destruct (sqlEqId (linkedId c) target) eqn:E; [| reflexivity].
    exfalso. apply sqlEqId_true in E. exact (Hno c Hc E).
Qed.

Lemma X15_updates_without_target_witness :
  updateContactToSecondary envUp 9 1 (sharedStore, 0%nat)
  = (Ok tt, (sharedStore, 1%nat)) /\
  updateLinkedContactsPrimary envUp 1 2 (sharedStore, 0%nat)
  = (Ok tt, (sharedStore, 1%nat)).
Proof.
  destruct (X15_updates_without_target envUp sharedStore 0 9 1 eq_refl)
    as [H1 _].
  destruct (X15_updates_without_target envUp sharedStore 0 1 2 eq_refl)
    as [_ H2].
  split; [apply H1 | apply H2]; intros c Hc; simpl in Hc;
    destruct Hc as [<- | [<- | [<- | []]]]; discriminate.
Defined.

(** ** Demotion is one-way *)

Lemma stays_refl c : stays c c.
Proof. repeat split; auto. Qed.

Lemma stays_trans a b c : stays a b -> stays b c -> stays a c.
Proof.
  unfold stays. intros (H1 & H2 & H3) (H4 & H5 & H6).
  repeat split; [congruence | auto | auto].
Qed.

Lemma Forall2_stays_trans l1 l2 l3 :
  Forall2 stays l1 l2 -> Forall2 stays l2 l3 -> Forall2 stays l1 l3.
Proof.
  intros H. revert l3. induction H; intros l3 H3; inversion H3; subst;
    constructor; eauto using stays_trans.
Qed.

Lemma keeps_refl st : keeps st st.
Proof.
  exists (rows st), []. rewrite app_nil_r. split; [reflexivity |].
  induction (rows st); constructor; auto using stays_refl.
Qed.

Lemma keeps_trans a b c : keeps a b -> keeps b c -> keeps a c.
Proof.
  intros (k1 & c1 & E1 & F1) (k2 & c2 & E2 & F2).
  rewrite E1 in F2. apply Forall2_app_inv_l in F2.
  destruct F2 as (k2a & k2b & Fa & Fb & ->).
  exists k2a, (k2b ++ c2). rewrite E2, app_assoc. split; [reflexivity |].
  eapply Forall2_stays_trans; eassumption.
Qed.

Lemma keeps_map (f : Contact -> Contact) st :
  (forall c, stays c (f c)) ->
  keeps st (mkStore (map f (rows st)) (nextId st)).
Proof.
  intros H. exists (map f (rows st)), []. simpl. rewrite app_nil_r.
  split; [reflexivity |]. apply Forall2_map_r. exact H.
Qed.

(** X16. Whatever the store, the request, the availability of the
    database and the outcome, a call of identify leaves every stored row
    in its place under its id; a row that was a secondary is still a
    secondary and a row that had a link still has one: no call promotes a
    contact or unlinks it. *)
Theorem X16_demotion_is_one_way (env : Env) (fuel : nat)
    (request : IdentifyRequest) (st : Store) (k : nat)
    (o : outcome ConsolidatedContact) (st' : Store) (k' : nat) :
  identify env fuel request (st, k) = (o, (st', k')) ->
  exists kept created,
    rows st' = kept ++ created /\
    Forall2 (fun c c' =>
               id c' = id c /\
               (linkPrecedence c = secondary ->
                linkPrecedence c' = secondary) /\
               (linkedId c <> None -> linkedId c' <> None))
            (rows st) kept.
Proof.
  intros H.
  apply (preserves_identify keeps keeps_refl keeps_trans) in H;
    [exact H | | |].
  - intros now st0 e p l prec. eexists (rows st0), [_]. simpl.
    split; [reflexivity |].
    induction (rows st0); constructor; auto using stays_refl.
  - intros now st0 cid lid. apply keeps_map. intros c. unfold toSecondary.
    destruct (id c =? cid)%Z; [| apply stays_refl].
    repeat split; simpl; auto; discriminate.
  - intros now st0 old new. apply keeps_map. intros c. unfold toNewPrimary.
    destruct (sqlEqId (linkedId c) old); [| apply stays_refl].
    repeat split; simpl; auto; discriminate.
Qed.

Lemma X16_demotion_is_one_way_witness :
  exists kept created,
    rows (fst (snd (identify envUp 2 (mkRequest (Some "a") (Some "r"))
                      (sharedStore, 0%nat)))) = kept ++ created /\
    List.length kept = 3%nat.
Proof.
  destruct (X16_demotion_is_one_way envUp 2
              (mkRequest (Some "a") (Some "r")) sharedStore 0
              (fst (identify envUp 2 (mkRequest (Some "a") (Some "r"))
                      (sharedStore, 0%nat)))
              (fst (snd (identify envUp 2 (mkRequest (Some "a") (Some "r"))
                           (sharedStore, 0%nat))))
              (snd (snd (identify envUp 2 (mkRequest (Some "a") (Some "r"))
                           (sharedStore, 0%nat))))
              eq_refl)
    as (kept & created & E & F).
  exists kept, created. split; [exact E |].
  symmetry. exact (Forall2_length F).
Defined.
